(** * Conversion of Prometheus metric families to remote-write time series

    A shallow embedding of [MetricFamiliesToTimeSeries] and
    [FlattenTimeSeriesMap] of package [main] of
    [prometheus_remote_client_golang/cmd/promremotecli], in the two versions
    the repository holds:

    - [Decomposed]: src/unnamed/part_000, which expands histograms and
      summaries into [_sum], [_count] and per-bucket / per-quantile series;
    - [Collapsed]: src/cmd/promremotecli/main.go, which emits one series per
      metric.

    Go slices are lists, the Go map is a [gmap] keyed by the metric name,
    [int64] is [Z] with its wrap-around written out, [uint64] is [N],
    [float64] is an IEEE-754 binary64 value in the representation of
    [SpecFloat].  Pointers to optional protobuf fields are [option]s read
    through the generated getters; the elements of the repeated fields
    ([metricFamilies], [Metric], [Label], [Bucket], [Quantile]) are taken to
    be non-nil, as the registry's [Gather] delivers them. *)

From Stdlib Require Import ZArith NArith Ascii String List.
From Stdlib Require Import Floats.SpecFloat.
From stdpp Require Import gmap strings list fin_maps.

Local Open Scope string_scope.
Local Open Scope list_scope.

Set Warnings "-clear-no-such-hyp".

(** ** Machine numbers *)

Definition float64 : Type := spec_float.

Definition prec64 : Z := 53.
Definition emax64 : Z := 1024.

#[global] Instance spec_float_eq_dec : EqDecision spec_float.
Proof. solve_decision. Defined.

(** [+Inf], as [math.Inf(1)]. *)
Definition float64_inf : float64 := S754_infinity false.

(** The conversion [float64(n)] of a [uint64]: the nearest binary64 value,
    ties to even. *)
Definition float64_of_uint64 (n : N) : float64 :=
  binary_normalize prec64 emax64 (Z.of_N n) 0 false.

(** The conversion of an untyped integer constant to [float64]. *)
Definition float64_of_Z (z : Z) : float64 :=
  binary_normalize prec64 emax64 z 0 false.

Definition int64_min : Z := - 2 ^ 63.
Definition int64_max : Z := 2 ^ 63 - 1.

Definition in_int64 (z : Z) : Prop := (int64_min ≤ z ≤ int64_max)%Z.

(** Two's-complement wrap-around of an [int64] result. *)
Definition wrap_int64 (z : Z) : Z :=
  ((z + 2 ^ 63) `mod` 2 ^ 64 - 2 ^ 63)%Z.

Definition int64_mul (a b : Z) : Z := wrap_int64 (a * b).

(** ** Package [time] *)

Module time.

(** An instant as [time.Unix] builds it: seconds since the Unix epoch and
    nanoseconds within the second. *)
Record Time : Type := mkTime { sec : Z; nsec : Z }.

#[global] Instance Time_eq_dec : EqDecision Time.
Proof. solve_decision. Defined.

(** [time.Millisecond], a [Duration] in nanoseconds. *)
Definition Millisecond : Z := 1000000.

(** [time.Unix(sec, nsec)]: [nsec] outside [0, 1e9) is carried into
    [sec]; Go's [/] truncates towards zero. *)
Definition Unix (sec nsec : Z) : Time :=
  if bool_decide (nsec < 0 ∨ 1000000000 ≤ nsec)%Z then
    let n := (nsec `quot` 1000000000)%Z in
    let sec := (sec + n)%Z in
    let nsec := (nsec - n * 1000000000)%Z in
    if bool_decide (nsec < 0)%Z
    then mkTime (sec - 1) (nsec + 1000000000)
    else mkTime sec nsec
  else mkTime sec nsec.

(** The instant [ms] milliseconds after the epoch ([time.UnixMilli]). *)
Definition UnixMilli (ms : Z) : Time :=
  mkTime (ms `div` 1000) ((ms `mod` 1000) * 1000000).

Definition epoch : Time := mkTime 0 0.

End time.

(** ** Rendering and reading of [float64] values

    [fmt.Sprintf("%g", f)] is Go's standard library, not code of the
    repository; the conversion only calls it. *)

Module strconv.

Local Open Scope Z_scope.

(** *** Decimal digit strings *)

Definition zero_char : ascii := "0"%char.

Definition digit_char (d : Z) : ascii := ascii_of_nat (48 + Z.to_nat d).

Definition is_digit (c : ascii) : bool :=
  let n := nat_of_ascii c in (48 <=? n)%nat && (n <=? 57)%nat.

Definition digit_val (c : ascii) : Z := Z.of_nat (nat_of_ascii c) - 48.

(** Most significant digit first; [acc] holds the digits already
    produced. *)
Fixpoint digits_fuel (fuel : nat) (n : Z) (acc : list ascii) : list ascii :=
  match fuel with
  | O => acc
  | S fuel' =>
      let acc' := digit_char (n `mod` 10) :: acc in
      if n <? 10 then acc' else digits_fuel fuel' (n `div` 10) acc'
  end.

Definition decimal_digits (n : Z) : list ascii :=
  digits_fuel (S (Z.to_nat (Z.log2 n))) n [].

Definition digits_value (ds : list ascii) : Z :=
  foldl (λ acc c, acc * 10 + digit_val c) 0 ds.

(** *** Correct rounding of a decimal *)

(** The binary64 value nearest to [num / den], ties to even, by the
    division of [SpecFloat]. *)
Definition round_ratio (s : bool) (num den : positive) : float64 :=
  let '(mz, ez, lz) :=
    SFdiv_core_binary prec64 emax64 (Zpos num) 0 (Zpos den) 0 in
  binary_round_aux prec64 emax64 s mz ez lz.

(** Trailing zeros of [D] moved into the decimal exponent [p]. *)
Fixpoint strip_zeros (fuel : nat) (D p : Z) : Z * Z :=
  match fuel with
  | O => (D, p)
  | S fuel' =>
      if (D `mod` 10 =? 0) && (0 <? D)
      then strip_zeros fuel' (D `div` 10) (p + 1)
      else (D, p)
  end.

Definition normalize (D p : Z) : Z * Z :=
  strip_zeros (Z.to_nat (Z.log2 D)) D p.

(** The binary64 value nearest to [D * 10 ^ p], the decimal taken without
    its trailing zeros. *)
Definition round_decimal (s : bool) (D : Z) (p : Z) : float64 :=
  let '(D, p) := normalize D p in
  round_ratio s (Z.to_pos (D * 10 ^ Z.max p 0)) (Z.to_pos (10 ^ Z.max (- p) 0)).

(** *** Shortest digits *)

(** [m * 2 ^ e] written exactly as [N * 10 ^ q]. *)
Definition exact_decimal (m : positive) (e : Z) : Z * Z :=
  if 0 <=? e then (Zpos m * 2 ^ e, 0) else (Zpos m * 5 ^ (- e), e).

Definition reads_back (x : float64) (D p : Z) : bool :=
  (0 <? D) && bool_decide (round_decimal false D p = x).

(** The decimals with [n] digits on either side of [N * 10 ^ q], for
    [n = n0, n0 + 1, ...] in turn, until one reads back as [x]; of two that
    do, the nearer one, the even one on a tie.  [N] itself, with all its
    [nd] digits, is the last one tried. *)
Fixpoint shortest_search (fuel : nat) (x : float64) (N q nd n : Z) : Z * Z :=
  match fuel with
  | O => (N, q)
  | S fuel' =>
      if nd <=? n then (N, q) else
      let scale := 10 ^ (nd - n) in
      let lo := N `div` scale in
      let r := N `mod` scale in
      let hi := lo + 1 in
      let p := q + (nd - n) in
      match reads_back x lo p, reads_back x hi p with
      | true, true =>
          match 2 * r ?= scale with
          | Lt => (lo, p)
          | Gt => (hi, p)
          | Eq => if Z.even lo then (lo, p) else (hi, p)
          end
      | true, false => (lo, p)
      | false, true => (hi, p)
      | false, false => shortest_search fuel' x N q nd (n + 1)
      end
  end.

(** Modelled from the spec: the digits of formatFloat, "a shortest
    round-trippable decimal representation of the float64" (the digit
    generation of Go's [strconv], not in the repository): the digits and the
    decimal exponent of the shortest decimal that reads back as the positive
    finite [m * 2 ^ e], trailing zeros dropped. *)
Definition shortest (m : positive) (e : Z) : Z * Z :=
  let x := S754_finite false m e in
  let '(N, q) := exact_decimal m e in
  let nd := Z.of_nat (length (decimal_digits N)) in
  let '(D, p) := shortest_search (Z.to_nat nd) x N q nd 1 in
  normalize D p.

(** *** Layout *)

Definition sign_chars (neg : bool) : list ascii :=
  if neg then ["-"%char] else [].

Definition zeros (n : Z) : list ascii := replicate (Z.to_nat n) zero_char.

(** [%e]: [d.ddde±dd], all digits shown, at least two exponent digits. *)
Definition fmtE (neg : bool) (ds : list ascii) (dp : Z) : list ascii :=
  let exp := dp - 1 in
  sign_chars neg
  ++ take 1 ds
  ++ (if bool_decide (1 < length ds)%nat then "."%char :: drop 1 ds else [])
  ++ ["e"%char]
  ++ [if exp <? 0 then "-"%char else "+"%char]
  ++ (if Z.abs exp <? 10 then [zero_char] else [])
  ++ decimal_digits (Z.abs exp).

(** [%f]: [ddd.ddd], as many fraction digits as the digits need. *)
Definition fmtF (neg : bool) (ds : list ascii) (dp : Z) : list ascii :=
  let nd := Z.of_nat (length ds) in
  sign_chars neg
  ++ (if 0 <? dp then take (Z.to_nat dp) ds ++ zeros (dp - nd) else [zero_char])
  ++ (if dp <? nd then "."%char :: zeros (- dp) ++ drop (Z.to_nat dp) ds else []).

(** [%g] with the shortest digits: [%e] for a decimal exponent below -4
    or from 6 on, [%f] otherwise. *)
Definition formatDigits (neg : bool) (ds : list ascii) (dp : Z) : list ascii :=
  let exp := dp - 1 in
  if (exp <? -4) || (6 <=? exp) then fmtE neg ds dp else fmtF neg ds dp.

(** Modelled from the spec: formatFloat, the rendering of an upper bound or
    quantile ([strconv.FormatFloat(f, 'g', -1, 64)], which [fmt]'s verb [%g]
    prints; Go's standard library, not in the repository). *)
Definition FormatFloat_g (f : float64) : list ascii :=
  match f with
  | S754_nan => list_ascii_of_string "NaN"
  | S754_infinity false => list_ascii_of_string "+Inf"
  | S754_infinity true => list_ascii_of_string "-Inf"
  | S754_zero neg => sign_chars neg ++ [zero_char]
  | S754_finite neg m e =>
      let '(D, p) := shortest m e in
      let ds := decimal_digits D in
      formatDigits neg ds (Z.of_nat (length ds) + p)
  end.

(** *** Reading *)

(** The leading digits of [cs], and what follows them. *)
Fixpoint span_digits (cs : list ascii) : list ascii * list ascii :=
  match cs with
  | c :: cs' =>
      if is_digit c
      then let '(ds, rest) := span_digits cs' in (c :: ds, rest)
      else ([], cs)
  | [] => ([], [])
  end.

Definition read_sign (cs : list ascii) : bool * list ascii :=
  match cs with
  | c :: cs' =>
      if bool_decide (c = "-"%char) then (true, cs')
      else if bool_decide (c = "+"%char) then (false, cs')
      else (false, cs)
  | [] => (false, [])
  end.

Definition to_lower (c : ascii) : ascii :=
  let n := nat_of_ascii c in
  if (65 <=? n)%nat && (n <=? 90)%nat then ascii_of_nat (n + 32) else c.

(** The special values: [inf] and [infinity] with an optional sign, [nan]
    without one, in any case of the letters. *)
Definition special (cs : list ascii) : option float64 :=
  let '(signed, neg, body) :=
    match cs with
    | c :: cs' =>
        if bool_decide (c = "-"%char) then (true, true, cs')
        else if bool_decide (c = "+"%char) then (true, false, cs')
        else (false, false, cs)
    | [] => (false, false, [])
    end in
  let body := to_lower <$> body in
  if bool_decide (body = list_ascii_of_string "inf"
                  ∨ body = list_ascii_of_string "infinity")
  then Some (S754_infinity neg)
  else if bool_decide (signed = false ∧ body = list_ascii_of_string "nan")
  then Some S754_nan
  else None.

(** A decimal number [[+-]ddd[.ddd][e[+-]dd]]: its sign, the integer its
    digits spell, and the power of ten that scales it. *)
Definition readFloat (cs : list ascii) : option (bool * Z * Z) :=
  let '(neg, cs) := read_sign cs in
  let '(ip, cs) := span_digits cs in
  let '(fp, cs) :=
    match cs with
    | c :: cs' => if bool_decide (c = "."%char) then span_digits cs' else ([], cs)
    | [] => ([], [])
    end in
  if bool_decide (ip ++ fp = []) then None else
  let mant := digits_value (ip ++ fp) in
  let frac := Z.of_nat (length fp) in
  match cs with
  | [] => Some (neg, mant, - frac)
  | c :: cs' =>
      if bool_decide (to_lower c = "e"%char) then
        let '(eneg, cs'') := read_sign cs' in
        let '(ed, rest) := span_digits cs'' in
        if bool_decide (ed = [] ∨ rest ≠ []) then None
        else Some (neg, mant, (if eneg then - digits_value ed else digits_value ed) - frac)
      else None
  end.

(** Modelled from the spec: the parsing of a label string back as float64
    ([strconv.ParseFloat(s, 64)] for the special values and the decimal
    syntax; Go's standard library, not in the repository): the binary64 value
    nearest to the decimal, ties to even; [None] for a syntax error or a
    value out of range. *)
Definition ParseFloat (s : string) : option float64 :=
  let cs := list_ascii_of_string s in
  match special cs with
  | Some f => Some f
  | None =>
      match readFloat cs with
      | Some (neg, mant, exp) =>
          if mant =? 0 then Some (S754_zero neg) else
          match round_decimal neg mant exp with
          | S754_infinity _ => None
          | f => Some f
          end
      | None => None
      end
  end.

End strconv.

Module fmt.

(** [fmt.Sprintf("%g", f)]. *)
Definition Sprintf_g (f : float64) : string :=
  string_of_list_ascii (strconv.FormatFloat_g f).

End fmt.

(** ** Package [dto] (github.com/prometheus/client_model/go)

    The protobuf messages of a gathered snapshot, with the fields the
    conversion reads.  Every scalar field is optional (a pointer in Go); the
    generated getter gives the zero value of an unset field. *)

Module dto.

Record LabelPair : Type := mkLabelPair {
  LabelPair_Name : option string;
  LabelPair_Value : option string }.

Record Counter : Type := mkCounter { Counter_Value : option float64 }.

Record Gauge : Type := mkGauge { Gauge_Value : option float64 }.

Record Untyped : Type := mkUntyped { Untyped_Value : option float64 }.

Record Quantile : Type := mkQuantile {
  Quantile_Quantile : option float64;
  Quantile_Value : option float64 }.

Record Summary : Type := mkSummary {
  Summary_SampleCount : option N;
  Summary_SampleSum : option float64;
  Summary_Quantile : list Quantile }.

Record Bucket : Type := mkBucket {
  Bucket_CumulativeCount : option N;
  Bucket_UpperBound : option float64 }.

Record Histogram : Type := mkHistogram {
  Histogram_SampleCount : option N;
  Histogram_SampleSum : option float64;
  Histogram_Bucket : list Bucket }.

Record Metric : Type := mkMetric {
  Metric_Label : list LabelPair;
  Metric_Gauge : option Gauge;
  Metric_Counter : option Counter;
  Metric_Summary : option Summary;
  Metric_Untyped : option Untyped;
  Metric_Histogram : option Histogram;
  Metric_TimestampMs : option Z }.

Record MetricFamily : Type := mkMetricFamily {
  MetricFamily_Name : option string;
  MetricFamily_Metric : list Metric }.

Definition float64_zero : float64 := S754_zero false.

Definition LabelPair_GetName (m : LabelPair) : string :=
  default "" (LabelPair_Name m).
Definition LabelPair_GetValue (m : LabelPair) : string :=
  default "" (LabelPair_Value m).

Definition Counter_GetValue (m : Counter) : float64 :=
  default float64_zero (Counter_Value m).
Definition Gauge_GetValue (m : Gauge) : float64 :=
  default float64_zero (Gauge_Value m).

Definition Quantile_GetQuantile (m : Quantile) : float64 :=
  default float64_zero (Quantile_Quantile m).
Definition Quantile_GetValue (m : Quantile) : float64 :=
  default float64_zero (Quantile_Value m).

Definition Summary_GetSampleCount (m : Summary) : N :=
  default 0%N (Summary_SampleCount m).
Definition Summary_GetSampleSum (m : Summary) : float64 :=
  default float64_zero (Summary_SampleSum m).
Definition Summary_GetQuantile (m : Summary) : list Quantile :=
  Summary_Quantile m.

Definition Bucket_GetCumulativeCount (m : Bucket) : N :=
  default 0%N (Bucket_CumulativeCount m).
Definition Bucket_GetUpperBound (m : Bucket) : float64 :=
  default float64_zero (Bucket_UpperBound m).

Definition Histogram_GetSampleCount (m : Histogram) : N :=
  default 0%N (Histogram_SampleCount m).
Definition Histogram_GetSampleSum (m : Histogram) : float64 :=
  default float64_zero (Histogram_SampleSum m).
Definition Histogram_GetBucket (m : Histogram) : list Bucket :=
  Histogram_Bucket m.

Definition GetCounter (m : Metric) : option Counter := Metric_Counter m.
Definition GetGauge (m : Metric) : option Gauge := Metric_Gauge m.
Definition GetHistogram (m : Metric) : option Histogram := Metric_Histogram m.
Definition GetSummary (m : Metric) : option Summary := Metric_Summary m.
Definition GetTimestampMs (m : Metric) : Z := default 0%Z (Metric_TimestampMs m).

Definition GetName (m : MetricFamily) : string :=
  default "" (MetricFamily_Name m).

End dto.

(** ** Package [promremote] *)

Module promremote.

(** Modelled from the spec: the type declarations of package [promremote]
    (LabelPair, TimeSeriesPoint), which the two files import and whose
    source is not among them; the field names are those the conversion
    writes. *)
Record Label : Type := mkLabel { Name : string; Value : string }.

Record Datapoint : Type := mkDatapoint {
  Timestamp : time.Time;
  Datapoint_Value : float64 }.

Record TimeSeries : Type := mkTimeSeries {
  Labels : list Label;
  TimeSeries_Datapoint : Datapoint }.

#[global] Instance Label_eq_dec : EqDecision Label.
Proof. solve_decision. Defined.
#[global] Instance Datapoint_eq_dec : EqDecision Datapoint.
Proof. solve_decision. Defined.
#[global] Instance TimeSeries_eq_dec : EqDecision TimeSeries.
Proof. solve_decision. Defined.

End promremote.

Import dto promremote.

(** ** The conversion of src/unnamed/part_000 *)

Module Decomposed.

(** Lines 273-279: the metric's label pairs, copied in order. *)
Definition metricLabels (metric : Metric) : list Label :=
  foldl (λ labels labelPair,
           labels ++ [{| Name := LabelPair_GetName labelPair;
                         Value := LabelPair_GetValue labelPair |}])
        [] (Metric_Label metric).

(** Line 282. *)
Definition metricTimestamp (metric : Metric) : time.Time :=
  time.Unix 0 (int64_mul (GetTimestampMs metric) time.Millisecond).

(** Lines 271-428, the body of the loop over [metricFamily.Metric]:
    [series] as the metric finds it, and as it leaves it. *)
Definition convertMetric (metricName : string) (series : list TimeSeries)
    (metric : Metric) : list TimeSeries :=
  let labels := metricLabels metric in
  let timestamp := metricTimestamp metric in
  match GetCounter metric, GetGauge metric,
        GetHistogram metric, GetSummary metric with
  | Some counter, _, _, _ =>
      let counterLabels :=
        labels ++ [{| Name := "__name__"; Value := metricName |}] in
      series ++ [{| Labels := counterLabels;
                    TimeSeries_Datapoint :=
                      {| Timestamp := timestamp;
                         Datapoint_Value := Counter_GetValue counter |} |}]
  | None, Some gauge, _, _ =>
      let gaugeLabels :=
        labels ++ [{| Name := "__name__"; Value := metricName |}] in
      series ++ [{| Labels := gaugeLabels;
                    TimeSeries_Datapoint :=
                      {| Timestamp := timestamp;
                         Datapoint_Value := Gauge_GetValue gauge |} |}]
  | None, None, Some histogram, _ =>
      let sumLabels := [] ++ labels in
      let sumLabels :=
        sumLabels ++ [{| Name := "__name__"; Value := metricName +:+ "_sum" |}] in
      let series :=
        series ++ [{| Labels := sumLabels;
                      TimeSeries_Datapoint :=
                        {| Timestamp := timestamp;
                           Datapoint_Value := Histogram_GetSampleSum histogram |} |}] in
      let countLabels := [] ++ labels in
      let countLabels :=
        countLabels ++ [{| Name := "__name__"; Value := metricName +:+ "_count" |}] in
      let series :=
        series ++ [{| Labels := countLabels;
                      TimeSeries_Datapoint :=
                        {| Timestamp := timestamp;
                           Datapoint_Value :=
                             float64_of_uint64 (Histogram_GetSampleCount histogram) |} |}] in
      foldl (λ series bucket,
               let bucketLabels := [] ++ labels in
               let bucketLabels :=
                 bucketLabels
                 ++ [{| Name := "le";
                        Value := fmt.Sprintf_g (Bucket_GetUpperBound bucket) |};
                     {| Name := "__name__"; Value := metricName +:+ "_bucket" |}] in
               series ++ [{| Labels := bucketLabels;
                             TimeSeries_Datapoint :=
                               {| Timestamp := timestamp;
                                  Datapoint_Value :=
                                    float64_of_uint64
                                      (Bucket_GetCumulativeCount bucket) |} |}])
            series (Histogram_GetBucket histogram)
  | None, None, None, Some summary =>
      let sumLabels := [] ++ labels in
      let sumLabels :=
        sumLabels ++ [{| Name := "__name__"; Value := metricName +:+ "_sum" |}] in
      let series :=
        series ++ [{| Labels := sumLabels;
                      TimeSeries_Datapoint :=
                        {| Timestamp := timestamp;
                           Datapoint_Value := Summary_GetSampleSum summary |} |}] in
      let countLabels := [] ++ labels in
      let countLabels :=
        countLabels ++ [{| Name := "__name__"; Value := metricName +:+ "_count" |}] in
      let series :=
        series ++ [{| Labels := countLabels;
                      TimeSeries_Datapoint :=
                        {| Timestamp := timestamp;
                           Datapoint_Value :=
                             float64_of_uint64 (Summary_GetSampleCount summary) |} |}] in
      foldl (λ series quantile,
               let quantileLabels := [] ++ labels in
               let quantileLabels :=
                 quantileLabels
                 ++ [{| Name := "quantile";
                        Value := fmt.Sprintf_g (Quantile_GetQuantile quantile) |};
                     {| Name := "__name__"; Value := metricName |}] in
               series ++ [{| Labels := quantileLabels;
                             TimeSeries_Datapoint :=
                               {| Timestamp := timestamp;
                                  Datapoint_Value := Quantile_GetValue quantile |} |}])
            series (Summary_GetQuantile summary)
  | None, None, None, None => series
  end.

(** Lines 268-428: [series] as line 430 stores it under the family's
    name. *)
Definition convertFamily (metricFamily : MetricFamily) : list TimeSeries :=
  let metricName := GetName metricFamily in
  let series := [] in
  foldl (convertMetric metricName) series (MetricFamily_Metric metricFamily).

(** Lines 262-434. *)
Definition MetricFamiliesToTimeSeries (metricFamilies : list MetricFamily)
    : gmap string (list TimeSeries) :=
  let result := ∅ in
  foldl (λ result metricFamily,
           <[GetName metricFamily := convertFamily metricFamily]> result)
        result metricFamilies.

End Decomposed.

(** ** The conversion of src/cmd/promremotecli/main.go *)

Module Collapsed.

(** Lines 248-288, the body of the loop over [metricFamily.Metric]. *)
Definition convertMetric (metricName : string) (series : list TimeSeries)
    (metric : Metric) : list TimeSeries :=
  let labels :=
    foldl (λ labels labelPair,
             labels ++ [{| Name := LabelPair_GetName labelPair;
                           Value := LabelPair_GetValue labelPair |}])
          [] (Metric_Label metric) in
  let labels := labels ++ [{| Name := "__name__"; Value := metricName |}] in
  let value := S754_zero false in
  let value :=
    match GetCounter metric, GetGauge metric,
          GetHistogram metric, GetSummary metric with
    | Some counter, _, _, _ => Counter_GetValue counter
    | None, Some gauge, _, _ => Gauge_GetValue gauge
    | None, None, Some histogram, _ => Histogram_GetSampleSum histogram
    | None, None, None, Some summary => Summary_GetSampleSum summary
    | None, None, None, None => value
    end in
  series ++ [{| Labels := labels;
                TimeSeries_Datapoint :=
                  {| Timestamp :=
                       time.Unix 0 (int64_mul (GetTimestampMs metric)
                                              time.Millisecond);
                     Datapoint_Value := value |} |}].

Definition convertFamily (metricFamily : MetricFamily) : list TimeSeries :=
  let metricName := GetName metricFamily in
  let series := [] in
  foldl (convertMetric metricName) series (MetricFamily_Metric metricFamily).

(** Lines 239-294. *)
Definition MetricFamiliesToTimeSeries (metricFamilies : list MetricFamily)
    : gmap string (list TimeSeries) :=
  let result := ∅ in
  foldl (λ result metricFamily,
           <[GetName metricFamily := convertFamily metricFamily]> result)
        result metricFamilies.

End Collapsed.

(** ** [FlattenTimeSeriesMap], the same text in both files *)

(** A [range] over a Go map visits every entry once, in an order the
    language leaves open. *)
Definition map_range {V : Type} (m : gmap string V)
    (visited : list (string * V)) : Prop :=
  visited ≡ₚ map_to_list m.

(** The loop of [FlattenTimeSeriesMap] along one order of visit. *)
Definition flattenVisited (visited : list (string * list TimeSeries))
    : list TimeSeries :=
  let result := [] in
  foldl (λ result entry, result ++ entry.2) result visited.

(** part_000 lines 437-445, main.go lines 297-305: the results the call may
    return. *)
Inductive FlattenTimeSeriesMap (timeSeriesMap : gmap string (list TimeSeries))
    : list TimeSeries → Prop :=
  | Flatten_visited visited :
      map_range timeSeriesMap visited →
      FlattenTimeSeriesMap timeSeriesMap (flattenVisited visited).

(** ** Package [strings] *)

Module strings.

(** [strings.Index(s, substr)]: the index of the first instance of [substr]
    in [s], or -1 when [substr] is not present in [s]. *)
Fixpoint Index (s substr : string) : Z :=
  if String.prefix substr s then 0%Z
  else match s with
       | EmptyString => (-1)%Z
       | String _ s' =>
           let i := Index s' substr in
           if bool_decide (i = -1)%Z then (-1)%Z else (i + 1)%Z
       end.

(** The slice expressions [s[:i]] and [s[i:]] for [0 <= i <= len(s)]; the
    callers below stay within that range. *)
Definition slice_to (s : string) (i : Z) : string :=
  String.substring 0 (Z.to_nat i) s.

Definition slice_from (s : string) (i : Z) : string :=
  String.substring (Z.to_nat i) (String.length s - Z.to_nat i) s.

(** The loop of [strings.Split(s, sep)] for a non-empty [sep]: the piece
    before the first instance of [sep], then the pieces of what follows
    it. *)
Fixpoint genSplit (fuel : nat) (s sep : string) : list string :=
  let m := Index s sep in
  match fuel with
  | O => [s]
  | S fuel' =>
      if bool_decide (m < 0)%Z then [s]
      else slice_to s m
           :: genSplit fuel' (slice_from s (m + Z.of_nat (String.length sep))) sep
  end.

(** [strings.Split(s, sep)], [sep] non-empty: every instance of [sep] ends
    a piece, so there are at most [len(s)] of them. *)
Definition Split (s sep : string) : list string :=
  genSplit (String.length s) s sep.

End strings.

(** ** The command's flag values: part_000 lines 39-46 and 182-258, the same
    text as main.go lines 39-46 and 159-235 *)

(** An [error] by its message. *)
Definition error : Type := string.

(** [fmt.Sprintf("%d", n)] of an [int]. *)
Definition Sprintf_d (n : Z) : string :=
  string_of_list_ascii
    ((if bool_decide (n < 0)%Z then ["-"%char] else [])
     ++ strconv.decimal_digits (Z.abs n)).

Definition labelList : Type := list Label.

Record header : Type := mkHeader { header_name : string; header_value : string }.

#[global] Instance header_eq_dec : EqDecision header.
Proof. solve_decision. Defined.

Definition headerList : Type := list header.

Definition dp : Type := Datapoint.

(** [(t *labelList) Set]: the list as the call leaves it, and the error it
    returns ([None] is [nil]). *)
Definition labelList_Set (t : labelList) (value : string)
    : labelList * option error :=
  let labelPair := strings.Split value ":" in
  match labelPair with
  | [labelPair0; labelPair1] =>
      let label := {| Name := labelPair0; Value := labelPair1 |} in
      let t := t ++ [label] in
      (t, None)
  | _ =>
      (t, Some ("incorrect number of arguments to '-t': "
                +:+ Sprintf_d (Z.of_nat (length labelPair))))
  end.

Section library.

(** The calls into Go's library that the flag values make and whose result
    depends on Unicode tables, on the platform or on the clock:
    [strings.TrimSpace], [strings.ToLower], [strconv.Atoi] (its error
    dropped by the caller, so [None] stands for any), [strconv.ParseFloat]
    with bit size 64 (likewise) and [time.Now]. *)
Variable TrimSpace : string → string.
Variable ToLower : string → string.
Variable Atoi : string → option Z.
Variable ParseFloat64 : string → option float64.
Variable Now : time.Time.

(** [(h *headerList) Set]. *)
Definition headerList_Set (h : headerList) (value : string)
    : headerList * option error :=
  let firstSplit := strings.Index value ":" in
  if bool_decide (firstSplit = -1)%Z then
    (h, Some ("header missing separating colon: '" +:+ value +:+ "'"))
  else
    let h :=
      h ++ [ {| header_name := TrimSpace (strings.slice_to value firstSplit);
                header_value :=
                  TrimSpace (strings.slice_from value (firstSplit + 1)) |} ] in
    (h, None).

(** [(d *dp) Set]. *)
Definition dp_Set (d : dp) (value : string) : dp * option error :=
  let dp := strings.Split value "," in
  match dp with
  | [dp0; dp1] =>
      let ts :=
        if bool_decide (ToLower dp0 = "now") then inl Now
        else
          match Atoi dp0 with
          | None => inr ("unable to parse timestamp: " +:+ dp1)
          | Some i => inl (time.Unix i 0)
          end in
      match ts with
      | inr err => (d, Some err)
      | inl ts =>
          match ParseFloat64 dp1 with
          | None => (d, Some ("unable to parse value as float64: " +:+ dp0))
          | Some val =>
              let d := {| Timestamp := ts; Datapoint_Value := Datapoint_Value d |} in
              let d := {| Timestamp := Timestamp d; Datapoint_Value := val |} in
              (d, None)
          end
      end
  | _ =>
      (d, Some ("incorrect number of arguments to '-d': "
                +:+ Sprintf_d (Z.of_nat (length dp))))
  end.

End library.

(** part_000 lines 141-150, main.go lines 118-127: the headers of the write
    request; [None] is the nil map that [var headers] declares. *)
Definition requestHeaders (headerListFlag : headerList)
    : option (gmap string string) :=
  let headers := None in
  if bool_decide (0 < length headerListFlag) then
    let headers := ∅ in
    Some (foldl (λ headers header,
                   <[header_name header := header_value header]> headers)
                headers headerListFlag)
  else headers.

(** * Properties *)

(** ** Loops that append *)

Section append_loops.
Context {A B : Type}.

Lemma foldl_snoc_map (f : A → B) (l : list A) (init : list B) :
  foldl (λ acc x, acc ++ [f x]) init l = init ++ (f <$> l).
Proof.
  revert init. induction l as [|x l IH]; intros init; simpl.
  - by rewrite app_nil_r.
  - rewrite IH. by rewrite <- app_assoc.
Qed.

Lemma foldl_append_blocks (step : list B → A → list B) (block : A → list B) :
  (∀ acc x, step acc x = acc ++ block x) →
  ∀ l init, foldl step init l = init ++ concat (block <$> l).
Proof.
  intros Hstep l. induction l as [|x l IH]; intros init; simpl.
  - by rewrite app_nil_r.
  - rewrite IH, Hstep. by rewrite <- app_assoc.
Qed.

End append_loops.

(** ** The map built by the loop over the families *)

Section result_map.
Context {F V : Type} (key : F → string) (val : F → V).

Definition store_all (m : gmap string V) (l : list F) : gmap string V :=
  foldl (λ result x, <[key x := val x]> result) m l.

Lemma store_all_app m l1 l2 :
  store_all m (l1 ++ l2) = store_all (store_all m l1) l2.
Proof. apply foldl_app. Qed.

Lemma store_all_lookup_notin m l k :
  k ∉ key <$> l → store_all m l !! k = m !! k.
Proof.
  revert m. induction l as [|x l IH]; intros m Hk; simpl; [done|].
  rewrite fmap_cons, not_elem_of_cons in Hk. destruct Hk as [Hne Hk].
  unfold store_all in IH. rewrite IH by done.
  by rewrite lookup_insert_ne.
Qed.

(** The entry of a name is that of the last element that carries it. *)
Lemma store_all_lookup_last m before x after :
  key x ∉ key <$> after →
  store_all m (before ++ x :: after) !! key x = Some (val x).
Proof.
  intros Hk. rewrite store_all_app. simpl.
  change (foldl _ ?m0 after) with (store_all m0 after).
  rewrite store_all_lookup_notin by done.
  apply lookup_insert_eq.
Qed.

Lemma store_all_lookup_Some m l k v :
  store_all m l !! k = Some v →
  m !! k = Some v ∨ ∃ x, x ∈ l ∧ key x = k ∧ val x = v.
Proof.
  revert m. induction l as [|x l IH]; intros m H; simpl in *; [by left|].
  apply IH in H as [H | (y & Hy & Hk & Hv)].
  - destruct (decide (key x = k)) as [<-|Hne].
    + rewrite lookup_insert_eq in H. injection H as <-.
      right. exists x. split; [left|done].
    + rewrite lookup_insert_ne in H by done. by left.
  - right. exists y. split; [by right|done].
Qed.

Lemma store_all_is_Some m l k :
  is_Some (store_all m l !! k) ↔ is_Some (m !! k) ∨ k ∈ key <$> l.
Proof.
  revert m. induction l as [|x l IH]; intros m; simpl.
  - rewrite elem_of_nil. tauto.
  - unfold store_all in IH. rewrite IH, ?fmap_cons, elem_of_cons.
    rewrite lookup_insert_is_Some.
    destruct (decide (key x = k)) as [Heq|Hne]; [subst k|]; intuition congruence.
Qed.

End result_map.

(** ** Vocabulary of the statements *)

Definition point (labels : list Label) (t : time.Time) (v : float64) : TimeSeries :=
  {| Labels := labels;
     TimeSeries_Datapoint := {| Timestamp := t; Datapoint_Value := v |} |}.

(** The metric's own label pairs as series labels, in their order. *)
Definition sourceLabels (metric : Metric) : list Label :=
  (λ labelPair, {| Name := LabelPair_GetName labelPair;
                   Value := LabelPair_GetValue labelPair |}) <$> Metric_Label metric.

Definition nameLabel (value : string) : Label :=
  {| Name := "__name__"; Value := value |}.

(** The instant of every point of a metric, as both files compute it. *)
Definition timestampOf (metric : Metric) : time.Time :=
  time.Unix 0 (int64_mul (GetTimestampMs metric) time.Millisecond).

(** The names of the families of a snapshot, in order. *)
Definition familyNames (metricFamilies : list MetricFamily) : list string :=
  GetName <$> metricFamilies.

(** ** The decomposing conversion, metric by metric *)

Module DecomposedFacts.
Import Decomposed.

(** What one metric appends to [series]. *)
Definition metricPoints (metricName : string) (metric : Metric) : list TimeSeries :=
  convertMetric metricName [] metric.

(** [series] after the metrics [metrics] of a family named [metricName]. *)
Definition seriesOf (metricName : string) (metrics : list Metric) : list TimeSeries :=
  foldl (convertMetric metricName) [] metrics.

Lemma metricLabels_source metric : metricLabels metric = sourceLabels metric.
Proof. unfold metricLabels. by rewrite foldl_snoc_map. Qed.

Lemma convertMetric_appends metricName series metric :
  convertMetric metricName series metric = series ++ metricPoints metricName metric.
Proof.
  unfold metricPoints, convertMetric.
  destruct (GetCounter metric), (GetGauge metric),
    (GetHistogram metric), (GetSummary metric); simpl;
    rewrite ?foldl_snoc_map, ?app_nil_r; simpl;
    by rewrite <- ?app_assoc.
Qed.

Lemma seriesOf_concat metricName metrics :
  seriesOf metricName metrics = concat (metricPoints metricName <$> metrics).
Proof.
  unfold seriesOf.
  by rewrite (foldl_append_blocks _ _ (convertMetric_appends metricName)).
Qed.

Lemma seriesOf_split metricName before metric after :
  seriesOf metricName (before ++ metric :: after)
  = seriesOf metricName before ++ metricPoints metricName metric
    ++ seriesOf metricName after.
Proof. rewrite !seriesOf_concat, fmap_app, concat_app. by simpl. Qed.

Lemma convertFamily_series metricFamily :
  convertFamily metricFamily
  = seriesOf (GetName metricFamily) (MetricFamily_Metric metricFamily).
Proof. reflexivity. Qed.

Lemma convert_lookup_last before metricFamily after :
  GetName metricFamily ∉ familyNames after →
  MetricFamiliesToTimeSeries (before ++ metricFamily :: after)
    !! GetName metricFamily
  = Some (convertFamily metricFamily).
Proof. apply (store_all_lookup_last GetName convertFamily). Qed.

Lemma counter_points metricName metric counter :
  GetCounter metric = Some counter →
  metricPoints metricName metric
  = [point (sourceLabels metric ++ [nameLabel metricName]) (timestampOf metric)
           (Counter_GetValue counter)].
Proof.
  intros H. unfold metricPoints, convertMetric.
  by rewrite H, metricLabels_source.
Qed.

Lemma gauge_points metricName metric gauge :
  GetCounter metric = None → GetGauge metric = Some gauge →
  metricPoints metricName metric
  = [point (sourceLabels metric ++ [nameLabel metricName]) (timestampOf metric)
           (Gauge_GetValue gauge)].
Proof.
  intros Hc Hg. unfold metricPoints, convertMetric.
  by rewrite Hc, Hg, metricLabels_source.
Qed.

Definition bucketPoint (metricName : string) (metric : Metric) (bucket : Bucket)
    : TimeSeries :=
  point (sourceLabels metric
         ++ [{| Name := "le"; Value := fmt.Sprintf_g (Bucket_GetUpperBound bucket) |};
             nameLabel (metricName +:+ "_bucket")])
        (timestampOf metric)
        (float64_of_uint64 (Bucket_GetCumulativeCount bucket)).

Definition quantilePoint (metricName : string) (metric : Metric)
    (quantile : Quantile) : TimeSeries :=
  point (sourceLabels metric
         ++ [{| Name := "quantile";
                Value := fmt.Sprintf_g (Quantile_GetQuantile quantile) |};
             nameLabel metricName])
        (timestampOf metric)
        (Quantile_GetValue quantile).

Lemma histogram_points metricName metric histogram :
  GetCounter metric = None → GetGauge metric = None →
  GetHistogram metric = Some histogram →
  metricPoints metricName metric
  = point (sourceLabels metric ++ [nameLabel (metricName +:+ "_sum")])
          (timestampOf metric) (Histogram_GetSampleSum histogram)
    :: point (sourceLabels metric ++ [nameLabel (metricName +:+ "_count")])
             (timestampOf metric)
             (float64_of_uint64 (Histogram_GetSampleCount histogram))
    :: (bucketPoint metricName metric <$> Histogram_GetBucket histogram).
Proof.
  intros Hc Hg Hh. unfold metricPoints, convertMetric.
  rewrite Hc, Hg, Hh, metricLabels_source. simpl.
  by rewrite foldl_snoc_map.
Qed.

Lemma summary_points metricName metric summary :
  GetCounter metric = None → GetGauge metric = None →
  GetHistogram metric = None → GetSummary metric = Some summary →
  metricPoints metricName metric
  = point (sourceLabels metric ++ [nameLabel (metricName +:+ "_sum")])
          (timestampOf metric) (Summary_GetSampleSum summary)
    :: point (sourceLabels metric ++ [nameLabel (metricName +:+ "_count")])
             (timestampOf metric)
             (float64_of_uint64 (Summary_GetSampleCount summary))
    :: (quantilePoint metricName metric <$> Summary_GetQuantile summary).
Proof.
  intros Hc Hg Hh Hs. unfold metricPoints, convertMetric.
  rewrite Hc, Hg, Hh, Hs, metricLabels_source. simpl.
  by rewrite foldl_snoc_map.
Qed.

Lemma unrecognized_points metricName metric :
  GetCounter metric = None → GetGauge metric = None →
  GetHistogram metric = None → GetSummary metric = None →
  metricPoints metricName metric = [].
Proof.
  intros Hc Hg Hh Hs. unfold metricPoints, convertMetric.
  by rewrite Hc, Hg, Hh, Hs.
Qed.

End DecomposedFacts.

Import DecomposedFacts.

(** ** Sample snapshots: the scenarios of the specification *)

(** A histogram family [latency_ms]: sum 6000, count 3, buckets
    [(500,1), (1000,2), (+Inf,3)]. *)
Definition latency_histogram : Histogram :=
  {| Histogram_SampleCount := Some 3%N;
     Histogram_SampleSum := Some (float64_of_Z 6000);
     Histogram_Bucket :=
       [ {| Bucket_CumulativeCount := Some 1%N;
            Bucket_UpperBound := Some (float64_of_Z 500) |};
         {| Bucket_CumulativeCount := Some 2%N;
            Bucket_UpperBound := Some (float64_of_Z 1000) |};
         {| Bucket_CumulativeCount := Some 3%N;
            Bucket_UpperBound := Some float64_inf |} ] |}.

Definition latency_metric : Metric :=
  {| Metric_Label := [];
     Metric_Gauge := None; Metric_Counter := None; Metric_Summary := None;
     Metric_Untyped := None;
     Metric_Histogram := Some latency_histogram;
     Metric_TimestampMs := Some 0%Z |}.

Definition latency_family : MetricFamily :=
  {| MetricFamily_Name := Some "latency_ms";
     MetricFamily_Metric := [latency_metric] |}.

(** A counter family [requests_total]: no labels, value 3, timestamp 0. *)
Definition requests_counter : Counter :=
  {| Counter_Value := Some (float64_of_Z 3) |}.

Definition requests_metric : Metric :=
  {| Metric_Label := [];
     Metric_Gauge := None; Metric_Counter := Some requests_counter;
     Metric_Summary := None; Metric_Untyped := None;
     Metric_Histogram := None;
     Metric_TimestampMs := Some 0%Z |}.

Definition requests_family : MetricFamily :=
  {| MetricFamily_Name := Some "requests_total";
     MetricFamily_Metric := [requests_metric] |}.

(** A summary family [rpc_seconds]: sum 6000, count 3, the median 1000. *)
Definition rpc_summary : Summary :=
  {| Summary_SampleCount := Some 3%N;
     Summary_SampleSum := Some (float64_of_Z 6000);
     Summary_Quantile :=
       [ {| Quantile_Quantile := Some (S754_finite false 4503599627370496 (-53));
            Quantile_Value := Some (float64_of_Z 1000) |} ] |}.

Definition rpc_metric : Metric :=
  {| Metric_Label := [ {| LabelPair_Name := Some "service";
                          LabelPair_Value := Some "api" |} ];
     Metric_Gauge := None; Metric_Counter := None;
     Metric_Summary := Some rpc_summary; Metric_Untyped := None;
     Metric_Histogram := None;
     Metric_TimestampMs := None |}.

Definition rpc_family : MetricFamily :=
  {| MetricFamily_Name := Some "rpc_seconds";
     MetricFamily_Metric := [rpc_metric] |}.

(** ** Histograms *)

(** C1. A histogram metric (no counter and no gauge payload set) of a family
    named [familyName] contributes to the family's series, at the metric's
    place, exactly [2 + len(buckets)] points: [familyName_sum] with the
    sample sum, [familyName_count] with the sample count as a float64, and
    for every bucket, in the order of the snapshot, a [familyName_bucket]
    point with the extra label [le] = the rendered upper bound and the
    cumulative count as value.  That series is what the result holds under
    the family's name, unless a later family of the snapshot has the same
    name.  When the last bucket's upper bound is +Inf, the last point's [le]
    is ["+Inf"]. *)
Theorem histogram_decomposition
    (metricFamily : MetricFamily) (before after : list Metric)
    (metric : Metric) (histogram : Histogram) :
  MetricFamily_Metric metricFamily = before ++ metric :: after →
  GetCounter metric = None → GetGauge metric = None →
  GetHistogram metric = Some histogram →
  let familyName := GetName metricFamily in
  let L := sourceLabels metric in
  let t := timestampOf metric in
  let buckets := Histogram_GetBucket histogram in
  let bucket_point b :=
    point (L ++ [ {| Name := "le";
                     Value := fmt.Sprintf_g (Bucket_GetUpperBound b) |};
                  {| Name := "__name__"; Value := familyName +:+ "_bucket" |} ])
          t (float64_of_uint64 (Bucket_GetCumulativeCount b)) in
  let points :=
    point (L ++ [ {| Name := "__name__"; Value := familyName +:+ "_sum" |} ])
          t (Histogram_GetSampleSum histogram)
    :: point (L ++ [ {| Name := "__name__"; Value := familyName +:+ "_count" |} ])
             t (float64_of_uint64 (Histogram_GetSampleCount histogram))
    :: (bucket_point <$> buckets) in
  length points = 2 + length buckets
  ∧ Decomposed.convertFamily metricFamily
    = seriesOf familyName before ++ points ++ seriesOf familyName after
  ∧ (∀ families_before families_after,
       familyName ∉ familyNames families_after →
       Decomposed.MetricFamiliesToTimeSeries
         (families_before ++ metricFamily :: families_after) !! familyName
       = Some (seriesOf familyName before ++ points ++ seriesOf familyName after))
  ∧ (∀ i b, buckets !! i = Some b → points !! (2 + i) = Some (bucket_point b))
  ∧ (∀ b, last buckets = Some b → Bucket_GetUpperBound b = float64_inf →
       last points
       = Some (point (L ++ [ {| Name := "le"; Value := "+Inf" |};
                             {| Name := "__name__";
                                Value := familyName +:+ "_bucket" |} ])
                     t (float64_of_uint64 (Bucket_GetCumulativeCount b)))).
Proof.
  intros Hmetrics Hc Hg Hh familyName L t buckets bucket_point points.
  assert (Hfam : Decomposed.convertFamily metricFamily
                 = seriesOf familyName before ++ points ++ seriesOf familyName after).
  { rewrite convertFamily_series, Hmetrics, seriesOf_split.
    by rewrite (histogram_points _ _ _ Hc Hg Hh). }
  repeat split.
  - unfold points. simpl. by rewrite length_fmap.
  - exact Hfam.
  - intros families_before families_after Hlast.
    rewrite <- Hfam. by apply convert_lookup_last.
  - intros i b Hb. unfold points. simpl.
    by rewrite list_lookup_fmap, Hb.
  - intros b Hb Hinf. unfold points.
    rewrite !last_cons, fmap_last, Hb. simpl.
    unfold bucket_point. by rewrite Hinf.
Qed.

Lemma histogram_decomposition_witness :
  Decomposed.MetricFamiliesToTimeSeries [latency_family] !! "latency_ms"
  = Some [ point [nameLabel "latency_ms_sum"] time.epoch (float64_of_Z 6000);
           point [nameLabel "latency_ms_count"] time.epoch (float64_of_Z 3);
           point [ {| Name := "le"; Value := "500" |};
                   nameLabel "latency_ms_bucket" ] time.epoch (float64_of_Z 1);
           point [ {| Name := "le"; Value := "1000" |};
                   nameLabel "latency_ms_bucket" ] time.epoch (float64_of_Z 2);
           point [ {| Name := "le"; Value := "+Inf" |};
                   nameLabel "latency_ms_bucket" ] time.epoch (float64_of_Z 3) ].
Proof.
  pose proof (histogram_decomposition latency_family [] [] latency_metric
                latency_histogram eq_refl eq_refl eq_refl eq_refl)
    as (_ & _ & H & _).
  specialize (H [] [] (not_elem_of_nil _)).
  vm_compute in H. vm_compute. exact H.
Defined.

(** ** Summaries *)

(** C2. A summary metric (no counter, gauge or histogram payload set) with
    [n] quantiles contributes to its family's series, at the metric's place,
    exactly [2 + n] points: [familyName_sum] with the sample sum,
    [familyName_count] with the sample count as a float64, and for every
    quantile, in order, a point with the extra label [quantile] = the
    rendered quantile, the quantile's value as value, and [__name__] equal to
    the bare family name.  That series is what the result holds under the
    family's name, unless a later family of the snapshot has the same
    name. *)
Theorem summary_decomposition
    (metricFamily : MetricFamily) (before after : list Metric)
    (metric : Metric) (summary : Summary) :
  MetricFamily_Metric metricFamily = before ++ metric :: after →
  GetCounter metric = None → GetGauge metric = None →
  GetHistogram metric = None → GetSummary metric = Some summary →
  let familyName := GetName metricFamily in
  let L := sourceLabels metric in
  let t := timestampOf metric in
  let quantiles := Summary_GetQuantile summary in
  let quantile_point q :=
    point (L ++ [ {| Name := "quantile";
                     Value := fmt.Sprintf_g (Quantile_GetQuantile q) |};
                  {| Name := "__name__"; Value := familyName |} ])
          t (Quantile_GetValue q) in
  let points :=
    point (L ++ [ {| Name := "__name__"; Value := familyName +:+ "_sum" |} ])
          t (Summary_GetSampleSum summary)
    :: point (L ++ [ {| Name := "__name__"; Value := familyName +:+ "_count" |} ])
             t (float64_of_uint64 (Summary_GetSampleCount summary))
    :: (quantile_point <$> quantiles) in
  length points = 2 + length quantiles
  ∧ Decomposed.convertFamily metricFamily
    = seriesOf familyName before ++ points ++ seriesOf familyName after
  ∧ (∀ families_before families_after,
       familyName ∉ familyNames families_after →
       Decomposed.MetricFamiliesToTimeSeries
         (families_before ++ metricFamily :: families_after) !! familyName
       = Some (seriesOf familyName before ++ points ++ seriesOf familyName after))
  ∧ (∀ i q, quantiles !! i = Some q → points !! (2 + i) = Some (quantile_point q)).
Proof.
  intros Hmetrics Hc Hg Hh Hs familyName L t quantiles quantile_point points.
  assert (Hfam : Decomposed.convertFamily metricFamily
                 = seriesOf familyName before ++ points ++ seriesOf familyName after).
  { rewrite convertFamily_series, Hmetrics, seriesOf_split.
    by rewrite (summary_points _ _ _ Hc Hg Hh Hs). }
  repeat split.
  - unfold points. simpl. by rewrite length_fmap.
  - exact Hfam.
  - intros families_before families_after Hlast.
    rewrite <- Hfam. by apply convert_lookup_last.
  - intros i q Hq. unfold points. simpl.
    by rewrite list_lookup_fmap, Hq.
Qed.

Lemma summary_decomposition_witness :
  Decomposed.MetricFamiliesToTimeSeries [rpc_family] !! "rpc_seconds"
  = Some [ point [ {| Name := "service"; Value := "api" |};
                   nameLabel "rpc_seconds_sum" ] time.epoch (float64_of_Z 6000);
           point [ {| Name := "service"; Value := "api" |};
                   nameLabel "rpc_seconds_count" ] time.epoch (float64_of_Z 3);
           point [ {| Name := "service"; Value := "api" |};
                   {| Name := "quantile"; Value := "0.5" |};
                   nameLabel "rpc_seconds" ] time.epoch (float64_of_Z 1000) ].
Proof.
  pose proof (summary_decomposition rpc_family [] [] rpc_metric rpc_summary
                eq_refl eq_refl eq_refl eq_refl eq_refl)
    as (_ & _ & H & _).
  specialize (H [] [] (not_elem_of_nil _)).
  vm_compute in H. vm_compute. exact H.
Defined.

(** ** Counters and gauges *)

(** The value of a counter or gauge metric: the counter's when the metric
    carries a counter payload, else the gauge's. *)
Definition counterOrGaugeValue (metric : Metric) (v : float64) : Prop :=
  (∃ counter, GetCounter metric = Some counter ∧ v = Counter_GetValue counter)
  ∨ (GetCounter metric = None
     ∧ ∃ gauge, GetGauge metric = Some gauge ∧ v = Gauge_GetValue gauge).

(** C3. A counter or gauge metric with labels [L] and value [v] contributes
    to its family's series, at the metric's place, exactly one point: labels
    [L] followed by [__name__ = familyName], and value [v] unchanged.  That
    series is what the result holds under the family's name, unless a later
    family of the snapshot has the same name. *)
Theorem counter_gauge_single_point
    (metricFamily : MetricFamily) (before after : list Metric)
    (metric : Metric) (v : float64) :
  MetricFamily_Metric metricFamily = before ++ metric :: after →
  counterOrGaugeValue metric v →
  let familyName := GetName metricFamily in
  let L := sourceLabels metric in
  let points :=
    [ point (L ++ [ {| Name := "__name__"; Value := familyName |} ])
            (timestampOf metric) v ] in
  length points = 1
  ∧ Decomposed.convertFamily metricFamily
    = seriesOf familyName before ++ points ++ seriesOf familyName after
  ∧ (∀ families_before families_after,
       familyName ∉ familyNames families_after →
       Decomposed.MetricFamiliesToTimeSeries
         (families_before ++ metricFamily :: families_after) !! familyName
       = Some (seriesOf familyName before ++ points ++ seriesOf familyName after)).
Proof.
  intros Hmetrics Hv familyName L points.
  assert (Hfam : Decomposed.convertFamily metricFamily
                 = seriesOf familyName before ++ points ++ seriesOf familyName after).
  { rewrite convertFamily_series, Hmetrics, seriesOf_split.
    destruct Hv as [(counter & Hc & ->) | (Hc & gauge & Hg & ->)].
    - by rewrite (counter_points _ _ _ Hc).
    - by rewrite (gauge_points _ _ _ Hc Hg). }
  repeat split.
  - exact Hfam.
  - intros families_before families_after Hlast.
    rewrite <- Hfam. by apply convert_lookup_last.
Qed.

Lemma counter_gauge_single_point_witness :
  Decomposed.MetricFamiliesToTimeSeries [requests_family] !! "requests_total"
  = Some [ point [nameLabel "requests_total"] time.epoch (float64_of_Z 3) ].
Proof.
  pose proof (counter_gauge_single_point requests_family [] [] requests_metric
                (float64_of_Z 3) eq_refl
                (or_introl (ex_intro _ requests_counter (conj eq_refl eq_refl))))
    as (_ & _ & H).
  specialize (H [] [] (not_elem_of_nil _)).
  vm_compute in H. vm_compute. exact H.
Defined.

(** ** Totality and leniency *)

Definition idle_family : MetricFamily :=
  {| MetricFamily_Name := Some "requests_total"; MetricFamily_Metric := [] |}.

(** A metric with an untyped payload only: none of the four kinds. *)
Definition untyped_metric : Metric :=
  {| Metric_Label := [];
     Metric_Gauge := None; Metric_Counter := None; Metric_Summary := None;
     Metric_Untyped := Some {| Untyped_Value := Some (float64_of_Z 7) |};
     Metric_Histogram := None;
     Metric_TimestampMs := Some 0%Z |}.

Definition mixed_family : MetricFamily :=
  {| MetricFamily_Name := Some "requests_total";
     MetricFamily_Metric := [untyped_metric; requests_metric] |}.

(** C4, the claim as stated fails: a family with no metrics does not map to
    an empty sequence under its name when a later family of the snapshot has
    the same name; the later family's series is what the name holds. *)
Lemma empty_family_entry_replaced :
  MetricFamily_Metric idle_family = []
  ∧ idle_family ∈ [idle_family; requests_family]
  ∧ Decomposed.MetricFamiliesToTimeSeries [idle_family; requests_family]
      !! GetName idle_family
    = Some [ point [nameLabel "requests_total"] time.epoch (float64_of_Z 3) ].
Proof.
  split; [reflexivity|]. split; [left|]. vm_compute. reflexivity.
Qed.

(** C4, amended.  The conversion is a total function to a map (there is no
    error result), and every family name of the snapshot has an entry in it.
    A family with no metrics maps to the empty sequence under its name,
    unless a later family of the snapshot has the same name.  A metric with
    none of the counter, gauge, histogram and summary payloads adds no point
    to its family's series, which still holds the points of the metrics
    before and after it. *)
Theorem convert_total_and_lenient (metricFamilies : list MetricFamily) :
  (∀ name, is_Some (Decomposed.MetricFamiliesToTimeSeries metricFamilies !! name)
           ↔ name ∈ familyNames metricFamilies)
  ∧ (∀ before metricFamily after,
       metricFamilies = before ++ metricFamily :: after →
       MetricFamily_Metric metricFamily = [] →
       GetName metricFamily ∉ familyNames after →
       Decomposed.MetricFamiliesToTimeSeries metricFamilies !! GetName metricFamily
       = Some [])
  ∧ (∀ before metricFamily after metrics_before metric metrics_after,
       metricFamilies = before ++ metricFamily :: after →
       MetricFamily_Metric metricFamily = metrics_before ++ metric :: metrics_after →
       GetCounter metric = None → GetGauge metric = None →
       GetHistogram metric = None → GetSummary metric = None →
       let familyName := GetName metricFamily in
       metricPoints familyName metric = []
       ∧ Decomposed.convertFamily metricFamily
         = seriesOf familyName metrics_before ++ seriesOf familyName metrics_after
       ∧ (familyName ∉ familyNames after →
          Decomposed.MetricFamiliesToTimeSeries metricFamilies !! familyName
          = Some (seriesOf familyName metrics_before
                  ++ seriesOf familyName metrics_after))).
Proof.
  split; [|split].
  - intros name.
    etrans; [apply (store_all_is_Some GetName Decomposed.convertFamily ∅)|].
    rewrite lookup_empty. split.
    + intros [[? [=]]|H]; exact H.
    + by right.
  - intros before metricFamily after -> Hempty Hlast.
    rewrite convert_lookup_last by done.
    by rewrite convertFamily_series, Hempty.
  - intros before metricFamily after metrics_before metric metrics_after
      -> Hmetrics Hc Hg Hh Hs familyName. subst familyName.
    pose proof (unrecognized_points (GetName metricFamily) metric Hc Hg Hh Hs)
      as Hnone.
    assert (Hfam : Decomposed.convertFamily metricFamily
                   = seriesOf (GetName metricFamily) metrics_before
                     ++ seriesOf (GetName metricFamily) metrics_after).
    { by rewrite convertFamily_series, Hmetrics, seriesOf_split, Hnone. }
    split; [exact Hnone|]. split; [exact Hfam|].
    intros Hlast. rewrite <- Hfam. by apply convert_lookup_last.
Qed.

Lemma convert_total_and_lenient_witness :
  Decomposed.MetricFamiliesToTimeSeries [idle_family; mixed_family; latency_family]
    !! "requests_total"
  = Some [ point [nameLabel "requests_total"] time.epoch (float64_of_Z 3) ].
Proof.
  pose proof (convert_total_and_lenient [idle_family; mixed_family; latency_family])
    as (_ & _ & H).
  destruct (H [idle_family] mixed_family [latency_family] [] untyped_metric
              [requests_metric] eq_refl eq_refl eq_refl eq_refl eq_refl eq_refl)
    as (_ & _ & Hlookup).
  assert (Hlast : GetName mixed_family ∉ familyNames [latency_family]).
  { intros Hin. apply list_elem_of_In in Hin.
    destruct Hin as [Heq|[]]. discriminate Heq. }
  specialize (Hlookup Hlast).
  vm_compute in Hlookup. vm_compute. exact Hlookup.
Defined.

(** ** The [__name__] label *)

(** Every point of the result is one of the points of a metric of a family
    of the snapshot. *)
Lemma convert_point_origin metricFamilies name series pt :
  Decomposed.MetricFamiliesToTimeSeries metricFamilies !! name = Some series →
  pt ∈ series →
  ∃ metricFamily metric,
    metricFamily ∈ metricFamilies ∧ GetName metricFamily = name
    ∧ metric ∈ MetricFamily_Metric metricFamily
    ∧ pt ∈ metricPoints name metric.
Proof.
  intros Hlookup Hpt.
  apply (store_all_lookup_Some GetName Decomposed.convertFamily) in Hlookup
    as [Hempty | (metricFamily & Hin & Hname & Hseries)].
  { by rewrite lookup_empty in Hempty. }
  subst series name. rewrite convertFamily_series, seriesOf_concat in Hpt.
  apply list_elem_of_In, in_concat in Hpt as (block & Hblock & Hpt).
  rewrite <- list_elem_of_In in Hblock. rewrite <- list_elem_of_In in Hpt.
  apply list_elem_of_fmap in Hblock as (metric & -> & Hmetric).
  by exists metricFamily, metric.
Qed.

(** The labels of a point of a metric: the metric's own, then at most one of
    [le] and [quantile], then [__name__]. *)
Lemma metric_point_labels metricName metric pt :
  pt ∈ metricPoints metricName metric →
  ∃ extra value,
    Labels pt = sourceLabels metric ++ extra ++ [nameLabel value]
    ∧ (extra = [] ∨ ∃ rendered,
         extra = [ {| Name := "le"; Value := rendered |} ]
         ∨ extra = [ {| Name := "quantile"; Value := rendered |} ]).
Proof.
  intros Hpt.
  destruct (GetCounter metric) as [counter|] eqn:Hc.
  { rewrite (counter_points _ _ _ Hc) in Hpt.
    apply list_elem_of_singleton in Hpt as ->.
    exists [], metricName. by split; [|left]. }
  destruct (GetGauge metric) as [gauge|] eqn:Hg.
  { rewrite (gauge_points _ _ _ Hc Hg) in Hpt.
    apply list_elem_of_singleton in Hpt as ->.
    exists [], metricName. by split; [|left]. }
  destruct (GetHistogram metric) as [histogram|] eqn:Hh.
  { rewrite (histogram_points _ _ _ Hc Hg Hh) in Hpt.
    apply elem_of_cons in Hpt as [->|Hpt];
      [|apply elem_of_cons in Hpt as [->|Hpt]].
    - exists [], (metricName +:+ "_sum"). by split; [|left].
    - exists [], (metricName +:+ "_count"). by split; [|left].
    - apply list_elem_of_fmap in Hpt as (bucket & -> & _).
      exists [ {| Name := "le";
                  Value := fmt.Sprintf_g (Bucket_GetUpperBound bucket) |} ],
        (metricName +:+ "_bucket").
      split; [done|]. right. eexists. by left. }
  destruct (GetSummary metric) as [summary|] eqn:Hs.
  { rewrite (summary_points _ _ _ Hc Hg Hh Hs) in Hpt.
    apply elem_of_cons in Hpt as [->|Hpt];
      [|apply elem_of_cons in Hpt as [->|Hpt]].
    - exists [], (metricName +:+ "_sum"). by split; [|left].
    - exists [], (metricName +:+ "_count"). by split; [|left].
    - apply list_elem_of_fmap in Hpt as (quantile & -> & _).
      exists [ {| Name := "quantile";
                  Value := fmt.Sprintf_g (Quantile_GetQuantile quantile) |} ],
        metricName.
      split; [done|]. right. eexists. by right. }
  rewrite (unrecognized_points _ _ Hc Hg Hh Hs) in Hpt.
  by apply elem_of_nil in Hpt.
Qed.

(** How many labels of a label set are named [__name__]. *)
Definition nameLabelCount (labels : list Label) : nat :=
  length (filter (λ label, Name label = "__name__") labels).

(** The names a metric's own labels leave free: they are pairwise distinct,
    and none of them is one the conversion adds. *)
Definition ownLabelsDistinct (metric : Metric) : Prop :=
  NoDup (LabelPair_GetName <$> Metric_Label metric)
  ∧ ∀ added, added ∈ ["__name__"; "le"; "quantile"] →
             added ∉ LabelPair_GetName <$> Metric_Label metric.

(** A counter that already carries a label named [__name__]. *)
Definition shadowing_metric : Metric :=
  {| Metric_Label := [ {| LabelPair_Name := Some "__name__";
                          LabelPair_Value := Some "other" |} ];
     Metric_Gauge := None; Metric_Counter := Some requests_counter;
     Metric_Summary := None; Metric_Untyped := None;
     Metric_Histogram := None;
     Metric_TimestampMs := Some 0%Z |}.

Definition shadowing_family : MetricFamily :=
  {| MetricFamily_Name := Some "requests_total";
     MetricFamily_Metric := [shadowing_metric] |}.

(** C5, the claim as stated fails: a metric that already carries a label
    named [__name__] yields a point with two labels of that name. *)
Lemma name_label_twice :
  ∃ pt,
    Decomposed.MetricFamiliesToTimeSeries [shadowing_family] !! "requests_total"
    = Some [pt]
    ∧ Labels pt = [ {| Name := "__name__"; Value := "other" |};
                    {| Name := "__name__"; Value := "requests_total" |} ]
    ∧ nameLabelCount (Labels pt) = 2
    ∧ ¬ NoDup (Name <$> Labels pt).
Proof.
  eexists. split; [vm_compute; reflexivity|].
  split; [reflexivity|]. split; [reflexivity|].
  simpl. intros Hnodup. apply NoDup_cons in Hnodup as [Hnotin _].
  apply Hnotin. left.
Qed.

Lemma sourceLabels_names metric :
  Name <$> sourceLabels metric = LabelPair_GetName <$> Metric_Label metric.
Proof. unfold sourceLabels. by rewrite <- list_fmap_compose. Qed.

Lemma filter_name_absent (name : string) (labels : list Label) :
  name ∉ Name <$> labels → filter (λ label, Name label = name) labels = [].
Proof.
  induction labels as [|label labels IH]; intros Hnotin; [done|].
  rewrite fmap_cons, not_elem_of_cons in Hnotin. destruct Hnotin as [Hne Hnotin].
  rewrite filter_cons_False by (intros Heq; by apply Hne).
  by apply IH.
Qed.

(** The labels of a point of a metric are the metric's own with the added
    ones behind them: as many [__name__] labels as the metric has, and one
    more. *)
Lemma metric_point_names metricName metric pt :
  pt ∈ metricPoints metricName metric →
  nameLabelCount (Labels pt) = S (nameLabelCount (sourceLabels metric))
  ∧ (ownLabelsDistinct metric →
     nameLabelCount (Labels pt) = 1 ∧ NoDup (Name <$> Labels pt)).
Proof.
  intros Horigin.
  destruct (metric_point_labels _ _ _ Horigin) as (extra & value & Hlabels & Hextra).
  assert (Hcount : nameLabelCount (Labels pt)
                   = S (nameLabelCount (sourceLabels metric))).
  { unfold nameLabelCount. rewrite Hlabels, !filter_app, !length_app.
    rewrite (filter_cons_True _ (nameLabel value)) by done.
    destruct Hextra as [->|(rendered & [->| ->])]; simpl; lia. }
  split; [exact Hcount|].
  intros [Hnodup Hfree].
  assert (Hown : ∀ added, added ∈ ["__name__"; "le"; "quantile"] →
                          added ∉ Name <$> sourceLabels metric).
  { intros added Hadded. rewrite sourceLabels_names. by apply Hfree. }
  assert (Hname : "__name__" ∉ Name <$> sourceLabels metric).
  { apply Hown. left. }
  split.
  - rewrite Hcount. unfold nameLabelCount.
    by rewrite (filter_name_absent _ _ Hname).
  - rewrite Hlabels, !fmap_app. apply NoDup_app. split; [|split].
    + by rewrite sourceLabels_names.
    + intros label Hin Hadded.
      assert (Hreserved : label ∈ ["__name__"; "le"; "quantile"]).
      { destruct Hextra as [->|(rendered & [->| ->])]; simpl in Hadded;
          set_solver. }
      exact (Hown _ Hreserved Hin).
    + destruct Hextra as [->|(rendered & [->| ->])]; simpl;
        repeat (apply NoDup_cons; split; [set_solver|]); apply NoDup_nil_2.
Qed.

(** C5, amended.  Every point of the result ends its label list with a
    [__name__] label, so it carries at least one, and it is a point of a
    metric of a family of the snapshot.  Whatever metric it is a point of,
    its labels are that metric's own labels, all of them and in their order,
    followed by the added ones ([le] or [quantile] for a bucket or quantile,
    then [__name__]): a source label named [__name__], [le] or [quantile] is
    kept beside the added one, not replaced, so that the point carries one
    [__name__] label more than the metric.  When the own label names of that
    source metric - no other metric of the snapshot matters - are pairwise
    distinct and none of them is [__name__], [le] or [quantile], the point
    carries exactly one [__name__] label and no two labels of the same
    name. *)
Theorem name_label_invariant
    (metricFamilies : list MetricFamily) (name : string)
    (series : list TimeSeries) (pt : TimeSeries) :
  Decomposed.MetricFamiliesToTimeSeries metricFamilies !! name = Some series →
  pt ∈ series →
  (∃ labels value, Labels pt = labels ++ [nameLabel value])
  ∧ (1 ≤ nameLabelCount (Labels pt))%nat
  ∧ (∃ metricFamily metric,
       metricFamily ∈ metricFamilies ∧ GetName metricFamily = name
       ∧ metric ∈ MetricFamily_Metric metricFamily
       ∧ pt ∈ Decomposed.convertMetric name [] metric)
  ∧ (∀ metric,
       pt ∈ Decomposed.convertMetric name [] metric →
       (∃ extra value,
          Labels pt = sourceLabels metric ++ extra ++ [nameLabel value]
          ∧ (extra = [] ∨ ∃ rendered,
               extra = [ {| Name := "le"; Value := rendered |} ]
               ∨ extra = [ {| Name := "quantile"; Value := rendered |} ]))
       ∧ (∀ label, label ∈ sourceLabels metric → label ∈ Labels pt)
       ∧ nameLabelCount (Labels pt) = S (nameLabelCount (sourceLabels metric))
       ∧ (ownLabelsDistinct metric →
          nameLabelCount (Labels pt) = 1 ∧ NoDup (Name <$> Labels pt))).
Proof.
  intros Hlookup Hpt.
  destruct (convert_point_origin _ _ _ _ Hlookup Hpt)
    as (metricFamily & metric & Hfam & Hname & Hmetric & Horigin).
  destruct (metric_point_labels _ _ _ Horigin) as (extra & value & Hlabels & Hextra).
  split; [|split; [|split]].
  - exists (sourceLabels metric ++ extra), value. by rewrite <- app_assoc.
  - rewrite (proj1 (metric_point_names _ _ _ Horigin)). lia.
  - by exists metricFamily, metric.
  - intros source Hsource.
    change (pt ∈ metricPoints name source) in Hsource.
    destruct (metric_point_labels _ _ _ Hsource)
      as (extra' & value' & Hlabels' & Hextra').
    destruct (metric_point_names _ _ _ Hsource) as [Hcount Hone].
    split; [by exists extra', value'|]. split; [|by split].
    intros label Hlabel. rewrite Hlabels'. apply elem_of_app. by left.
Qed.

Lemma latency_conversion :
  Decomposed.MetricFamiliesToTimeSeries [latency_family] !! "latency_ms"
  = Some [ point [nameLabel "latency_ms_sum"] time.epoch (float64_of_Z 6000);
           point [nameLabel "latency_ms_count"] time.epoch (float64_of_Z 3);
           point [ {| Name := "le"; Value := "500" |};
                   nameLabel "latency_ms_bucket" ] time.epoch (float64_of_Z 1);
           point [ {| Name := "le"; Value := "1000" |};
                   nameLabel "latency_ms_bucket" ] time.epoch (float64_of_Z 2);
           point [ {| Name := "le"; Value := "+Inf" |};
                   nameLabel "latency_ms_bucket" ] time.epoch (float64_of_Z 3) ].
Proof. vm_compute. reflexivity. Qed.

(** A snapshot of two families: the counter whose metric carries a label
    named [__name__], and the summary [rpc_seconds] whose metric carries the
    label [service]. *)
Lemma rpc_conversion :
  Decomposed.MetricFamiliesToTimeSeries [shadowing_family; rpc_family]
    !! "rpc_seconds"
  = Some [ point [ {| Name := "service"; Value := "api" |};
                   nameLabel "rpc_seconds_sum" ] time.epoch (float64_of_Z 6000);
           point [ {| Name := "service"; Value := "api" |};
                   nameLabel "rpc_seconds_count" ] time.epoch (float64_of_Z 3);
           point [ {| Name := "service"; Value := "api" |};
                   {| Name := "quantile"; Value := "0.5" |};
                   nameLabel "rpc_seconds" ] time.epoch (float64_of_Z 1000) ].
Proof. vm_compute. reflexivity. Qed.

Lemma rpc_labels_distinct : ownLabelsDistinct rpc_metric.
Proof.
  split; [apply NoDup_singleton|].
  intros added Hadded Hin. apply list_elem_of_singleton in Hin. subst added.
  repeat (apply elem_of_cons in Hadded as [Hadded|Hadded]; [discriminate Hadded|]).
  by apply elem_of_nil in Hadded.
Qed.

Lemma name_label_invariant_witness :
  nameLabelCount [ {| Name := "service"; Value := "api" |};
                   {| Name := "quantile"; Value := "0.5" |};
                   nameLabel "rpc_seconds" ] = 1
  ∧ NoDup (Name <$> [ {| Name := "service"; Value := "api" |};
                      {| Name := "quantile"; Value := "0.5" |};
                      nameLabel "rpc_seconds" ]).
Proof.
  destruct (name_label_invariant [shadowing_family; rpc_family] "rpc_seconds" _
              (point [ {| Name := "service"; Value := "api" |};
                       {| Name := "quantile"; Value := "0.5" |};
                       nameLabel "rpc_seconds" ]
                     time.epoch (float64_of_Z 1000))
              rpc_conversion)
    as (_ & _ & _ & Hsource); [right; right; left|].
  destruct (Hsource rpc_metric) as (_ & _ & _ & Hone);
    [vm_compute; right; right; left|].
  exact (Hone rpc_labels_distinct).
Defined.

(** ** Flattening *)

(** The sum of the lengths of the sequences a map holds. *)
Definition totalPoints (timeSeriesMap : gmap string (list TimeSeries)) : nat :=
  list_sum (length <$> (map_to_list timeSeriesMap).*2).

Lemma flattenVisited_concat visited : flattenVisited visited = concat visited.*2.
Proof.
  unfold flattenVisited.
  by rewrite (foldl_append_blocks _ snd (λ _ _, eq_refl)).
Qed.

Lemma list_sum_Permutation (l k : list nat) : l ≡ₚ k → list_sum l = list_sum k.
Proof. induction 1; simpl; lia. Qed.

Definition sample_map : gmap string (list TimeSeries) :=
  Decomposed.MetricFamiliesToTimeSeries [latency_family; requests_family].

(** C6. A call of [FlattenTimeSeriesMap] returns; whatever order the range
    over the map takes, the returned sequence is as long as the sequences of
    the map together, and the sequence of every family stands in it as one
    block, its points in their order. *)
Theorem flatten_length_and_order (timeSeriesMap : gmap string (list TimeSeries)) :
  (∃ result, FlattenTimeSeriesMap timeSeriesMap result)
  ∧ ∀ result,
      FlattenTimeSeriesMap timeSeriesMap result →
      length result = totalPoints timeSeriesMap
      ∧ ∀ name series,
          timeSeriesMap !! name = Some series →
          ∃ before after, result = before ++ series ++ after.
Proof.
  split.
  { exists (flattenVisited (map_to_list timeSeriesMap)).
    constructor. unfold map_range. reflexivity. }
  intros result [visited Hrange]. unfold map_range in Hrange.
  rewrite flattenVisited_concat. split.
  - rewrite length_concat. unfold totalPoints.
    apply list_sum_Permutation. by rewrite Hrange.
  - intros name series Hlookup.
    apply elem_of_map_to_list in Hlookup. rewrite <- Hrange in Hlookup.
    apply list_elem_of_split in Hlookup as (v1 & v2 & ->).
    exists (concat v1.*2), (concat v2.*2).
    by rewrite fmap_app, concat_app.
Qed.

Lemma flatten_length_and_order_witness :
  FlattenTimeSeriesMap sample_map (flattenVisited (map_to_list sample_map))
  ∧ length (flattenVisited (map_to_list sample_map)) = 6
  ∧ ∃ before after,
      flattenVisited (map_to_list sample_map)
      = before ++ [ point [nameLabel "requests_total"] time.epoch
                          (float64_of_Z 3) ] ++ after.
Proof.
  assert (Hresult : FlattenTimeSeriesMap sample_map
                      (flattenVisited (map_to_list sample_map))).
  { constructor. unfold map_range. reflexivity. }
  destruct (proj2 (flatten_length_and_order sample_map) _ Hresult)
    as [Hlength Horder].
  split; [exact Hresult|]. split; [exact Hlength|].
  apply (Horder "requests_total"). vm_compute. reflexivity.
Defined.

(** ** Determinism *)

(** The entry of a name is the series of the last family of that name. *)
Lemma convert_lookup metricFamilies name :
  Decomposed.MetricFamiliesToTimeSeries metricFamilies !! name
  = Decomposed.convertFamily
      <$> last (filter (λ metricFamily, GetName metricFamily = name) metricFamilies).
Proof.
  unfold Decomposed.MetricFamiliesToTimeSeries.
  induction metricFamilies as [|metricFamily metricFamilies IH] using rev_ind.
  - simpl. by rewrite lookup_empty.
  - rewrite foldl_app, filter_app. simpl.
    destruct (decide (GetName metricFamily = name)) as [Heq|Hne].
    + rewrite filter_cons_True, filter_nil, last_snoc by done.
      rewrite <- Heq. by rewrite lookup_insert_eq.
    + rewrite filter_cons_False, filter_nil, app_nil_r by done.
      by rewrite lookup_insert_ne.
Qed.

(** C7. Two invocations of the conversion on the same snapshot give
    structurally identical maps: the same keys, and under every key the same
    points, position by position. *)
Theorem convert_deterministic
    (snapshot : list MetricFamily) (first second : gmap string (list TimeSeries)) :
  first = Decomposed.MetricFamiliesToTimeSeries snapshot →
  second = Decomposed.MetricFamiliesToTimeSeries snapshot →
  first = second
  ∧ dom first = dom second
  ∧ ∀ name series1 series2,
      first !! name = Some series1 → second !! name = Some series2 →
      length series1 = length series2
      ∧ ∀ i, series1 !! i = series2 !! i.
Proof.
  intros -> ->. split; [reflexivity|]. split; [reflexivity|].
  intros name series1 series2 H1 H2.
  rewrite H1 in H2. injection H2 as ->. by split.
Qed.

Lemma convert_deterministic_witness :
  dom (Decomposed.MetricFamiliesToTimeSeries [latency_family; requests_family])
  = dom (Decomposed.MetricFamiliesToTimeSeries [latency_family; requests_family]).
Proof.
  exact (proj1 (proj2 (convert_deterministic [latency_family; requests_family]
                         _ _ eq_refl eq_refl))).
Defined.

(** ** Timestamps *)

Lemma wrap_int64_in_range z : in_int64 z → wrap_int64 z = z.
Proof.
  unfold in_int64, int64_min, int64_max, wrap_int64. intros Hz.
  rewrite Z.mod_small; lia.
Qed.

Lemma Unix_nanoseconds (n : Z) :
  time.Unix 0 n = time.mkTime (n `div` 1000000000) (n `mod` 1000000000).
Proof.
  unfold time.Unix. cbv zeta.
  repeat case_bool_decide; f_equal; Z.to_euclidean_division_equations; lia.
Qed.

(** Within the range of [int64] nanoseconds the instant of a metric's points
    is the metric's millisecond timestamp. *)
Lemma timestampOf_in_range metric :
  in_int64 (GetTimestampMs metric * time.Millisecond) →
  timestampOf metric = time.UnixMilli (GetTimestampMs metric).
Proof.
  intros Hrange. unfold timestampOf, int64_mul.
  rewrite (wrap_int64_in_range _ Hrange), Unix_nanoseconds.
  unfold time.UnixMilli, time.Millisecond.
  f_equal; Z.to_euclidean_division_equations; lia.
Qed.

(** The scenario of C9: the counter family [requests_total], no labels,
    value 3, timestamp 0. *)
Lemma requests_total_at_epoch :
  Decomposed.MetricFamiliesToTimeSeries [requests_family]
  = {[ "requests_total" :=
         [ point [ {| Name := "__name__"; Value := "requests_total" |} ]
                 (time.UnixMilli 0) (float64_of_Z 3) ] ]}
  ∧ time.UnixMilli 0 = time.epoch.
Proof. split; reflexivity. Qed.

(** A counter stamped in the year 2262, one millisecond past the last
    [int64] nanosecond. *)
Definition far_metric : Metric :=
  {| Metric_Label := [];
     Metric_Gauge := None; Metric_Counter := Some requests_counter;
     Metric_Summary := None; Metric_Untyped := None;
     Metric_Histogram := None;
     Metric_TimestampMs := Some 9223372036855%Z |}.

Definition far_family : MetricFamily :=
  {| MetricFamily_Name := Some "requests_total";
     MetricFamily_Metric := [far_metric] |}.

(** C9 at a timestamp whose nanosecond count leaves [int64]: the product
    [GetTimestampMs() * int64(time.Millisecond)] wraps around, and the point
    is stamped in the year 1677 and not at the metric's millisecond. *)
Theorem timestamp_wraps_around :
  in_int64 (GetTimestampMs far_metric)
  ∧ Decomposed.MetricFamiliesToTimeSeries [far_family] !! "requests_total"
    = Some [ point [nameLabel "requests_total"]
                   (time.mkTime (-9223372037) 145448384) (float64_of_Z 3) ]
  ∧ Collapsed.MetricFamiliesToTimeSeries [far_family] !! "requests_total"
    = Some [ point [nameLabel "requests_total"]
                   (time.mkTime (-9223372037) 145448384) (float64_of_Z 3) ]
  ∧ time.UnixMilli (GetTimestampMs far_metric)
    = time.mkTime 9223372036 855000000.
Proof.
  split; [|split; [|split]].
  - unfold in_int64, int64_min, int64_max.
    change (GetTimestampMs far_metric) with 9223372036855%Z. lia.
  - vm_compute. reflexivity.
  - vm_compute. reflexivity.
  - reflexivity.
Qed.

(** ** The two versions compared *)

(** A metric of payload kind counter or gauge. *)
Definition counterOrGauge (metric : Metric) : Prop :=
  is_Some (GetCounter metric) ∨ is_Some (GetGauge metric).

Lemma convertMetric_agree metricName series metric :
  counterOrGauge metric →
  Decomposed.convertMetric metricName series metric
  = Collapsed.convertMetric metricName series metric.
Proof.
  unfold Decomposed.convertMetric, Collapsed.convertMetric,
    Decomposed.metricLabels, Decomposed.metricTimestamp.
  intros [[counter Hc]|[gauge Hg]].
  - by rewrite Hc.
  - rewrite Hg. by destruct (GetCounter metric).
Qed.

Lemma convertFamily_agree metricFamily :
  Forall counterOrGauge (MetricFamily_Metric metricFamily) →
  Decomposed.convertFamily metricFamily = Collapsed.convertFamily metricFamily.
Proof.
  unfold Decomposed.convertFamily, Collapsed.convertFamily. cbv zeta.
  generalize (@nil TimeSeries) as series.
  induction (MetricFamily_Metric metricFamily) as [|metric metrics IH];
    intros series Hall; [done|].
  apply Forall_cons in Hall as [Hmetric Hall]. simpl.
  rewrite (convertMetric_agree _ _ _ Hmetric). by apply IH.
Qed.

(** C10. On a snapshot whose metrics are all counters or gauges, the
    conversion of part_000 and that of main.go give the same map; on a
    snapshot with a histogram metric they differ. *)
Theorem versions_agree_without_histograms :
  (∀ metricFamilies,
     (∀ metricFamily metric,
        metricFamily ∈ metricFamilies →
        metric ∈ MetricFamily_Metric metricFamily → counterOrGauge metric) →
     Decomposed.MetricFamiliesToTimeSeries metricFamilies
     = Collapsed.MetricFamiliesToTimeSeries metricFamilies)
  ∧ (∃ metricFamilies metricFamily metric histogram,
       metricFamily ∈ metricFamilies
       ∧ metric ∈ MetricFamily_Metric metricFamily
       ∧ GetCounter metric = None ∧ GetGauge metric = None
       ∧ GetHistogram metric = Some histogram
       ∧ Decomposed.MetricFamiliesToTimeSeries metricFamilies
         ≠ Collapsed.MetricFamiliesToTimeSeries metricFamilies).
Proof.
  split.
  - intros metricFamilies Hkinds.
    unfold Decomposed.MetricFamiliesToTimeSeries,
      Collapsed.MetricFamiliesToTimeSeries. cbv zeta.
    generalize (∅ : gmap string (list TimeSeries)) as result.
    induction metricFamilies as [|metricFamily metricFamilies IH];
      intros result; [done|].
    simpl. rewrite convertFamily_agree.
    + apply IH. intros f m Hf Hm. apply (Hkinds f m); [by right|done].
    + apply Forall_forall. intros m Hm. apply (Hkinds metricFamily m); [left|done].
  - exists [latency_family], latency_family, latency_metric, latency_histogram.
    repeat split; [left|left|].
    intros Heq.
    apply (f_equal (λ result, length <$> result !! "latency_ms")) in Heq.
    vm_compute in Heq. discriminate Heq.
Qed.

Lemma versions_agree_without_histograms_witness :
  Decomposed.MetricFamiliesToTimeSeries [requests_family; idle_family]
  = Collapsed.MetricFamiliesToTimeSeries [requests_family; idle_family].
Proof.
  apply (proj1 versions_agree_without_histograms).
  intros metricFamily metric Hfam Hmetric.
  apply elem_of_cons in Hfam as [->|Hfam].
  - apply list_elem_of_singleton in Hmetric as ->.
    left. by exists requests_counter.
  - apply list_elem_of_singleton in Hfam as ->.
    by apply elem_of_nil in Hmetric.
Defined.

(** ** The rendering of upper bounds and quantiles *)

Section rendering.
Import strconv.
Local Open Scope Z_scope.

(** *** Rounding a value that is representable *)

Lemma digits2_pos_size p : digits2_pos p = Pos.size p.
Proof. induction p; simpl; congruence. Qed.

Lemma Zdigits2_log2 p : Zdigits2 (Zpos p) = Z.log2 (Zpos p) + 1.
Proof.
  simpl. rewrite digits2_pos_size. destruct p; simpl; lia.
Qed.

Lemma Zdigits2_mul_pow2 p t :
  0 ≤ t → Zdigits2 (Zpos p * 2 ^ t) = Zdigits2 (Zpos p) + t.
Proof.
  intros Ht.
  assert (Hpos : 0 < Zpos p * 2 ^ t) by (apply Z.mul_pos_pos; [lia | by apply Z.pow_pos_nonneg]).
  destruct (Zpos p * 2 ^ t) as [|n|n] eqn:Hn; try lia.
  rewrite !Zdigits2_log2, <- Hn, Z.log2_mul_pow2 by lia. lia.
Qed.

Lemma Zdigits2_mul_le p r :
  Zdigits2 (Zpos (p * r)) ≤ Zdigits2 (Zpos p) + Zdigits2 (Zpos r).
Proof.
  rewrite !Zdigits2_log2, Pos2Z.inj_mul.
  pose proof (Z.log2_mul_above (Zpos p) (Zpos r)). lia.
Qed.

Lemma iter_pos_nat {A} (f : A → A) (p : positive) (x : A) :
  SpecFloat.iter_pos f p x = Nat.iter (Pos.to_nat p) f x.
Proof.
  revert x. induction p as [p IH|p IH|]; intros x.
  - change (SpecFloat.iter_pos f p~1 x)
      with (SpecFloat.iter_pos f p (SpecFloat.iter_pos f p (f x))).
    rewrite !IH, Pos2Nat.inj_xI, Nat.iter_succ_r.
    replace (2 * Pos.to_nat p)%nat with (Pos.to_nat p + Pos.to_nat p)%nat by lia.
    by rewrite Nat.iter_add.
  - change (SpecFloat.iter_pos f p~0 x)
      with (SpecFloat.iter_pos f p (SpecFloat.iter_pos f p x)).
    rewrite !IH, Pos2Nat.inj_xO.
    replace (2 * Pos.to_nat p)%nat with (Pos.to_nat p + Pos.to_nat p)%nat by lia.
    by rewrite Nat.iter_add.
  - reflexivity.
Qed.

Lemma shr_1_exact z :
  0 ≤ z → shr_1 (Build_shr_record (2 * z) false false) = Build_shr_record z false false.
Proof. intros Hz. destruct z as [|p|p]; try lia; reflexivity. Qed.

Lemma shr_exact z e t :
  0 ≤ z → 0 ≤ t →
  shr (Build_shr_record (z * 2 ^ t) false false) e t
  = (Build_shr_record z false false, e + t).
Proof.
  intros Hz Ht. unfold shr. destruct t as [|p|p]; try lia.
  - rewrite Z.mul_1_r, Z.add_0_r. reflexivity.
  - f_equal. rewrite iter_pos_nat.
    rewrite <- (positive_nat_Z p). generalize (Pos.to_nat p) as n. clear p Ht.
    induction n as [|n IH].
    + simpl. by rewrite Z.mul_1_r.
    + rewrite Nat.iter_succ_r, Nat2Z.inj_succ, Z.pow_succ_r by lia.
      replace (z * (2 * 2 ^ Z.of_nat n)) with (2 * (z * 2 ^ Z.of_nat n)) by lia.
      rewrite shr_1_exact; [exact IH|].
      apply Z.mul_nonneg_nonneg; [lia|]. apply Z.pow_nonneg. lia.
Qed.

Lemma bounded_spec m e :
  bounded prec64 emax64 m e = true →
  fexp prec64 emax64 (Zdigits2 (Zpos m) + e) = e ∧ e ≤ emax64 - prec64.
Proof.
  unfold bounded, canonical_mantissa. intros H.
  apply andb_prop in H as [H1 H2].
  apply Z.eqb_eq in H1. apply Z.leb_le in H2. by split.
Qed.

Lemma fexp_mono a b : a ≤ b → fexp prec64 emax64 a ≤ fexp prec64 emax64 b.
Proof. unfold fexp. lia. Qed.

Lemma round_ratio_exact (s : bool) (num den m : positive) (e : Z) :
  bounded prec64 emax64 m e = true →
  Zpos num * 2 ^ Z.max (- e) 0 = Zpos den * Zpos m * 2 ^ Z.max e 0 →
  round_ratio s num den = S754_finite s m e.
Proof.
  intros Hbounded Hvalue.
  destruct (bounded_spec _ _ Hbounded) as [Hcanon Hmax].
  unfold round_ratio, SFdiv_core_binary.
  set (d1 := Zdigits2 (Zpos num)). set (d2 := Zdigits2 (Zpos den)).
  set (e' := Z.min (fexp prec64 emax64 (d1 + 0 - (d2 + 0))) (0 - 0)).
  assert (He'0 : e' ≤ 0) by (unfold e'; lia).
  assert (He'e : e' ≤ e).
  { destruct (Z.le_gt_cases 0 e) as [He|He]; [lia|].
    unfold e'. etrans; [apply Z.le_min_l|].
    transitivity (fexp prec64 emax64 (Zdigits2 (Zpos m) + e)); [|lia].
    apply fexp_mono.
    rewrite Z.max_l, Z.max_r in Hvalue by lia.
    rewrite Z.pow_0_r, Z.mul_1_r in Hvalue.
    assert (Hd : d1 + (- e) = Zdigits2 (Zpos (den * m))).
    { unfold d1. rewrite <- Zdigits2_mul_pow2 by lia. by rewrite Hvalue. }
    pose proof (Zdigits2_mul_le den m). unfold d2. lia. }
  set (t := e - e').
  assert (Hquot : (match 0 - 0 - e' with
                   | Z0 => Zpos num
                   | Zpos _ => Z.shiftl (Zpos num) (0 - 0 - e')
                   | Zneg _ => 0
                   end) = Zpos den * (Zpos m * 2 ^ t)).
  { assert (Hshift : Zpos num * 2 ^ (- e') = Zpos den * (Zpos m * 2 ^ t)).
    { unfold t. destruct (Z.le_gt_cases 0 e) as [He|He].
      - rewrite Z.max_r, Z.max_l in Hvalue by lia.
        rewrite Z.pow_0_r, Z.mul_1_r in Hvalue.
        rewrite Hvalue. replace (e - e') with (e + - e') by lia.
        rewrite Z.pow_add_r by lia. lia.
      - rewrite Z.max_l, Z.max_r in Hvalue by lia.
        rewrite Z.pow_0_r, Z.mul_1_r in Hvalue.
        replace (- e') with (- e + (e - e')) by lia.
        rewrite Z.pow_add_r by lia. rewrite Z.mul_assoc, Hvalue. lia. }
    destruct (0 - 0 - e') as [|p|p] eqn:Hs; try lia.
    - replace (- e') with 0 in Hshift by lia. by rewrite Z.mul_1_r in Hshift.
    - rewrite Z.shiftl_mul_pow2 by lia. rewrite <- Hs.
      replace (0 - 0 - e') with (- e') by lia. exact Hshift. }
  rewrite Hquot.
  assert (Hdiv : Z.div_eucl (Zpos den * (Zpos m * 2 ^ t)) (Zpos den)
                 = (Zpos m * 2 ^ t, 0)).
  { generalize (Zpos m * 2 ^ t) as X. intros X.
    pose proof (Z.div_eucl_eq (Zpos den * X) (Zpos den) ltac:(lia)) as Heq.
    pose proof (Z.mod_pos_bound (Zpos den * X) (Zpos den) ltac:(lia)) as Hmod.
    unfold Z.modulo in Hmod.
    destruct (Z.div_eucl _ _) as [q r].
    assert (Hq : X = q) by nia. subst q. f_equal. lia. }
  rewrite Hdiv.
  assert (Hloc : new_location (Zpos den) 0 = loc_Exact).
  { unfold new_location, new_location_even, new_location_odd.
    by destruct (Z.even (Zpos den)). }
  rewrite Hloc.
  unfold binary_round_aux.
  assert (Ht : 0 ≤ t) by (unfold t; lia).
  assert (Hshr1 : shr_fexp prec64 emax64 (Zpos m * 2 ^ t) e' loc_Exact
                  = (Build_shr_record (Zpos m) false false, e)).
  { unfold shr_fexp. rewrite Zdigits2_mul_pow2 by lia.
    replace (Zdigits2 (Zpos m) + t + e') with (Zdigits2 (Zpos m) + e) by (unfold t; lia).
    rewrite Hcanon. fold t. simpl shr_record_of_loc.
    rewrite shr_exact by lia. f_equal. unfold t. lia. }
  rewrite Hshr1. simpl.
  change (Zpos (digits2_pos m)) with (Zdigits2 (Zpos m)).
  unfold shr_fexp. rewrite Hcanon, Z.sub_diag. simpl.
  apply Z.leb_le in Hmax. by rewrite Hmax.
Qed.

(** *** Decimals up to trailing zeros *)

Lemma strip_zeros_spec fuel D p :
  0 < D → D < 2 ^ (Z.of_nat fuel + 1) →
  ∃ D' k, strip_zeros fuel D p = (D', p + k)
          ∧ 0 < D' ∧ D' `mod` 10 ≠ 0 ∧ 0 ≤ k ∧ D = D' * 10 ^ k.
Proof.
  revert D p. induction fuel as [|fuel IH]; intros D p Hpos Hlt.
  - exists D, 0. simpl in *. rewrite Z.add_0_r, Z.mul_1_r.
    assert (D = 1) as -> by lia. repeat split; try lia. by compute.
  - simpl. destruct (D `mod` 10 =? 0) eqn:Hmod; simpl.
    + apply Z.eqb_eq in Hmod.
      assert ((0 <? D) = true) as -> by (apply Z.ltb_lt; lia).
      pose proof (Z.div_mod D 10 ltac:(lia)) as Hdiv.
      rewrite Nat2Z.inj_succ in Hlt.
      replace (Z.succ (Z.of_nat fuel) + 1) with (Z.succ (Z.of_nat fuel + 1)) in Hlt by lia.
      rewrite Z.pow_succ_r in Hlt by lia.
      destruct (IH (D `div` 10) (p + 1)) as (D' & k & Heq & Hpos' & Hmod' & Hk & Hval);
        [lia|lia|].
      exists D', (k + 1). rewrite Heq. repeat split; try lia.
      * f_equal. lia.
      * rewrite Z.pow_add_r, Z.pow_1_r by lia. lia.
    + apply Z.eqb_neq in Hmod. exists D, 0.
      rewrite Z.add_0_r, Z.mul_1_r. repeat split; try lia.
Qed.

Lemma log2_fuel D : 0 < D → D < 2 ^ (Z.of_nat (Z.to_nat (Z.log2 D)) + 1).
Proof.
  intros HD. pose proof (Z.log2_nonneg D). rewrite Z2Nat.id by lia.
  pose proof (Z.log2_spec D HD). replace (Z.log2 D + 1) with (Z.succ (Z.log2 D)) by lia. lia.
Qed.

Lemma normalize_spec D p :
  0 < D →
  ∃ D' k, normalize D p = (D', p + k)
          ∧ 0 < D' ∧ D' `mod` 10 ≠ 0 ∧ 0 ≤ k ∧ D = D' * 10 ^ k.
Proof. intros HD. apply strip_zeros_spec; [done|by apply log2_fuel]. Qed.

Lemma decimal_unique D1 k1 D2 k2 :
  0 < D1 → 0 < D2 → D1 `mod` 10 ≠ 0 → D2 `mod` 10 ≠ 0 → 0 ≤ k1 → 0 ≤ k2 →
  D1 * 10 ^ k1 = D2 * 10 ^ k2 → D1 = D2 ∧ k1 = k2.
Proof.
  intros H1 H2 Hm1 Hm2 Hk1 Hk2 Heq.
  assert (Haux : ∀ A a B b, 0 < A → B `mod` 10 ≠ 0 → 0 ≤ a → a < b →
                            A * 10 ^ b = B * 10 ^ a → False).
  { intros A a B b HA HB Ha Hab HAB.
    replace b with (a + Z.succ (b - a - 1)) in HAB by lia.
    rewrite Z.pow_add_r, Z.pow_succ_r in HAB by lia.
    assert (Hp : 0 < 10 ^ a) by (apply Z.pow_pos_nonneg; lia).
    assert (HB' : B = 10 * (A * 10 ^ (b - a - 1))) by nia.
    apply HB. rewrite HB', Z.mul_comm. apply Z.mod_mul. lia. }
  destruct (Z.lt_trichotomy k1 k2) as [Hlt|[->|Hgt]].
  - exfalso. by apply (Haux D2 k1 D1 k2).
  - assert (Hp : 0 < 10 ^ k2) by (apply Z.pow_pos_nonneg; lia). split; [nia|done].
  - exfalso. by apply (Haux D1 k2 D2 k1).
Qed.

Lemma normalize_shift D p k :
  0 < D → D `mod` 10 ≠ 0 → 0 ≤ k → normalize (D * 10 ^ k) p = (D, p + k).
Proof.
  intros HD Hmod Hk.
  assert (Hp : 0 < 10 ^ k) by (apply Z.pow_pos_nonneg; lia).
  destruct (normalize_spec (D * 10 ^ k) p) as (D' & k' & Heq & HD' & Hmod' & Hk' & Hval);
    [nia|].
  destruct (decimal_unique D k D' k') as [-> ->]; done.
Qed.

Lemma normalize_canonical D p :
  0 < D → D `mod` 10 ≠ 0 → normalize D p = (D, p).
Proof.
  intros HD Hmod. pose proof (normalize_shift D p 0 HD Hmod ltac:(lia)) as H.
  by rewrite Z.mul_1_r, Z.add_0_r in H.
Qed.

(** The rounding of a decimal depends on the decimal up to trailing zeros. *)
Lemma round_decimal_shift s D p k :
  0 < D → 0 ≤ k → round_decimal s (D * 10 ^ k) p = round_decimal s D (p + k).
Proof.
  intros HD Hk. unfold round_decimal.
  destruct (normalize_spec D (p + k) HD) as (D' & k' & Heq & HD' & Hmod' & Hk' & Hval).
  rewrite Heq. subst D.
  rewrite <- Z.mul_assoc, <- Z.pow_add_r by lia.
  rewrite normalize_shift by lia.
  by replace (p + (k' + k)) with (p + k + k') by lia.
Qed.

Lemma round_decimal_normalize s D p :
  0 < D → round_decimal s D p
          = round_decimal s (normalize D p).1 (normalize D p).2.
Proof.
  intros HD.
  destruct (normalize_spec D p HD) as (D' & k' & Heq & HD' & Hmod' & Hk' & Hval).
  rewrite Heq. simpl. subst D. by apply round_decimal_shift.
Qed.

Lemma pow10_split k : 0 ≤ k → 10 ^ k = 2 ^ k * 5 ^ k.
Proof. intros Hk. by rewrite <- Z.pow_mul_l. Qed.

Lemma exact_decimal_pos m e : 0 < (exact_decimal m e).1.
Proof.
  unfold exact_decimal. destruct (0 <=? e) eqn:He; simpl.
  - apply Z.leb_le in He. apply Z.mul_pos_pos; [lia|]. apply Z.pow_pos_nonneg; lia.
  - apply Z.leb_gt in He. apply Z.mul_pos_pos; [lia|]. apply Z.pow_pos_nonneg; lia.
Qed.

(** A binary64 value, written out exactly in decimal, rounds to itself. *)
Lemma round_decimal_exact s m e :
  bounded prec64 emax64 m e = true →
  round_decimal s (exact_decimal m e).1 (exact_decimal m e).2 = S754_finite s m e.
Proof.
  intros Hbounded.
  pose proof (exact_decimal_pos m e) as HN.
  unfold round_decimal.
  destruct (normalize_spec _ (exact_decimal m e).2 HN)
    as (D & k & Heq & HD & _ & Hk & Hval).
  rewrite Heq. clear Heq.
  assert (Hk10 : 0 < 10 ^ k) by (apply Z.pow_pos_nonneg; lia).
  apply round_ratio_exact; [done|].
  unfold exact_decimal in *. destruct (0 <=? e) eqn:He; simpl in *.
  - apply Z.leb_le in He.
    rewrite (Z.max_r (- e) 0), (Z.max_l e 0), (Z.max_l (0 + k) 0), (Z.max_r (- (0 + k)) 0) by lia.
    rewrite Z.pow_0_r, Z.add_0_l, Z.mul_1_r.
    rewrite !Z2Pos.id by nia. lia.
  - apply Z.leb_gt in He.
    rewrite (Z.max_l (- e) 0), (Z.max_r e 0) by lia. rewrite Z.pow_0_r, Z.mul_1_r.
    assert (H2 : 0 < 2 ^ (- e)) by (apply Z.pow_pos_nonneg; lia).
    assert (H5 : 0 < 5 ^ (- e)) by (apply Z.pow_pos_nonneg; lia).
    destruct (Z.le_gt_cases (e + k) 0) as [Hle|Hgt].
    + rewrite (Z.max_r (e + k) 0), (Z.max_l (- (e + k)) 0) by lia.
      rewrite Z.pow_0_r, Z.mul_1_r.
      assert (Hp : 0 < 10 ^ (- (e + k))) by (apply Z.pow_pos_nonneg; lia).
      rewrite !Z2Pos.id by lia.
      assert (Hsplit : 10 ^ (- e) = 10 ^ (- (e + k)) * 10 ^ k).
      { rewrite <- Z.pow_add_r by lia. f_equal. lia. }
      rewrite (pow10_split (- e)) in Hsplit by lia.
      nia.
    + rewrite (Z.max_l (e + k) 0), (Z.max_r (- (e + k)) 0) by lia.
      rewrite Z.pow_0_r.
      assert (Hp : 0 < 10 ^ (e + k)) by (apply Z.pow_pos_nonneg; lia).
      rewrite !Z2Pos.id by nia.
      assert (Hsplit : 10 ^ k = 10 ^ (e + k) * 10 ^ (- e)).
      { rewrite <- Z.pow_add_r by lia. f_equal. lia. }
      rewrite (pow10_split (- e)) in Hsplit by lia.
      nia.
Qed.

Definition with_sign (s : bool) (f : float64) : float64 :=
  match f with
  | S754_zero _ => S754_zero s
  | S754_infinity _ => S754_infinity s
  | S754_nan => S754_nan
  | S754_finite _ m e => S754_finite s m e
  end.

Lemma round_decimal_sign s D p :
  round_decimal s D p = with_sign s (round_decimal false D p).
Proof.
  unfold round_decimal, round_ratio. destruct (normalize D p) as [D' p'].
  destruct (SFdiv_core_binary _ _ _ _ _ _) as [[mz ez] lz].
  unfold binary_round_aux.
  destruct (shr_fexp _ _ _ _ _) as [mrs' e'].
  destruct (shr_fexp _ _ _ _ _) as [mrs'' e''].
  destruct (shr_m mrs''); [done| |done].
  by destruct (e'' <=? emax64 - prec64).
Qed.

(** *** Digit strings *)

Lemma digit_char_spec d :
  0 ≤ d ≤ 9 → is_digit (digit_char d) = true ∧ digit_val (digit_char d) = d.
Proof.
  intros Hd. assert (Hcases : d = 0 ∨ d = 1 ∨ d = 2 ∨ d = 3 ∨ d = 4 ∨ d = 5
                              ∨ d = 6 ∨ d = 7 ∨ d = 8 ∨ d = 9) by lia.
  repeat (destruct Hcases as [->|Hcases]; [by compute|]). subst d. by compute.
Qed.

Lemma digits_value_app a b :
  digits_value (a ++ b) = digits_value a * 10 ^ Z.of_nat (length b) + digits_value b.
Proof.
  unfold digits_value. rewrite foldl_app. generalize (foldl (λ acc c, acc * 10 + digit_val c) 0 a) as v.
  induction b as [|c b IH] using rev_ind; intros v.
  - simpl. lia.
  - rewrite !foldl_app. simpl. rewrite IH, length_app. simpl.
    rewrite Nat2Z.inj_add, Z.pow_add_r by lia. simpl Z.of_nat. rewrite Z.pow_1_r. lia.
Qed.

Lemma digits_value_zeros k : digits_value (zeros k) = 0.
Proof.
  unfold zeros. induction (Z.to_nat k) as [|n IH]; [done|].
  change (replicate (S n) zero_char) with ([zero_char] ++ replicate n zero_char).
  rewrite digits_value_app, IH. by compute.
Qed.

Lemma length_zeros k : Z.of_nat (length (zeros k)) = Z.max k 0.
Proof. unfold zeros. rewrite length_replicate. lia. Qed.

Lemma Forall_is_digit_zeros k : Forall (λ c, is_digit c = true) (zeros k).
Proof. unfold zeros. apply Forall_replicate. by compute. Qed.

Lemma digits_fuel_spec fuel n acc :
  (1 ≤ fuel)%nat → 0 ≤ n < 2 ^ Z.of_nat fuel →
  ∃ ds, digits_fuel fuel n acc = ds ++ acc
        ∧ Forall (λ c, is_digit c = true) ds
        ∧ digits_value ds = n
        ∧ last ds = Some (digit_char (n `mod` 10)).
Proof.
  revert n acc. induction fuel as [|fuel IH]; intros n acc Hfuel Hn; [lia|].
  simpl.
  pose proof (Z.mod_pos_bound n 10 ltac:(lia)) as Hmod.
  destruct (digit_char_spec (n `mod` 10) ltac:(lia)) as [Hdig Hval].
  destruct (n <? 10) eqn:Hlt.
  - apply Z.ltb_lt in Hlt. exists [digit_char (n `mod` 10)].
    split; [done|]. split; [by apply Forall_singleton|]. split; [|done].
    unfold digits_value. simpl. rewrite Hval. rewrite Z.mod_small; lia.
  - apply Z.ltb_ge in Hlt.
    rewrite Nat2Z.inj_succ, Z.pow_succ_r in Hn by lia.
    pose proof (Z.div_mod n 10 ltac:(lia)) as Hdiv.
    assert (Hfuel' : (1 ≤ fuel)%nat).
    { destruct fuel; [simpl in Hn; lia|lia]. }
    destruct (IH (n `div` 10) (digit_char (n `mod` 10) :: acc) Hfuel') as (ds & Heq & Hall & Hv & _).
    { split; [apply Z.div_pos; lia|]. apply Z.div_lt_upper_bound; lia. }
    exists (ds ++ [digit_char (n `mod` 10)]). rewrite Heq, <- app_assoc.
    split; [done|]. split; [apply Forall_app; split; [done|by apply Forall_singleton]|].
    split; [|by rewrite last_snoc].
    rewrite digits_value_app, Hv. unfold digits_value at 1. simpl. rewrite Hval. lia.
Qed.

Lemma decimal_digits_spec n :
  0 ≤ n →
  Forall (λ c, is_digit c = true) (decimal_digits n)
  ∧ digits_value (decimal_digits n) = n
  ∧ last (decimal_digits n) = Some (digit_char (n `mod` 10)).
Proof.
  intros Hn. unfold decimal_digits.
  destruct (digits_fuel_spec (S (Z.to_nat (Z.log2 n))) n []) as (ds & Heq & H); [lia| |].
  - split; [done|]. rewrite Nat2Z.inj_succ, Z2Nat.id by apply Z.log2_nonneg.
    destruct (Z.eq_dec n 0) as [->|Hne]; [by compute|].
    apply Z.log2_spec. lia.
  - by rewrite Heq, app_nil_r.
Qed.

Lemma decimal_digits_nonempty n : 0 ≤ n → decimal_digits n ≠ [].
Proof.
  intros Hn Heq. destruct (decimal_digits_spec n Hn) as (_ & _ & Hlast).
  by rewrite Heq in Hlast.
Qed.

Lemma span_digits_app ds rest :
  Forall (λ c, is_digit c = true) ds →
  head (is_digit <$> rest) ≠ Some true →
  span_digits (ds ++ rest) = (ds, rest).
Proof.
  intros Hall Hrest. induction Hall as [|c ds Hc Hall IH]; simpl.
  - destruct rest as [|c rest]; [done|]. simpl in *.
    destruct (is_digit c); [done|done].
  - by rewrite Hc, IH.
Qed.

(** *** Reading back what the layouts print *)

Lemma is_digit_plain c :
  is_digit c = true →
  c ≠ "-"%char ∧ c ≠ "+"%char ∧ c ≠ "."%char ∧ to_lower c ≠ "e"%char.
Proof.
  destruct c as [[] [] [] [] [] [] [] []]; intros H; try discriminate H;
    repeat split; intros Heq; discriminate Heq.
Qed.

Lemma read_sign_signed neg c cs :
  is_digit c = true → read_sign (sign_chars neg ++ c :: cs) = (neg, c :: cs).
Proof.
  intros Hc. destruct (is_digit_plain c Hc) as (Hm & Hp & _).
  destruct neg; simpl; [done|].
  by rewrite !bool_decide_eq_false_2.
Qed.

Lemma readFloat_plain neg ip fp (dot : bool) :
  Forall (λ c, is_digit c = true) ip → Forall (λ c, is_digit c = true) fp →
  ip ≠ [] → (dot = false → fp = []) →
  readFloat (sign_chars neg ++ ip ++ (if dot then "."%char :: fp else []))
  = Some (neg, digits_value (ip ++ fp), - Z.of_nat (length fp)).
Proof.
  intros Hip Hfp Hne Hdot. unfold readFloat.
  destruct ip as [|c ip]; [done|]. apply Forall_cons in Hip as [Hc Hip].
  rewrite <- app_comm_cons, read_sign_signed by done.
  rewrite app_comm_cons.
  rewrite span_digits_app; [|by apply Forall_cons|by destruct dot].
  destruct dot.
  - rewrite bool_decide_eq_true_2 by done.
    rewrite <- (app_nil_r fp) at 1. rewrite span_digits_app by done.
    rewrite bool_decide_eq_false_2 by done. done.
  - rewrite (Hdot eq_refl). simpl. done.
Qed.

Lemma readFloat_exponent neg ip fp (dot eneg : bool) ed :
  Forall (λ c, is_digit c = true) ip → Forall (λ c, is_digit c = true) fp →
  Forall (λ c, is_digit c = true) ed →
  ip ≠ [] → ed ≠ [] → (dot = false → fp = []) →
  readFloat (sign_chars neg ++ ip ++ (if dot then "."%char :: fp else [])
             ++ ["e"%char] ++ [if eneg then "-"%char else "+"%char] ++ ed)
  = Some (neg, digits_value (ip ++ fp),
          (if eneg then - digits_value ed else digits_value ed)
          - Z.of_nat (length fp)).
Proof.
  intros Hip Hfp Hed Hne Hene Hdot. unfold readFloat.
  destruct ip as [|c ip]; [done|]. apply Forall_cons in Hip as [Hc Hip].
  rewrite <- app_comm_cons, read_sign_signed by done.
  rewrite app_comm_cons.
  rewrite span_digits_app; [|by apply Forall_cons|by destruct dot].
  assert (Hexp : ∀ pre : list ascii,
    (let '(eneg0, cs'') := read_sign ([if eneg then "-"%char else "+"%char] ++ ed) in
     let '(ed0, rest) := span_digits cs'' in
     if bool_decide (ed0 = [] ∨ rest ≠ []) then None
     else Some (neg, digits_value pre,
                (if eneg0 then - digits_value ed0 else digits_value ed0)
                - Z.of_nat (length fp)))
    = Some (neg, digits_value pre,
            (if eneg then - digits_value ed else digits_value ed)
            - Z.of_nat (length fp))).
  { intros pre.
    assert (Hsign : read_sign ([if eneg then "-"%char else "+"%char] ++ ed) = (eneg, ed))
      by (by destruct eneg).
    rewrite Hsign. rewrite <- (app_nil_r ed) at 1. rewrite span_digits_app by done.
    rewrite bool_decide_eq_false_2; [done|]. intros [?|?]; done. }
  destruct dot.
  - rewrite <- app_comm_cons.
    rewrite bool_decide_eq_true_2 by done.
    rewrite span_digits_app by done.
    rewrite bool_decide_eq_false_2 by done.
    rewrite <- app_comm_cons.
    rewrite bool_decide_eq_true_2 by done. apply Hexp.
  - assert (fp = []) as -> by (by apply Hdot).
    rewrite app_nil_l, <- app_comm_cons.
    rewrite bool_decide_eq_false_2 by done.
    rewrite bool_decide_eq_false_2 by done.
    rewrite bool_decide_eq_true_2 by done. rewrite app_nil_r.
    rewrite app_nil_l. apply Hexp.
Qed.

Lemma digits_value_leading_zeros k ds :
  digits_value (zeros k ++ ds) = digits_value ds.
Proof. rewrite digits_value_app, digits_value_zeros. lia. Qed.

Lemma exponent_digits n :
  0 ≤ n →
  let ed := (if n <? 10 then [zero_char] else []) ++ decimal_digits n in
  Forall (λ c, is_digit c = true) ed ∧ ed ≠ [] ∧ digits_value ed = n
  ∧ (2 ≤ length ed)%nat.
Proof.
  intros Hn ed. destruct (decimal_digits_spec n Hn) as (Hall & Hval & _).
  pose proof (decimal_digits_nonempty n Hn) as Hne.
  split; [|split; [|split]].
  - apply Forall_app. split; [|done]. destruct (n <? 10); [|done].
    apply Forall_singleton. by compute.
  - unfold ed. destruct (n <? 10); [done|]. by rewrite app_nil_l.
  - unfold ed. rewrite digits_value_app, Hval. destruct (n <? 10); by compute || lia.
  - unfold ed. destruct (n <? 10) eqn:Hlt.
    + rewrite length_app. simpl. destruct (decimal_digits n); [done|simpl; lia].
    + apply Z.ltb_ge in Hlt. rewrite app_nil_l.
      destruct (decimal_digits n) as [|c1 [|c2 l]] eqn:Hd; [done| |simpl; lia].
      exfalso. apply (proj1 (Forall_singleton _ _)) in Hall.
      unfold digits_value in Hval. simpl in Hval.
      unfold is_digit, digit_val in *.
      apply andb_prop in Hall as [H1 H2].
      apply Nat.leb_le in H1, H2. lia.
Qed.

Lemma readFloat_fmtE neg ds dp :
  Forall (λ c, is_digit c = true) ds → ds ≠ [] →
  readFloat (fmtE neg ds dp)
  = Some (neg, digits_value ds, dp - Z.of_nat (length ds)).
Proof.
  intros Hall Hne. unfold fmtE.
  destruct (exponent_digits (Z.abs (dp - 1)) ltac:(lia)) as (Hed & Hedne & Hedval & _).
  set (ed := (if Z.abs (dp - 1) <? 10 then [zero_char] else [])
             ++ decimal_digits (Z.abs (dp - 1))) in *.
  rewrite (readFloat_exponent neg (take 1 ds) (drop 1 ds)
             (bool_decide (1 < length ds)%nat) (dp - 1 <? 0) ed).
  - rewrite take_drop, Hedval. f_equal. f_equal.
    rewrite length_drop.
    destruct ds as [|c ds]; [done|]. simpl length.
    destruct (dp - 1 <? 0) eqn:Hlt; [apply Z.ltb_lt in Hlt|apply Z.ltb_ge in Hlt]; lia.
  - by apply Forall_take.
  - by apply Forall_drop.
  - done.
  - by destruct ds.
  - done.
  - intros Hfalse. apply bool_decide_eq_false in Hfalse.
    destruct ds as [|c1 [|c2 ds]]; [done|done|]. simpl in Hfalse. lia.
Qed.

Lemma readFloat_fmtF neg ds dp :
  Forall (λ c, is_digit c = true) ds → ds ≠ [] →
  readFloat (fmtF neg ds dp)
  = Some (neg,
          digits_value ds * 10 ^ Z.max (dp - Z.of_nat (length ds)) 0,
          Z.min (dp - Z.of_nat (length ds)) 0).
Proof.
  intros Hall Hne. unfold fmtF.
  set (nd := Z.of_nat (length ds)).
  assert (Hnd : 1 ≤ nd) by (unfold nd; destruct ds; [done|simpl; lia]).
  rewrite (readFloat_plain neg
             (if 0 <? dp then take (Z.to_nat dp) ds ++ zeros (dp - nd) else [zero_char])
             (zeros (- dp) ++ drop (Z.to_nat dp) ds) (dp <? nd)).
  - f_equal. f_equal; [f_equal|].
    + destruct (0 <? dp) eqn:Hdp; [apply Z.ltb_lt in Hdp|apply Z.ltb_ge in Hdp].
      * assert (zeros (- dp) = []) as -> by (unfold zeros; by replace (Z.to_nat (- dp)) with 0%nat by lia).
        rewrite app_nil_l, <- app_assoc.
        destruct (Z.le_gt_cases nd dp) as [Hge|Hlt].
        -- rewrite drop_ge, take_ge by (unfold nd in *; lia).
           rewrite app_nil_r, digits_value_app, digits_value_zeros, length_zeros.
           rewrite (Z.max_l (dp - nd) 0) by lia. lia.
        -- assert (zeros (dp - nd) = []) as -> by (unfold zeros; by replace (Z.to_nat (dp - nd)) with 0%nat by lia).
           rewrite (Z.max_r (dp - nd) 0) by lia.
           rewrite Z.pow_0_r, !Z.mul_1_r, app_nil_l.
           by rewrite take_drop.
      * rewrite (Z.max_r (dp - nd) 0) by lia.
        replace (Z.to_nat dp) with 0%nat by lia. rewrite drop_0.
        change ([zero_char] ++ zeros (- dp) ++ ds) with (zeros 1 ++ zeros (- dp) ++ ds).
        rewrite !digits_value_leading_zeros. lia.
    + rewrite length_app, Nat2Z.inj_add, length_zeros, length_drop.
      fold nd. lia.
  - destruct (0 <? dp); [|apply Forall_singleton; by compute].
    apply Forall_app. split; [by apply Forall_take|apply Forall_is_digit_zeros].
  - apply Forall_app. split; [apply Forall_is_digit_zeros|by apply Forall_drop].
  - destruct (0 <? dp) eqn:Hdp; [|done]. apply Z.ltb_lt in Hdp.
    destruct ds as [|c ds]; [done|].
    replace (Z.to_nat dp) with (S (Z.to_nat (dp - 1))) by lia. done.
  - intros Hfalse. apply Z.ltb_ge in Hfalse.
    rewrite drop_ge by (unfold nd in *; lia).
    unfold zeros. by replace (Z.to_nat (- dp)) with 0%nat by lia.
Qed.

Lemma readFloat_formatDigits neg ds dp :
  Forall (λ c, is_digit c = true) ds → ds ≠ [] → 0 < digits_value ds →
  ∃ mant exp,
    readFloat (formatDigits neg ds dp) = Some (neg, mant, exp)
    ∧ 0 < mant
    ∧ ∀ s, round_decimal s mant exp
           = round_decimal s (digits_value ds) (dp - Z.of_nat (length ds)).
Proof.
  intros Hall Hne Hpos. unfold formatDigits.
  destruct ((dp - 1 <? -4) || (6 <=? dp - 1)).
  - eexists _, _. split; [by apply readFloat_fmtE|]. by split.
  - eexists _, _. split; [by apply readFloat_fmtF|].
    set (k := dp - Z.of_nat (length ds)).
    assert (Hp : 0 < 10 ^ Z.max k 0) by (apply Z.pow_pos_nonneg; lia).
    split; [nia|]. intros s.
    rewrite round_decimal_shift by lia. f_equal. lia.
Qed.

(** *** The digits that are printed *)

Lemma reads_back_spec x D p :
  reads_back x D p = true ↔ 0 < D ∧ round_decimal false D p = x.
Proof.
  unfold reads_back. rewrite andb_true_iff, Z.ltb_lt, bool_decide_eq_true. done.
Qed.

Lemma shortest_search_reads_back fuel x N q nd n :
  reads_back x N q = true →
  reads_back x (shortest_search fuel x N q nd n).1
               (shortest_search fuel x N q nd n).2 = true.
Proof.
  intros Hexact. revert n. induction fuel as [|fuel IH]; intros n; simpl; [done|].
  destruct (nd <=? n); [done|].
  destruct (reads_back x (N `div` 10 ^ (nd - n)) (q + (nd - n))) eqn:Hlo,
    (reads_back x (N `div` 10 ^ (nd - n) + 1) (q + (nd - n))) eqn:Hhi; simpl.
  - destruct (2 * (N `mod` 10 ^ (nd - n)) ?= 10 ^ (nd - n)); simpl; try done.
    by destruct (Z.even _).
  - done.
  - done.
  - apply IH.
Qed.

Lemma shortest_spec m e :
  bounded prec64 emax64 m e = true →
  ∃ D p, shortest m e = (D, p) ∧ 0 < D ∧ D `mod` 10 ≠ 0
         ∧ round_decimal false D p = S754_finite false m e.
Proof.
  intros Hbounded. unfold shortest.
  pose proof (round_decimal_exact false m e Hbounded) as Hexact.
  pose proof (exact_decimal_pos m e) as HN.
  destruct (exact_decimal m e) as [N q]. simpl in *.
  pose proof (shortest_search_reads_back
                (Z.to_nat (Z.of_nat (length (decimal_digits N))))
                (S754_finite false m e) N q (Z.of_nat (length (decimal_digits N))) 1
                (proj2 (reads_back_spec _ _ _) (conj HN Hexact))) as Hsearch.
  destruct (shortest_search _ _ _ _ _ _) as [D0 p0]. simpl in Hsearch.
  apply reads_back_spec in Hsearch as [HD0 Hround].
  destruct (normalize_spec D0 p0 HD0) as (D & k & Heq & HD & Hmod & Hk & Hval).
  exists D, (p0 + k). split; [done|]. split; [done|]. split; [done|].
  rewrite <- Hround, (round_decimal_normalize false D0 p0 HD0). by rewrite Heq.
Qed.

Lemma to_lower_digit c : is_digit c = true → to_lower c = c.
Proof. destruct c as [[] [] [] [] [] [] [] []]; intros H; try discriminate H; done. Qed.

Lemma special_number neg c cs :
  is_digit c = true → special (sign_chars neg ++ c :: cs) = None.
Proof.
  intros Hc. destruct (is_digit_plain c Hc) as (Hm & Hp & _).
  unfold special.
  assert (Hbody : ∀ signed neg0,
    (let body := to_lower <$> c :: cs in
     if bool_decide (body = list_ascii_of_string "inf"
                     ∨ body = list_ascii_of_string "infinity")
     then Some (S754_infinity neg0)
     else if bool_decide (signed = false ∧ body = list_ascii_of_string "nan")
     then Some S754_nan else None) = None).
  { intros signed neg0. cbv zeta. rewrite fmap_cons, (to_lower_digit c Hc).
    rewrite !bool_decide_eq_false_2; [done| |].
    - intros [_ Heq]. injection Heq as -> _. discriminate Hc.
    - intros [Heq|Heq]; injection Heq as -> _; discriminate Hc. }
  destruct neg; cbn [sign_chars app]; lazy iota beta.
  - rewrite bool_decide_eq_true_2 by done. lazy iota beta. apply Hbody.
  - rewrite !bool_decide_eq_false_2 by done. lazy iota beta. apply Hbody.
Qed.

Lemma formatDigits_head neg ds dp :
  Forall (λ c, is_digit c = true) ds → ds ≠ [] →
  ∃ c cs, formatDigits neg ds dp = sign_chars neg ++ c :: cs ∧ is_digit c = true.
Proof.
  intros Hall Hne. destruct ds as [|c ds]; [done|].
  apply Forall_cons in Hall as [Hc Hall].
  unfold formatDigits, fmtE, fmtF.
  destruct ((dp - 1 <? -4) || (6 <=? dp - 1)).
  - eexists c, _. split; [|done]. simpl. reflexivity.
  - destruct (0 <? dp) eqn:Hdp.
    + apply Z.ltb_lt in Hdp. eexists c, _. split; [|done].
      replace (Z.to_nat dp) with (S (Z.to_nat (dp - 1))) by lia. simpl. reflexivity.
    + eexists zero_char, _. split; [|by compute]. simpl. reflexivity.
Qed.

Lemma with_sign_false s m e f :
  f = S754_finite false m e → with_sign s f = S754_finite s m e.
Proof. by intros ->. Qed.

(** Parsing what [%g] printed gives the value back. *)
Lemma ParseFloat_FormatFloat_g (f : float64) :
  valid_binary prec64 emax64 f = true →
  ParseFloat (fmt.Sprintf_g f) = Some f.
Proof.
  intros Hvalid. unfold ParseFloat, fmt.Sprintf_g.
  rewrite list_ascii_of_string_of_list_ascii.
  destruct f as [s|s| |s m e].
  - by destruct s.
  - by destruct s.
  - done.
  - simpl in Hvalid. unfold FormatFloat_g.
    destruct (shortest_spec m e Hvalid) as (D & p & -> & HD & Hmod & Hround).
    destruct (decimal_digits_spec D ltac:(lia)) as (Hall & Hval & _).
    pose proof (decimal_digits_nonempty D ltac:(lia)) as Hne.
    set (ds := decimal_digits D) in *.
    destruct (formatDigits_head s ds (Z.of_nat (length ds) + p) Hall Hne)
      as (c & cs & Hhead & Hc).
    rewrite Hhead, (special_number _ _ _ Hc), <- Hhead.
    destruct (readFloat_formatDigits s ds (Z.of_nat (length ds) + p) Hall Hne)
      as (mant & exp & -> & Hmant & Hsame); [lia|].
    assert ((mant =? 0) = false) as -> by (apply Z.eqb_neq; lia).
    rewrite Hsame, Hval.
    replace (Z.of_nat (length ds) + p - Z.of_nat (length ds)) with p by lia.
    rewrite round_decimal_sign, Hround. done.
Qed.

(** *** No trailing point and zero *)

Lemma list_ascii_of_string_app (a b : string) :
  list_ascii_of_string (a +:+ b) = list_ascii_of_string a ++ list_ascii_of_string b.
Proof. induction a as [|c a IH]; simpl; [done|]. by rewrite IH. Qed.

Definition point_zero : list ascii := ["."%char; zero_char].

Lemma ends_point_zero_last (l pre : list ascii) :
  l = pre ++ point_zero → last l = Some zero_char ∧ "."%char ∈ l.
Proof.
  intros ->. split.
  - unfold point_zero. by rewrite last_app.
  - apply elem_of_app. right. left.
Qed.

Lemma digit_char_nonzero d : 0 < d ≤ 9 → digit_char d ≠ zero_char.
Proof.
  intros Hd Heq. destruct (digit_char_spec d ltac:(lia)) as [_ Hval].
  rewrite Heq in Hval. compute in Hval. lia.
Qed.

Lemma fmtE_no_point_zero neg ds dp pre :
  Forall (λ c, is_digit c = true) ds → fmtE neg ds dp ≠ pre ++ point_zero.
Proof.
  intros Hall Heq. unfold fmtE in Heq.
  destruct (exponent_digits (Z.abs (dp - 1)) ltac:(lia)) as (Hed & _ & _ & Hlen).
  set (ed := (if Z.abs (dp - 1) <? 10 then [zero_char] else [])
             ++ decimal_digits (Z.abs (dp - 1))) in *.
  destruct (rev ed) as [|c1 [|c2 red]] eqn:Hrev.
  - apply (f_equal length) in Hrev. rewrite length_rev in Hrev. simpl in Hrev. lia.
  - apply (f_equal length) in Hrev. rewrite length_rev in Hrev. simpl in Hrev. lia.
  - assert (Hed' : ed = rev red ++ [c2; c1]).
    { rewrite <- (rev_involutive ed), Hrev. simpl. by rewrite <- !app_assoc. }
    assert (Hc2 : is_digit c2 = true).
    { rewrite Hed' in Hed. apply Forall_app in Hed as [_ Hed].
      by apply Forall_cons in Hed as [Hc2 _]. }
    rewrite Hed' in Heq. apply (f_equal (@rev ascii)) in Heq.
    rewrite !rev_app_distr in Heq. simpl in Heq.
    injection Heq as _ Hpoint _. subst c2. discriminate Hc2.
Qed.

Lemma fmtF_no_point_zero neg ds dp pre :
  Forall (λ c, is_digit c = true) ds → last ds ≠ Some zero_char → ds ≠ [] →
  fmtF neg ds dp ≠ pre ++ point_zero.
Proof.
  intros Hall Hlast Hne Heq. apply ends_point_zero_last in Heq as [Hzero Hpoint].
  unfold fmtF in *. destruct (dp <? Z.of_nat (length ds)) eqn:Hdp.
  - apply Z.ltb_lt in Hdp. apply Hlast. rewrite <- Hzero.
    assert (Hdrop : drop (Z.to_nat dp) ds ≠ []).
    { intros Hnil. apply (f_equal length) in Hnil. rewrite length_drop in Hnil.
      assert (0 < length ds)%nat by (destruct ds; [done|simpl; lia]).
      simpl in Hnil. lia. }
    rewrite !last_app, last_cons, last_app.
    rewrite <- (take_drop (Z.to_nat dp) ds) at 1. rewrite last_app.
    destruct (last (drop (Z.to_nat dp) ds)) eqn:Hl; [done|].
    by apply last_None in Hl.
  - rewrite app_nil_r in Hpoint.
    apply elem_of_app in Hpoint as [Hpoint|Hpoint].
    + destruct neg; simpl in Hpoint; [|by apply elem_of_nil in Hpoint].
      apply list_elem_of_singleton in Hpoint. discriminate Hpoint.
    + assert (Hdigits : Forall (λ c, is_digit c = true)
                (if 0 <? dp then take (Z.to_nat dp) ds ++ zeros (dp - Z.of_nat (length ds))
                 else [zero_char])).
      { destruct (0 <? dp); [|apply Forall_singleton; by compute].
        apply Forall_app. split; [by apply Forall_take|apply Forall_is_digit_zeros]. }
      rewrite Forall_forall in Hdigits. specialize (Hdigits _ Hpoint).
      discriminate Hdigits.
Qed.

(** The rendering never ends in ".0". *)
Lemma Sprintf_g_no_point_zero (f : float64) (prefix : string) :
  valid_binary prec64 emax64 f = true →
  fmt.Sprintf_g f ≠ prefix +:+ ".0".
Proof.
  intros Hvalid Heq. apply (f_equal list_ascii_of_string) in Heq.
  unfold fmt.Sprintf_g in Heq.
  rewrite list_ascii_of_string_of_list_ascii, list_ascii_of_string_app in Heq.
  change (list_ascii_of_string ".0") with point_zero in Heq.
  destruct f as [s|s| |s m e].
  - apply (f_equal (@rev ascii)) in Heq. rewrite rev_app_distr in Heq.
    destruct s; simpl in Heq; discriminate Heq.
  - apply ends_point_zero_last in Heq as [Hlast _]. destruct s; discriminate Hlast.
  - apply ends_point_zero_last in Heq as [Hlast _]. discriminate Hlast.
  - simpl in Hvalid. unfold FormatFloat_g in Heq.
    destruct (shortest_spec m e Hvalid) as (D & p & Hs & HD & Hmod & _).
    rewrite Hs in Heq.
    destruct (decimal_digits_spec D ltac:(lia)) as (Hall & _ & Hlast).
    pose proof (decimal_digits_nonempty D ltac:(lia)) as Hne.
    pose proof (Z.mod_pos_bound D 10 ltac:(lia)) as Hbound.
    unfold formatDigits in Heq.
    destruct ((_ <? -4) || (6 <=? _)).
    + by apply fmtE_no_point_zero in Heq.
    + apply fmtF_no_point_zero in Heq; [done|done| |done].
      rewrite Hlast. intros [= Hz]. by apply digit_char_nonzero in Hz; [|lia].
Qed.

End rendering.

(** ** The rendering is a shortest one *)

Section shortest_rendering.
Import strconv.
Local Open Scope Z_scope.

(** *** How many digits *)

Lemma digits_fuel_length fuel n acc :
  (1 ≤ fuel)%nat → 0 < n < 2 ^ Z.of_nat fuel →
  ∃ L, Z.of_nat (length (digits_fuel fuel n acc)) = L + Z.of_nat (length acc)
       ∧ 1 ≤ L ∧ 10 ^ (L - 1) ≤ n < 10 ^ L.
Proof.
  revert n acc. induction fuel as [|fuel IH]; intros n acc Hfuel Hn; [lia|].
  simpl. destruct (n <? 10) eqn:Hlt.
  - apply Z.ltb_lt in Hlt. exists 1. simpl length. split; [lia|].
    split; [lia|]. simpl. lia.
  - apply Z.ltb_ge in Hlt.
    rewrite Nat2Z.inj_succ, Z.pow_succ_r in Hn by lia.
    pose proof (Z.div_mod n 10 ltac:(lia)) as Hdiv.
    pose proof (Z.mod_pos_bound n 10 ltac:(lia)) as Hmod.
    assert (Hfuel' : (1 ≤ fuel)%nat).
    { destruct fuel; [simpl in Hn; lia|lia]. }
    destruct (IH (n `div` 10) (digit_char (n `mod` 10) :: acc) Hfuel')
      as (L & Hlen & HL & Hlo & Hhi).
    { split; [apply Z.div_str_pos; lia|]. apply Z.div_lt_upper_bound; lia. }
    exists (L + 1). rewrite Hlen. simpl length. split; [lia|]. split; [lia|].
    replace (L + 1 - 1) with (Z.succ (L - 1)) by lia.
    replace (L + 1) with (Z.succ L) by lia.
    rewrite !Z.pow_succ_r by lia. lia.
Qed.

Definition ndigits (n : Z) : Z := Z.of_nat (length (decimal_digits n)).

Lemma ndigits_spec n :
  0 < n → 1 ≤ ndigits n ∧ 10 ^ (ndigits n - 1) ≤ n < 10 ^ ndigits n.
Proof.
  intros Hn. unfold ndigits, decimal_digits.
  destruct (digits_fuel_length (S (Z.to_nat (Z.log2 n))) n []) as (L & Hlen & HL & Hb);
    [lia| |].
  - split; [done|]. rewrite Nat2Z.inj_succ, Z2Nat.id by apply Z.log2_nonneg.
    apply Z.log2_spec. lia.
  - rewrite Hlen. simpl. rewrite Z.add_0_r. done.
Qed.

Lemma ndigits_le n k : 0 < n → 0 ≤ k → n < 10 ^ k → ndigits n ≤ k.
Proof.
  intros Hn Hk Hlt. destruct (ndigits_spec n Hn) as (HL & Hlo & _).
  destruct (Z.le_gt_cases (ndigits n) k) as [|Hgt]; [done|].
  assert (10 ^ k ≤ 10 ^ (ndigits n - 1)) by (apply Z.pow_le_mono_r; lia). lia.
Qed.

(** *** The search stops at the first length that reads back *)

Definition rejected (x : float64) (N q nd n : Z) : Prop :=
  reads_back x (N `div` 10 ^ (nd - n)) (q + (nd - n)) = false
  ∧ reads_back x (N `div` 10 ^ (nd - n) + 1) (q + (nd - n)) = false.

Lemma shortest_search_stop fuel x N q nd n :
  ∃ n_stop,
    n ≤ n_stop
    ∧ (∀ n', n ≤ n' < n_stop → rejected x N q nd n')
    ∧ ((n_stop < nd
        ∧ ∃ D, shortest_search fuel x N q nd n = (D, q + (nd - n_stop))
               ∧ (D = N `div` 10 ^ (nd - n_stop)
                  ∨ D = N `div` 10 ^ (nd - n_stop) + 1))
       ∨ (shortest_search fuel x N q nd n = (N, q)
          ∧ (nd ≤ n_stop ∨ n_stop = n + Z.of_nat fuel))).
Proof.
  revert n. induction fuel as [|fuel IH]; intros n.
  { exists n. split; [lia|]. split; [intros; lia|]. right. split; [done|]. right. simpl. lia. }
  simpl. destruct (nd <=? n) eqn:Hnd.
  { apply Z.leb_le in Hnd. exists n. split; [lia|]. split; [intros; lia|].
    right. split; [done|]. by left. }
  apply Z.leb_gt in Hnd.
  destruct (reads_back x (N `div` 10 ^ (nd - n)) (q + (nd - n))) eqn:Hlo,
    (reads_back x (N `div` 10 ^ (nd - n) + 1) (q + (nd - n))) eqn:Hhi.
  4: { destruct (IH (n + 1)) as (n_stop & Hle & Hrej & Hres).
       exists n_stop. split; [lia|]. split.
       - intros n' Hn'. destruct (Z.eq_dec n' n) as [->|Hne]; [by split|].
         apply Hrej. lia.
       - destruct Hres as [Hres|[Hres Hstop]]; [by left|].
         right. split; [done|]. lia. }
  all: exists n; split; [lia|]; split; [intros; lia|]; left; split; [done|].
  - destruct (2 * (N `mod` 10 ^ (nd - n)) ?= 10 ^ (nd - n));
      [destruct (Z.even _)| |]; eexists; split; eauto.
  - eexists; split; eauto.
  - eexists; split; eauto.
Qed.

Lemma shortest_minimal_among_neighbours m e :
  bounded prec64 emax64 m e = true →
  let x := S754_finite false m e in
  let N := (exact_decimal m e).1 in
  let q := (exact_decimal m e).2 in
  ndigits (shortest m e).1 ≤ ndigits N
  ∧ ∀ n, 1 ≤ n < ndigits (shortest m e).1 → rejected x N q (ndigits N) n.
Proof.
  intros Hbounded. cbv zeta.
  pose proof (round_decimal_exact false m e Hbounded) as Hexact.
  pose proof (exact_decimal_pos m e) as HN.
  unfold shortest.
  destruct (exact_decimal m e) as [N q]. cbn [fst snd] in *.
  change (Z.of_nat (length (decimal_digits N))) with (ndigits N).
  destruct (ndigits_spec N HN) as (Hnd & _ & HNhi).
  pose proof (shortest_search_reads_back (Z.to_nat (ndigits N)) (S754_finite false m e)
                N q (ndigits N) 1
                (proj2 (reads_back_spec _ _ _) (conj HN Hexact))) as Hback.
  destruct (shortest_search_stop (Z.to_nat (ndigits N)) (S754_finite false m e)
              N q (ndigits N) 1)
    as (n_stop & Hle & Hrej & Hres).
  assert (Hdigits : ndigits (normalize
                               (shortest_search (Z.to_nat (ndigits N))
                                  (S754_finite false m e) N q (ndigits N) 1).1
                               (shortest_search (Z.to_nat (ndigits N))
                                  (S754_finite false m e) N q (ndigits N) 1).2).1
                    ≤ n_stop
                    ∧ ndigits (normalize
                                 (shortest_search (Z.to_nat (ndigits N))
                                    (S754_finite false m e) N q (ndigits N) 1).1
                                 (shortest_search (Z.to_nat (ndigits N))
                                    (S754_finite false m e) N q (ndigits N) 1).2).1
                      ≤ ndigits N).
  { destruct (shortest_search _ _ _ _ _ _) as [D0 p0]. cbn [fst snd] in *.
    apply reads_back_spec in Hback as [HD0 _].
    destruct (normalize_spec D0 p0 HD0) as (D & k & Heq & HD & Hmod & Hk & Hval).
    rewrite Heq. cbn [fst].
    assert (Hk10 : 0 < 10 ^ k) by (apply Z.pow_pos_nonneg; lia).
    destruct Hres as [(Hlt & D0' & [= -> _] & Hcand)|([= -> ->] & Hstop)].
    - assert (Hlo : N `div` 10 ^ (ndigits N - n_stop) < 10 ^ n_stop).
      { apply Z.div_lt_upper_bound; [apply Z.pow_pos_nonneg; lia|].
        rewrite <- Z.pow_add_r by lia.
        by replace (ndigits N - n_stop + n_stop) with (ndigits N) by lia. }
      assert (ndigits D ≤ n_stop); [|lia].
      destruct (Z.eq_dec D0' (10 ^ n_stop)) as [Hten|Hne].
      + assert (D = 1) as ->.
        { apply (decimal_unique D k 1 n_stop); try done; lia. }
        apply Z.le_trans with 1; [by compute|lia].
      + apply ndigits_le; [done|lia|]. nia.
    - assert (ndigits D ≤ ndigits N); [|lia].
      apply ndigits_le; [done|lia|]. nia. }
  destruct (shortest_search _ _ _ _ _ _) as [D0 p0]. cbn [fst snd] in *.
  destruct (normalize D0 p0) as [D p] eqn:Hnorm. cbn [fst] in *.
  split; [lia|].
  intros n Hn. apply Hrej. lia.
Qed.

(** *** The division of [SpecFloat] rounds to nearest, ties to even *)

(** Where [rho / c] lies in the unit interval. *)
Definition locz (rho c : Z) : location :=
  if rho =? 0 then loc_Exact else loc_Inexact (2 * rho ?= c).

Lemma new_location_locz b r : 0 < b → 0 ≤ r < b → new_location b r = locz r b.
Proof.
  intros Hb Hr. unfold new_location, new_location_even, new_location_odd, locz.
  destruct (Z.even b) eqn:Heven; [done|].
  destruct (r =? 0); [done|]. f_equal.
  assert (Hodd : Z.odd b = true) by (by rewrite <- Z.negb_even, Heven).
  apply Z.odd_spec in Hodd as [h Hh].
  destruct (2 * r + 1 ?= b) eqn:Hcmp.
  - apply Z.compare_eq in Hcmp. symmetry. apply (proj2 (Z.compare_lt_iff _ _)). lia.
  - apply (proj1 (Z.compare_lt_iff _ _)) in Hcmp. symmetry. apply (proj2 (Z.compare_lt_iff _ _)). lia.
  - apply (proj1 (Z.compare_gt_iff _ _)) in Hcmp. symmetry. apply (proj2 (Z.compare_gt_iff _ _)). lia.
Qed.

Lemma loc_of_record m l : loc_of_shr_record (shr_record_of_loc m l) = l.
Proof. by destruct l as [|[]]. Qed.

Lemma shr_m_record m l : shr_m (shr_record_of_loc m l) = m.
Proof. by destruct l as [|[]]. Qed.

Lemma shr_1_locz X c :
  0 < c → 0 ≤ X →
  shr_1 (shr_record_of_loc (X `div` c) (locz (X `mod` c) c))
  = shr_record_of_loc (X `div` (2 * c)) (locz (X `mod` (2 * c)) (2 * c)).
Proof.
  intros Hc HX.
  pose proof (Z.div_mod X c ltac:(lia)) as Hdiv.
  pose proof (Z.mod_pos_bound X c ltac:(lia)) as Hmod.
  pose proof (Z.div_pos X c HX Hc) as Hq.
  generalize dependent (X `mod` c). generalize dependent (X `div` c).
  intros m Hq rho Hdiv Hmod.
  pose proof (Z.div_mod m 2 ltac:(lia)) as Hdiv2.
  pose proof (Z.mod_pos_bound m 2 ltac:(lia)) as Hmod2.
  assert (Hq2 : X `div` (2 * c) = m `div` 2).
  { symmetry. apply (Z.div_unique X (2 * c) (m `div` 2) ((m `mod` 2) * c + rho)); nia. }
  assert (Hr2 : X `mod` (2 * c) = (m `mod` 2) * c + rho).
  { symmetry. apply (Z.mod_unique X (2 * c) (m `div` 2) ((m `mod` 2) * c + rho)); nia. }
  rewrite Hq2, Hr2. unfold locz.
  assert (Hbit : m `mod` 2 = 0 ∨ m `mod` 2 = 1) by lia.
  destruct m as [|p|p]; [| |lia].
  - change (0 `div` 2) with 0. change (0 `mod` 2) with 0.
    rewrite Z.mul_0_l, Z.add_0_l. cbn [shr_record_of_loc].
    destruct (rho =? 0) eqn:Hrho; [done|].
    apply Z.eqb_neq in Hrho.
    assert ((2 * rho ?= 2 * c) = Lt) as -> by (apply (proj2 (Z.compare_lt_iff _ _)); lia).
    by destruct (2 * rho ?= c).
  - destruct p as [p|p|].
    + change (Z.pos p~1 `div` 2) with (Z.pos p~1 / 2) in *.
      assert (Hd : Z.pos p~1 `div` 2 = Z.pos p) by (rewrite Pos2Z.inj_xI in *; lia).
      assert (Hm : Z.pos p~1 `mod` 2 = 1) by (rewrite Pos2Z.inj_xI in *; lia).
      rewrite Hd, Hm. replace (1 * c + rho) with (c + rho) by lia.
      assert ((c + rho =? 0) = false) as -> by (apply Z.eqb_neq; lia).
      destruct (rho =? 0) eqn:Hrho.
      * apply Z.eqb_eq in Hrho.
        assert ((2 * (c + rho) ?= 2 * c) = Eq) as -> by (apply (proj2 (Z.compare_eq_iff _ _)); lia).
        done.
      * apply Z.eqb_neq in Hrho.
        assert ((2 * (c + rho) ?= 2 * c) = Gt) as -> by (apply (proj2 (Z.compare_gt_iff _ _)); lia).
        by destruct (2 * rho ?= c).
    + assert (Hd : Z.pos p~0 `div` 2 = Z.pos p) by (rewrite Pos2Z.inj_xO in *; lia).
      assert (Hm : Z.pos p~0 `mod` 2 = 0) by (rewrite Pos2Z.inj_xO in *; lia).
      rewrite Hd, Hm. replace (0 * c + rho) with rho by lia.
      destruct (rho =? 0) eqn:Hrho; [done|].
      apply Z.eqb_neq in Hrho.
      assert ((2 * rho ?= 2 * c) = Lt) as -> by (apply (proj2 (Z.compare_lt_iff _ _)); lia).
      by destruct (2 * rho ?= c).
    + change (1 `div` 2) with 0. change (1 `mod` 2) with 1.
      replace (1 * c + rho) with (c + rho) by lia.
      assert ((c + rho =? 0) = false) as -> by (apply Z.eqb_neq; lia).
      destruct (rho =? 0) eqn:Hrho.
      * apply Z.eqb_eq in Hrho.
        assert ((2 * (c + rho) ?= 2 * c) = Eq) as -> by (apply (proj2 (Z.compare_eq_iff _ _)); lia).
        done.
      * apply Z.eqb_neq in Hrho.
        assert ((2 * (c + rho) ?= 2 * c) = Gt) as -> by (apply (proj2 (Z.compare_gt_iff _ _)); lia).
        by destruct (2 * rho ?= c).
Qed.

Lemma shr_locz X c e n :
  0 < c → 0 ≤ X → 0 ≤ n →
  shr (shr_record_of_loc (X `div` c) (locz (X `mod` c) c)) e n
  = (shr_record_of_loc (X `div` (c * 2 ^ n)) (locz (X `mod` (c * 2 ^ n)) (c * 2 ^ n)),
     e + n).
Proof.
  intros Hc HX Hn. unfold shr. destruct n as [|p|p]; [| |lia].
  - by rewrite Z.pow_0_r, Z.mul_1_r, Z.add_0_r.
  - f_equal. rewrite iter_pos_nat, <- (positive_nat_Z p).
    generalize (Pos.to_nat p) as k. clear p Hn. intros k.
    induction k as [|k IH].
    + simpl. by rewrite Z.mul_1_r.
    + simpl Nat.iter. rewrite IH.
      assert (Hp : 0 < 2 ^ Z.of_nat k) by (apply Z.pow_pos_nonneg; lia).
      rewrite shr_1_locz by nia.
      rewrite Nat2Z.inj_succ, Z.pow_succ_r by lia.
      by replace (2 * (c * 2 ^ Z.of_nat k)) with (c * (2 * 2 ^ Z.of_nat k)) by lia.
Qed.

Lemma Zdigits2_spec z : 0 < z → 2 ^ (Zdigits2 z - 1) ≤ z < 2 ^ Zdigits2 z.
Proof.
  intros Hz. destruct z as [|p|p]; try lia.
  rewrite Zdigits2_log2. replace (Z.log2 (Z.pos p) + 1 - 1) with (Z.log2 (Z.pos p)) by lia.
  replace (Z.log2 (Z.pos p) + 1) with (Z.succ (Z.log2 (Z.pos p))) by lia.
  apply Z.log2_spec. lia.
Qed.

Lemma Zdigits2_unique z k : 0 < z → 2 ^ (k - 1) ≤ z < 2 ^ k → Zdigits2 z = k.
Proof.
  intros Hz Hk. destruct z as [|p|p]; try lia.
  rewrite Zdigits2_log2.
  assert (Hk1 : 1 ≤ k).
  { destruct (Z.le_gt_cases 1 k); [done|]. rewrite (Z.pow_neg_r 2 k) in Hk by lia || (destruct k; lia).
    lia. }
  rewrite (Z.log2_unique (Z.pos p) (k - 1)); [lia|lia|].
  by replace (Z.succ (k - 1)) with k by lia.
Qed.

Lemma Zdigits2_nonneg z : 0 ≤ Zdigits2 z.
Proof. destruct z; simpl; lia. Qed.

Lemma Zdigits2_mono a b : 0 ≤ a ≤ b → Zdigits2 a ≤ Zdigits2 b.
Proof.
  intros Hab. destruct a as [|p|p]; [apply Zdigits2_nonneg| |lia].
  destruct b as [|r|r]; try lia. rewrite !Zdigits2_log2.
  pose proof (Z.log2_le_mono (Z.pos p) (Z.pos r)). lia.
Qed.

Lemma Zdigits2_ge z k : 0 ≤ k → 2 ^ k ≤ z → k + 1 ≤ Zdigits2 z.
Proof.
  intros Hk Hz.
  assert (Hp : 0 < 2 ^ k) by (apply Z.pow_pos_nonneg; lia).
  destruct (Zdigits2_spec z ltac:(lia)) as [_ Hhi].
  destruct (Z.le_gt_cases (k + 1) (Zdigits2 z)); [done|].
  assert (2 ^ Zdigits2 z ≤ 2 ^ k) by (apply Z.pow_le_mono_r; lia). lia.
Qed.

Definition rne_scaled (A c : Z) : Z :=
  round_nearest_even (A `div` c) (locz (A `mod` c) c).

(** The exponent of the grid on which [a / b] is rounded, counted from the
    least one. *)
Definition grid (a b : Z) : Z :=
  Z.max (Zdigits2 ((a * 2 ^ 1074) `div` b) - 53) 0.

Definition finalize (s : bool) (M E : Z) : float64 :=
  let '(mrs, e) := shr_fexp prec64 emax64 M E loc_Exact in
  match shr_m mrs with
  | Z0 => S754_zero s
  | Zpos m => if e <=? emax64 - prec64 then S754_finite s m e else S754_infinity s
  | Zneg _ => S754_nan
  end.

Lemma locz_scale rho c k : 0 < k → locz (rho * k) (c * k) = locz rho c.
Proof.
  intros Hk. unfold locz.
  destruct (rho =? 0) eqn:Hrho.
  - apply Z.eqb_eq in Hrho. subst. done.
  - apply Z.eqb_neq in Hrho.
    assert ((rho * k =? 0) = false) as -> by (apply Z.eqb_neq; nia).
    f_equal. rewrite Z.mul_assoc. symmetry. apply Zmult_compare_compat_r. lia.
Qed.

Lemma rne_scaled_scale A c k :
  0 < c → 0 < k → rne_scaled (A * k) (c * k) = rne_scaled A c.
Proof.
  intros Hc Hk. unfold rne_scaled.
  rewrite Z.div_mul_cancel_r by lia.
  rewrite Z.mul_mod_distr_r by lia.
  by rewrite locz_scale.
Qed.

Lemma round_ratio_nearest (s : bool) (a b : positive) :
  round_ratio s a b
  = finalize s (rne_scaled (Zpos a * 2 ^ 1074) (Zpos b * 2 ^ grid (Zpos a) (Zpos b)))
             (grid (Zpos a) (Zpos b) - 1074).
Proof.
  unfold round_ratio, SFdiv_core_binary.
  set (d1 := Zdigits2 (Zpos a)). set (d2 := Zdigits2 (Zpos b)).
  set (e' := Z.min (fexp prec64 emax64 (d1 + 0 - (d2 + 0))) (0 - 0)).
  assert (He' : -1074 ≤ e' ≤ 0) by (unfold e', fexp, emin, prec64, emax64; lia).
  set (t := e' + 1074).
  assert (Hm' : (match 0 - 0 - e' with
                 | Z0 => Zpos a
                 | Zpos _ => Z.shiftl (Zpos a) (0 - 0 - e')
                 | Zneg _ => 0
                 end) = Zpos a * 2 ^ (- e')).
  { destruct (0 - 0 - e') as [|p|p] eqn:Hs; try lia.
    - replace (- e') with 0 by lia. lia.
    - rewrite Z.shiftl_mul_pow2 by lia. by replace (- e') with (Z.pos p) by lia. }
  rewrite Hm'. set (X := Zpos a * 2 ^ (- e')).
  assert (HX : 0 < X) by (apply Z.mul_pos_pos; [lia|apply Z.pow_pos_nonneg; lia]).
  assert (Hdiv : Z.div_eucl X (Zpos b) = (X `div` Zpos b, X `mod` Zpos b)).
  { unfold Z.div, Z.modulo. by destruct (Z.div_eucl X (Zpos b)). }
  rewrite Hdiv.
  pose proof (Z.mod_pos_bound X (Zpos b) ltac:(lia)) as Hmod.
  rewrite new_location_locz by lia.
  unfold binary_round_aux, finalize.
  set (q := X `div` Zpos b).
  assert (Hq : 0 ≤ q) by (apply Z.div_pos; lia).
  assert (HA : Zpos a * 2 ^ 1074 = X * 2 ^ t).
  { unfold X, t. rewrite <- Z.mul_assoc, <- Z.pow_add_r by lia. f_equal. f_equal. lia. }
  assert (Ht2 : 0 < 2 ^ t) by (apply Z.pow_pos_nonneg; lia).
  (* the quotient has 53 bits at least, unless the grid is the least one *)
  assert (Hbig : 0 < t → 2 ^ 52 ≤ q).
  { intros Ht. apply Z.div_le_lower_bound; [lia|].
    destruct (Zdigits2_spec (Zpos a) ltac:(lia)) as [Ha _].
    destruct (Zdigits2_spec (Zpos b) ltac:(lia)) as [_ Hb].
    fold d1 in Ha. fold d2 in Hb.
    assert (Hd1 : 1 ≤ d1) by (unfold d1; simpl; lia).
    assert (Hd2 : 1 ≤ d2) by (unfold d2; simpl; lia).
    assert (Hs : 53 - d1 + d2 ≤ - e').
    { unfold e', fexp, emin, prec64, emax64 in *. lia. }
    assert (Hpow : 2 ^ (52 + d2) ≤ 2 ^ (d1 - 1) * 2 ^ (- e')).
    { rewrite <- Z.pow_add_r by lia. apply Z.pow_le_mono_r; lia. }
    rewrite Z.pow_add_r in Hpow by lia.
    assert (0 < 2 ^ (- e')) by (apply Z.pow_pos_nonneg; lia).
    unfold X. nia. }
  (* the bit length of the scaled quotient *)
  assert (HK : Zdigits2 ((Zpos a * 2 ^ 1074) `div` Zpos b) = Zdigits2 q + t).
  { rewrite HA. destruct (Z.eq_dec t 0) as [Ht0|Ht0].
    - rewrite Ht0, Z.pow_0_r, Z.mul_1_r. fold q. lia.
    - assert (Hq52 : 2 ^ 52 ≤ q) by (apply Hbig; lia).
      destruct (Zdigits2_spec q ltac:(lia)) as [Hlo Hhi].
      assert (Hdq : 1 ≤ Zdigits2 q) by (apply (Zdigits2_ge q 0); lia).
      pose proof (Z.div_mod X (Zpos b) ltac:(lia)) as HXq. fold q in HXq.
      apply Zdigits2_unique.
      + apply Z.div_str_pos. nia.
      + replace (Zdigits2 q + t - 1) with (Zdigits2 q - 1 + t) by lia.
        rewrite !Z.pow_add_r by lia. split.
        * apply Z.div_le_lower_bound; [lia|].
          assert (Z.pos b * 2 ^ (Zdigits2 q - 1) ≤ X) by nia.
          rewrite Z.mul_assoc. apply Z.mul_le_mono_nonneg_r; lia.
        * apply Z.div_lt_upper_bound; [lia|].
          assert (X < Z.pos b * 2 ^ Zdigits2 q) by nia.
          rewrite Z.mul_assoc. apply Z.mul_lt_mono_pos_r; lia. }
  assert (Hexp : fexp prec64 emax64 (Zdigits2 q + e')
                 = grid (Zpos a) (Zpos b) - 1074).
  { unfold grid. rewrite HK. unfold fexp, emin, prec64, emax64, t. lia. }
  assert (Hn1 : 0 ≤ fexp prec64 emax64 (Zdigits2 q + e') - e').
  { rewrite Hexp. unfold grid. rewrite HK.
    destruct (Z.eq_dec t 0) as [Ht0|Ht0]; [unfold t in *; lia|].
    assert (Hq52 : 2 ^ 52 ≤ q) by (apply Hbig; lia).
    pose proof (Zdigits2_ge q 52 ltac:(lia) Hq52). unfold t in *. lia. }
  unfold shr_fexp at 1. rewrite Hexp in Hn1 |- *. unfold q.
  rewrite shr_locz by lia.
  rewrite shr_m_record, loc_of_record.
  replace (e' + (grid (Zpos a) (Zpos b) - 1074 - e')) with (grid (Zpos a) (Zpos b) - 1074) by lia.
  replace (grid (Zpos a) (Zpos b) - 1074 - e') with (grid (Zpos a) (Zpos b) - t) by (unfold t; lia).
  fold (rne_scaled X (Zpos b * 2 ^ (grid (Zpos a) (Zpos b) - t))).
  rewrite <- (rne_scaled_scale X _ (2 ^ t)); [|nia|lia].
  rewrite <- HA, <- Z.mul_assoc, <- Z.pow_add_r by (unfold t in *; lia).
  replace (grid (Zpos a) (Zpos b) - t + t) with (grid (Zpos a) (Zpos b)) by lia.
  done.
Qed.

Lemma rne_cases m l :
  round_nearest_even m l = m ∨ round_nearest_even m l = m + 1.
Proof. destruct l as [|[]]; simpl; try (by left); try (by right). destruct (Z.even m); auto. Qed.

Lemma div_le_cross A1 b1 A2 b2 :
  0 < b1 → 0 < b2 → 0 ≤ A1 → A1 * b2 ≤ A2 * b1 → A1 `div` b1 ≤ A2 `div` b2.
Proof.
  intros Hb1 Hb2 HA1 Hcross.
  apply Z.div_le_lower_bound; [done|].
  pose proof (Z.mul_div_le A1 b1 Hb1) as Hq.
  assert (Hq0 : 0 ≤ A1 `div` b1) by (apply Z.div_pos; lia).
  nia.
Qed.

Lemma grid_mono a1 b1 a2 b2 :
  0 < a1 → 0 < b1 → 0 < a2 → 0 < b2 →
  a1 * b2 ≤ a2 * b1 → grid a1 b1 ≤ grid a2 b2.
Proof.
  intros Ha1 Hb1 Ha2 Hb2 Hcross. unfold grid.
  assert (Hp : 0 < 2 ^ 1074) by (by apply Z.pow_pos_nonneg).
  pose proof (Zdigits2_mono ((a1 * 2 ^ 1074) `div` b1) ((a2 * 2 ^ 1074) `div` b2)) as Hmono.
  assert (Hdiv : 0 ≤ (a1 * 2 ^ 1074) `div` b1 ≤ (a2 * 2 ^ 1074) `div` b2).
  { split; [apply Z.div_pos; nia|]. apply div_le_cross; nia. }
  specialize (Hmono Hdiv). lia.
Qed.

Lemma rne_scaled_mono A1 c1 A2 c2 :
  0 < c1 → 0 < c2 → 0 ≤ A1 → A1 * c2 ≤ A2 * c1 →
  rne_scaled A1 c1 ≤ rne_scaled A2 c2.
Proof.
  intros Hc1 Hc2 HA1 Hcross.
  pose proof (div_le_cross A1 c1 A2 c2 Hc1 Hc2 HA1 Hcross) as Hq.
  unfold rne_scaled.
  pose proof (Z.div_mod A1 c1 ltac:(lia)) as Hd1.
  pose proof (Z.div_mod A2 c2 ltac:(lia)) as Hd2.
  pose proof (Z.mod_pos_bound A1 c1 Hc1) as Hm1.
  pose proof (Z.mod_pos_bound A2 c2 Hc2) as Hm2.
  destruct (Z.eq_dec (A1 `div` c1) (A2 `div` c2)) as [Heq|Hne].
  - rewrite <- Heq in *.
    generalize dependent (A1 `mod` c1). generalize dependent (A2 `mod` c2).
    generalize dependent (A1 `div` c1). intros m _ _ r2 Hd2 Hm2 r1 Hd1 Hm1.
    assert (Hr : r1 * c2 ≤ r2 * c1) by nia.
    unfold locz.
    destruct (r1 =? 0) eqn:Hr1.
    { simpl. destruct (rne_cases m (if r2 =? 0 then loc_Exact else loc_Inexact (2 * r2 ?= c2))); lia. }
    apply Z.eqb_neq in Hr1.
    assert ((r2 =? 0) = false) as -> by (apply Z.eqb_neq; nia).
    destruct (2 * r1 ?= c1) eqn:Hcmp1; simpl.
    + apply Z.compare_eq in Hcmp1.
      destruct (2 * r2 ?= c2) eqn:Hcmp2; simpl.
      * lia.
      * apply (proj1 (Z.compare_lt_iff _ _)) in Hcmp2. nia.
      * destruct (Z.even m); lia.
    + destruct (2 * r2 ?= c2); simpl; [destruct (Z.even m)| |]; lia.
    + apply (proj1 (Z.compare_gt_iff _ _)) in Hcmp1.
      assert ((2 * r2 ?= c2) = Gt) as -> by (apply (proj2 (Z.compare_gt_iff _ _)); nia).
      simpl. lia.
  - destruct (rne_cases (A1 `div` c1) (locz (A1 `mod` c1) c1)) as [-> | ->],
      (rne_cases (A2 `div` c2) (locz (A2 `mod` c2) c2)) as [-> | ->]; lia.
Qed.

Lemma grid_nonneg a b : 0 ≤ grid a b.
Proof. unfold grid. lia. Qed.

Lemma nearest_bounds a b :
  0 < a → 0 < b →
  0 ≤ rne_scaled (a * 2 ^ 1074) (b * 2 ^ grid a b) ≤ 2 ^ 53
  ∧ (1 ≤ grid a b →
     2 ^ 52 ≤ rne_scaled (a * 2 ^ 1074) (b * 2 ^ grid a b)).
Proof.
  intros Ha Hb.
  pose proof (grid_nonneg a b) as Hj.
  assert (HA : 0 < a * 2 ^ 1074).
  { apply Z.mul_pos_pos; [done|by apply Z.pow_pos_nonneg]. }
  assert (HK : grid a b = Z.max (Zdigits2 ((a * 2 ^ 1074) `div` b) - 53) 0)
    by reflexivity.
  generalize dependent (grid a b). intros j Hj HK.
  generalize dependent (a * 2 ^ 1074). intros A HA HK.
  assert (Hp : 0 < 2 ^ j) by (by apply Z.pow_pos_nonneg).
  assert (HM0 : A `div` (b * 2 ^ j) = (A `div` b) `div` 2 ^ j).
  { by rewrite Z.div_div by lia. }
  assert (Hq : 0 ≤ A `div` b) by (apply Z.div_pos; lia).
  assert (Hhi : A `div` b < 2 ^ (j + 53)).
  { destruct (Z.eq_dec (A `div` b) 0) as [->|Hne]; [apply Z.pow_pos_nonneg; lia|].
    destruct (Zdigits2_spec (A `div` b) ltac:(lia)) as [_ Hlt].
    eapply Z.lt_le_trans; [exact Hlt|]. apply Z.pow_le_mono_r; lia. }
  assert (Hlo : 1 ≤ j → 2 ^ (j + 52) ≤ A `div` b).
  { intros Hj1.
    assert (HK' : Zdigits2 (A `div` b) = j + 53) by lia.
    destruct (Z.eq_dec (A `div` b) 0) as [Hz|Hne]; [rewrite Hz in HK'; simpl in HK'; lia|].
    destruct (Zdigits2_spec (A `div` b) ltac:(lia)) as [Hge _].
    rewrite HK' in Hge. by replace (j + 53 - 1) with (j + 52) in Hge by lia. }
  assert (HM0hi : A `div` (b * 2 ^ j) < 2 ^ 53).
  { rewrite HM0. apply Z.div_lt_upper_bound; [done|].
    by rewrite <- Z.pow_add_r by lia. }
  assert (HM0lo : 0 ≤ A `div` (b * 2 ^ j)).
  { apply Z.div_pos; nia. }
  assert (HM0lo' : 1 ≤ j → 2 ^ 52 ≤ A `div` (b * 2 ^ j)).
  { intros Hj1. rewrite HM0.
    apply Z.div_le_lower_bound; [done|]. rewrite <- Z.pow_add_r by lia. by apply Hlo. }
  unfold rne_scaled.
  destruct (rne_cases (A `div` (b * 2 ^ j)) (locz (A `mod` (b * 2 ^ j)) (b * 2 ^ j)))
    as [-> | ->].
  - split; [lia|]. exact HM0lo'.
  - split; [lia|]. intros Hj1. specialize (HM0lo' Hj1). lia.
Qed.

Lemma finalize_finite s M E m e :
  -1074 ≤ E → 0 ≤ M ≤ 2 ^ 53 → e ≤ emax64 - prec64 →
  finalize s M E = S754_finite s m e
  ↔ (M = Zpos m ∧ E = e ∧ M < 2 ^ 53) ∨ (M = 2 ^ 53 ∧ Zpos m = 2 ^ 52 ∧ e = E + 1).
Proof.
  intros HE HM He. unfold finalize, shr_fexp.
  destruct (Z.eq_dec M (2 ^ 53)) as [->|Hne].
  - change (Zdigits2 (2 ^ 53)) with 54.
    replace (fexp prec64 emax64 (54 + E) - E) with 1
      by (unfold fexp, emin, prec64, emax64; lia).
    change (shr_record_of_loc (2 ^ 53) loc_Exact)
      with (Build_shr_record (2 ^ 52 * 2 ^ 1) false false).
    rewrite shr_exact by lia. cbn [shr_m].
    change (2 ^ 52) with (Zpos 4503599627370496). cbv iota.
    destruct (E + 1 <=? emax64 - prec64) eqn:Hle.
    + split.
      * intros [= <- <-]. right. by repeat split.
      * intros [(Habs & _ & Hlt)|(_ & [= <-] & ->)]; [lia|done].
    + apply Z.leb_gt in Hle. split.
      * intros Habs. discriminate Habs.
      * intros [(_ & _ & Hlt)|(_ & _ & Hexp)]; lia.
  - destruct M as [|p|p]; [| |lia].
    + assert (Hn : fexp prec64 emax64 (Zdigits2 0 + E) - E ≤ 0)
        by (unfold fexp, emin, prec64, emax64; simpl Zdigits2; lia).
      unfold shr. destruct (fexp prec64 emax64 (Zdigits2 0 + E) - E) as [|n|n];
        [| lia |]; cbn [shr_record_of_loc shr_m].
      all: split; [intros Habs; discriminate Habs|].
      all: intros [(Habs & _)|(Habs & _)]; lia.
    + assert (Hd : Zdigits2 (Zpos p) ≤ 53).
      { destruct (Z.le_gt_cases (Zdigits2 (Zpos p)) 53); [done|].
        destruct (Zdigits2_spec (Zpos p) ltac:(lia)) as [Hlo _].
        assert (2 ^ 53 ≤ 2 ^ (Zdigits2 (Z.pos p) - 1)) by (apply Z.pow_le_mono_r; lia).
        lia. }
      assert (Hn : fexp prec64 emax64 (Zdigits2 (Zpos p) + E) - E ≤ 0)
        by (unfold fexp, emin, prec64, emax64; lia).
      unfold shr. destruct (fexp prec64 emax64 (Zdigits2 (Zpos p) + E) - E) as [|n|n];
        [| lia |]; cbn [shr_record_of_loc shr_m].
      all: destruct (E <=? emax64 - prec64) eqn:Hle;
        [apply Z.leb_le in Hle|apply Z.leb_gt in Hle].
      all: split;
        [ try done; intros [= <- <-]; left; repeat split; lia
        | intros [([= <-] & <- & _)|(Habs & _)]; [done || lia|lia] ].
Qed.

Lemma cross_scale a1 b1 a2 b2 P Q :
  0 < P → 0 < Q → a1 * b2 ≤ a2 * b1 →
  a1 * P * (b2 * Q) ≤ a2 * P * (b1 * Q).
Proof.
  intros HP HQ Hcross.
  replace (a1 * P * (b2 * Q)) with (a1 * b2 * (P * Q)) by ring.
  replace (a2 * P * (b1 * Q)) with (a2 * b1 * (P * Q)) by ring.
  apply Z.mul_le_mono_nonneg_r; [|done].
  apply Z.lt_le_incl. by apply Z.mul_pos_pos.
Qed.

(** On one grid the rounded mantissa grows with the ratio. *)
Lemma nearest_mono a1 b1 a2 b2 j :
  0 < a1 → 0 < b1 → 0 < a2 → 0 < b2 → 0 ≤ j →
  a1 * b2 ≤ a2 * b1 →
  rne_scaled (a1 * 2 ^ 1074) (b1 * 2 ^ j) ≤ rne_scaled (a2 * 2 ^ 1074) (b2 * 2 ^ j).
Proof.
  intros Ha1 Hb1 Ha2 Hb2 Hj Hcross.
  assert (HP : 0 < 2 ^ 1074) by (by apply Z.pow_pos_nonneg).
  assert (HQ : 0 < 2 ^ j) by (by apply Z.pow_pos_nonneg).
  apply rne_scaled_mono.
  - by apply Z.mul_pos_pos.
  - by apply Z.mul_pos_pos.
  - apply Z.lt_le_incl. by apply Z.mul_pos_pos.
  - by apply cross_scale.
Qed.

(** The ratios that round to one float64 value lie side by side. *)
Lemma round_ratio_convex (a1 b1 a2 b2 a3 b3 m : positive) (e : Z) :
  bounded prec64 emax64 m e = true →
  Zpos a1 * Zpos b2 ≤ Zpos a2 * Zpos b1 →
  Zpos a2 * Zpos b3 ≤ Zpos a3 * Zpos b2 →
  round_ratio false a1 b1 = S754_finite false m e →
  round_ratio false a3 b3 = S754_finite false m e →
  round_ratio false a2 b2 = S754_finite false m e.
Proof.
  intros Hbounded H12 H23 R1 R3.
  destruct (bounded_spec _ _ Hbounded) as [_ He].
  rewrite round_ratio_nearest in R1, R3 |- *.
  pose proof (nearest_bounds (Zpos a1) (Zpos b1) ltac:(lia) ltac:(lia)) as [B1 L1].
  pose proof (nearest_bounds (Zpos a2) (Zpos b2) ltac:(lia) ltac:(lia)) as [B2 L2].
  pose proof (nearest_bounds (Zpos a3) (Zpos b3) ltac:(lia) ltac:(lia)) as [B3 L3].
  pose proof (grid_nonneg (Zpos a1) (Zpos b1)) as G1.
  pose proof (grid_nonneg (Zpos a2) (Zpos b2)) as G2.
  pose proof (grid_nonneg (Zpos a3) (Zpos b3)) as G3.
  pose proof (grid_mono (Zpos a1) (Zpos b1) (Zpos a2) (Zpos b2)
                ltac:(lia) ltac:(lia) ltac:(lia) ltac:(lia) H12) as G12.
  pose proof (grid_mono (Zpos a2) (Zpos b2) (Zpos a3) (Zpos b3)
                ltac:(lia) ltac:(lia) ltac:(lia) ltac:(lia) H23) as G23.
  assert (M12 : grid (Zpos a1) (Zpos b1) = grid (Zpos a2) (Zpos b2) →
                rne_scaled (Zpos a1 * 2 ^ 1074) (Zpos b1 * 2 ^ grid (Zpos a1) (Zpos b1))
                ≤ rne_scaled (Zpos a2 * 2 ^ 1074) (Zpos b2 * 2 ^ grid (Zpos a2) (Zpos b2))).
  { intros ->. apply nearest_mono; lia. }
  assert (M23 : grid (Zpos a2) (Zpos b2) = grid (Zpos a3) (Zpos b3) →
                rne_scaled (Zpos a2 * 2 ^ 1074) (Zpos b2 * 2 ^ grid (Zpos a2) (Zpos b2))
                ≤ rne_scaled (Zpos a3 * 2 ^ 1074) (Zpos b3 * 2 ^ grid (Zpos a3) (Zpos b3))).
  { intros ->. apply nearest_mono; lia. }
  apply finalize_finite in R1; [|lia|done|done].
  apply finalize_finite in R3; [|lia|done|done].
  apply finalize_finite; [lia|done|done|].
  generalize dependent (rne_scaled (Zpos a1 * 2 ^ 1074) (Zpos b1 * 2 ^ grid (Zpos a1) (Zpos b1))).
  generalize dependent (rne_scaled (Zpos a2 * 2 ^ 1074) (Zpos b2 * 2 ^ grid (Zpos a2) (Zpos b2))).
  generalize dependent (rne_scaled (Zpos a3 * 2 ^ 1074) (Zpos b3 * 2 ^ grid (Zpos a3) (Zpos b3))).
  generalize dependent (grid (Zpos a1) (Zpos b1)).
  generalize dependent (grid (Zpos a2) (Zpos b2)).
  generalize dependent (grid (Zpos a3) (Zpos b3)).
  intros j3 G3 j2 G2 G23 j1 G1 G12 M3 B3 L3 R3 M2 B2 L2 M23 M1 B1 L1 M12 R1.
  clear Hbounded H12 H23.
  lia.
Qed.

(** *** Decimals side by side *)

(** The ratio that [round_decimal] rounds stands for [D * 10 ^ p]. *)
Lemma decimal_ratio D p T :
  0 < D → D `mod` 10 ≠ 0 → T ≤ p → T ≤ 0 →
  D * 10 ^ Z.max p 0 * 10 ^ (- T) = 10 ^ Z.max (- p) 0 * (D * 10 ^ (p - T)).
Proof.
  intros HD _ HT HT0.
  destruct (Z.le_gt_cases 0 p) as [Hp|Hp].
  - rewrite Z.max_l, Z.max_r by lia. rewrite Z.pow_0_r, Z.mul_1_l.
    rewrite <- Z.mul_assoc, <- Z.pow_add_r by lia.
    by replace (p + - T) with (p - T) by lia.
  - rewrite Z.max_r, Z.max_l by lia. rewrite Z.pow_0_r, Z.mul_1_r.
    replace (- T) with (- p + (p - T)) at 1 by lia.
    rewrite Z.pow_add_r by lia. ring.
Qed.

Lemma round_decimal_convex D1 p1 D2 p2 D3 p3 T m e :
  0 < D1 → 0 < D2 → 0 < D3 →
  T ≤ p1 → T ≤ p2 → T ≤ p3 → T ≤ 0 →
  bounded prec64 emax64 m e = true →
  D1 * 10 ^ (p1 - T) ≤ D2 * 10 ^ (p2 - T) →
  D2 * 10 ^ (p2 - T) ≤ D3 * 10 ^ (p3 - T) →
  round_decimal false D1 p1 = S754_finite false m e →
  round_decimal false D3 p3 = S754_finite false m e →
  round_decimal false D2 p2 = S754_finite false m e.
Proof.
  intros HD1 HD2 HD3 HT1 HT2 HT3 HT0 Hbounded H12 H23.
  unfold round_decimal.
  destruct (normalize_spec D1 p1 HD1) as (E1 & k1 & -> & HE1 & Hm1 & Hk1 & ->).
  destruct (normalize_spec D2 p2 HD2) as (E2 & k2 & -> & HE2 & Hm2 & Hk2 & ->).
  destruct (normalize_spec D3 p3 HD3) as (E3 & k3 & -> & HE3 & Hm3 & Hk3 & ->).
  assert (Hval : ∀ E k p, 0 ≤ k → T ≤ p →
            E * 10 ^ k * 10 ^ (p - T) = E * 10 ^ (p + k - T)).
  { intros E k p Hk Hp. rewrite <- Z.mul_assoc, <- Z.pow_add_r by lia.
    f_equal. f_equal. lia. }
  rewrite (Hval E1 k1 p1), (Hval E2 k2 p2) in H12 by done.
  rewrite (Hval E2 k2 p2), (Hval E3 k3 p3) in H23 by done.
  assert (HT1' : T ≤ p1 + k1) by (clear -HT1 Hk1; lia).
  pose proof (decimal_ratio E1 (p1 + k1) T HE1 Hm1 HT1' HT0) as R1.
  assert (HT2' : T ≤ p2 + k2) by (clear -HT2 Hk2; lia).
  pose proof (decimal_ratio E2 (p2 + k2) T HE2 Hm2 HT2' HT0) as R2.
  assert (HT3' : T ≤ p3 + k3) by (clear -HT3 Hk3; lia).
  pose proof (decimal_ratio E3 (p3 + k3) T HE3 Hm3 HT3' HT0) as R3.
  assert (HW : 0 < 10 ^ (- T)) by (apply Z.pow_pos_nonneg; clear -HT0; lia).
  assert (Hpos : ∀ E p, 0 < E →
            0 < E * 10 ^ Z.max p 0 ∧ 0 < 10 ^ Z.max (- p) 0).
  { intros E p HE. split; [apply Z.mul_pos_pos; [done|]|];
      (apply Z.pow_pos_nonneg; [done|apply Z.le_max_r]). }
  destruct (Hpos E1 (p1 + k1) HE1) as [N1 Q1].
  destruct (Hpos E2 (p2 + k2) HE2) as [N2 Q2].
  destruct (Hpos E3 (p3 + k3) HE3) as [N3 Q3].
  generalize dependent (E1 * 10 ^ Z.max (p1 + k1) 0).
  generalize dependent (10 ^ Z.max (- (p1 + k1)) 0).
  generalize dependent (E2 * 10 ^ Z.max (p2 + k2) 0).
  generalize dependent (10 ^ Z.max (- (p2 + k2)) 0).
  generalize dependent (E3 * 10 ^ Z.max (p3 + k3) 0).
  generalize dependent (10 ^ Z.max (- (p3 + k3)) 0).
  generalize dependent (E1 * 10 ^ (p1 + k1 - T)).
  generalize dependent (E2 * 10 ^ (p2 + k2 - T)).
  generalize dependent (E3 * 10 ^ (p3 + k3 - T)).
  generalize dependent (10 ^ (- T)).
  intros W HW V3 V2 H23 V1 H12 den3 Q3 num3 R3 N3 den2 Q2 num2 R2 N2 den1 Q1 num1 R1 N1.
  apply round_ratio_convex; [done|rewrite !Z2Pos.id by done..].
  - apply (Z.mul_le_mono_pos_r _ _ W HW).
    replace (num1 * den2 * W) with (num1 * W * den2) by ring.
    replace (num2 * den1 * W) with (num2 * W * den1) by ring.
    rewrite R1, R2.
    replace (den1 * V1 * den2) with (V1 * (den1 * den2)) by ring.
    replace (den2 * V2 * den1) with (V2 * (den1 * den2)) by ring.
    apply Z.mul_le_mono_nonneg_r; [|done].
    apply Z.lt_le_incl. by apply Z.mul_pos_pos.
  - apply (Z.mul_le_mono_pos_r _ _ W HW).
    replace (num2 * den3 * W) with (num2 * W * den3) by ring.
    replace (num3 * den2 * W) with (num3 * W * den2) by ring.
    rewrite R2, R3.
    replace (den2 * V2 * den3) with (V2 * (den2 * den3)) by ring.
    replace (den3 * V3 * den2) with (V3 * (den2 * den3)) by ring.
    apply Z.mul_le_mono_nonneg_r; [|done].
    apply Z.lt_le_incl. by apply Z.mul_pos_pos.
Qed.

(** *** No shorter decimal reads back *)

(** A decimal of [n] digits lies on the near side of the two [n]-digit
    neighbours of [N * 10 ^ w]. *)
Lemma between_neighbours D N u w k n :
  0 < D → 0 < N → 0 ≤ u → 0 ≤ w → 1 ≤ k → 1 ≤ n →
  D < 10 ^ n → 10 ^ (n - 1 + k) ≤ N →
  (D * 10 ^ u ≤ N * 10 ^ w → D * 10 ^ u ≤ N `div` 10 ^ k * 10 ^ (w + k))
  ∧ (N * 10 ^ w < D * 10 ^ u → (N `div` 10 ^ k + 1) * 10 ^ (w + k) ≤ D * 10 ^ u).
Proof.
  intros HD HN Hu Hw Hk Hn HDn HNlo.
  assert (HK : 0 < 10 ^ k) by (apply Z.pow_pos_nonneg; lia).
  assert (HW : 0 < 10 ^ w) by (apply Z.pow_pos_nonneg; lia).
  assert (HU : 0 < 10 ^ u) by (apply Z.pow_pos_nonneg; lia).
  rewrite (Z.pow_add_r 10 w k) by lia.
  pose proof (Z.mul_div_le N (10 ^ k) HK) as Hlo1.
  pose proof (Z.mul_succ_div_gt N (10 ^ k) HK) as Hlo2.
  assert (Hlo3 : 10 ^ (n - 1) ≤ N `div` 10 ^ k).
  { apply Z.div_le_lower_bound; [done|].
    rewrite <- Z.pow_add_r by lia.
    by replace (k + (n - 1)) with (n - 1 + k) by lia. }
  assert (HP : 0 < 10 ^ (n - 1)) by (apply Z.pow_pos_nonneg; lia).
  revert Hlo1 Hlo2 Hlo3. generalize (N `div` 10 ^ k). intros lo Hlo1 Hlo2 Hlo3.
  destruct (Z.le_gt_cases (w + k) u) as [Hcase|Hcase].
  - (* the decimal is a multiple of the neighbours' unit *)
    assert (Hsplit : 10 ^ u = 10 ^ (u - (w + k)) * (10 ^ w * 10 ^ k)).
    { rewrite <- !Z.pow_add_r by lia. f_equal. lia. }
    assert (HE : 0 < 10 ^ (u - (w + k))) by (apply Z.pow_pos_nonneg; lia).
    rewrite Hsplit.
    generalize dependent (10 ^ (u - (w + k))). intros E _ HE.
    generalize dependent (10 ^ w). intros W HW.
    generalize dependent (10 ^ k). intros K HK Hlo1 Hlo2.
    clear HDn HNlo Hcase HU.
    split; intros Hle.
    + assert (HDE : D * E * K ≤ N).
      { apply (Z.mul_le_mono_pos_r _ _ W HW).
        replace (D * E * K * W) with (D * (E * (W * K))) by ring. exact Hle. }
      assert (HDlo : D * E ≤ lo).
      { apply Z.lt_succ_r.
        apply (Z.mul_lt_mono_pos_l K _ _ HK).
        replace (K * (D * E)) with (D * E * K) by ring.
        eapply Z.le_lt_trans; [exact HDE|]. exact Hlo2. }
      replace (D * (E * (W * K))) with (D * E * (W * K)) by ring.
      apply Z.mul_le_mono_nonneg_r; [|done].
      apply Z.lt_le_incl. by apply Z.mul_pos_pos.
    + assert (HDE : N < D * E * K).
      { apply (Z.mul_lt_mono_pos_r W _ _ HW).
        replace (D * E * K * W) with (D * (E * (W * K))) by ring. exact Hle. }
      assert (HDlo : lo + 1 ≤ D * E).
      { apply Z.le_succ_l.
        apply (Z.mul_lt_mono_pos_l K _ _ HK).
        eapply Z.le_lt_trans; [exact Hlo1|].
        by replace (K * (D * E)) with (D * E * K) by ring. }
      replace (D * (E * (W * K))) with (D * E * (W * K)) by ring.
      apply Z.mul_le_mono_nonneg_r; [|done].
      apply Z.lt_le_incl. by apply Z.mul_pos_pos.
  - (* the decimal is finer than the neighbours' unit, and too short *)
    assert (Hshort : D * 10 ^ u < 10 ^ (n - 1) * (10 ^ w * 10 ^ k)).
    { apply Z.lt_le_trans with (10 ^ n * 10 ^ u).
      - by apply Z.mul_lt_mono_pos_r.
      - rewrite <- !Z.pow_add_r by lia. apply Z.pow_le_mono_r; lia. }
    assert (Hbelow : 10 ^ (n - 1) * (10 ^ w * 10 ^ k) ≤ lo * (10 ^ w * 10 ^ k)).
    { apply Z.mul_le_mono_nonneg_r; [|done].
      apply Z.lt_le_incl. by apply Z.mul_pos_pos. }
    assert (Hexact : lo * (10 ^ w * 10 ^ k) ≤ N * 10 ^ w).
    { replace (lo * (10 ^ w * 10 ^ k)) with (10 ^ k * lo * 10 ^ w) by ring.
      apply Z.mul_le_mono_nonneg_r; [by apply Z.lt_le_incl|done]. }
    split.
    + intros _. eapply Z.le_trans; [apply Z.lt_le_incl, Hshort|exact Hbelow].
    + intros Hlt. exfalso. apply (Z.lt_irrefl (N * 10 ^ w)).
      eapply Z.lt_le_trans; [exact Hlt|].
      eapply Z.le_trans; [apply Z.lt_le_incl, Hshort|].
      eapply Z.le_trans; [exact Hbelow|exact Hexact].
Qed.

(** No decimal that reads back as the value has fewer digits than the one
    that [shortest] gives. *)
Theorem shortest_is_shortest m e D' p' :
  bounded prec64 emax64 m e = true →
  0 < D' → round_decimal false D' p' = S754_finite false m e →
  ndigits (shortest m e).1 ≤ ndigits D'.
Proof.
  intros Hbounded HD' Hread.
  destruct (Z.le_gt_cases (ndigits (shortest m e).1) (ndigits D')) as [|Hgt];
    [done|exfalso].
  pose proof (shortest_minimal_among_neighbours m e Hbounded) as Hmin.
  cbv zeta in Hmin. destruct Hmin as [HleN Hrej].
  pose proof (round_decimal_exact false m e Hbounded) as Hexact.
  pose proof (exact_decimal_pos m e) as HN.
  destruct (exact_decimal m e) as [N q]. cbn [fst snd] in *.
  destruct (ndigits_spec N HN) as (Hnd & HNlo & HNhi).
  destruct (ndigits_spec D' HD') as (Hn' & _ & HDhi).
  destruct (Hrej (ndigits D') ltac:(lia)) as [Hlo Hhi].
  set (n := ndigits D') in *. set (nd := ndigits N) in *.
  set (k := nd - n) in *.
  assert (Hk : 1 ≤ k) by (unfold k; lia).
  assert (HK : 0 < 10 ^ k) by (apply Z.pow_pos_nonneg; lia).
  pose proof (Z.mul_div_le N (10 ^ k) HK) as Hlo1.
  pose proof (Z.mul_succ_div_gt N (10 ^ k) HK) as Hlo2.
  assert (HNk : 10 ^ (n - 1 + k) ≤ N).
  { by replace (n - 1 + k) with (nd - 1) by (unfold k; lia). }
  assert (Hlo3 : 0 < N `div` 10 ^ k).
  { apply Z.lt_le_trans with (10 ^ (n - 1)); [apply Z.pow_pos_nonneg; lia|].
    apply Z.div_le_lower_bound; [done|].
    rewrite <- Z.pow_add_r by lia.
    by replace (k + (n - 1)) with (n - 1 + k) by lia. }
  assert (Hnotlo : round_decimal false (N `div` 10 ^ k) (q + k) ≠ S754_finite false m e).
  { intros Heq.
    rewrite (proj2 (reads_back_spec _ _ _) (conj Hlo3 Heq)) in Hlo. discriminate Hlo. }
  assert (Hnothi : round_decimal false (N `div` 10 ^ k + 1) (q + k)
                   ≠ S754_finite false m e).
  { intros Heq.
    assert (Hpos : 0 < N `div` 10 ^ k + 1) by (clear -Hlo3; lia).
    rewrite (proj2 (reads_back_spec _ _ _) (conj Hpos Heq)) in Hhi.
    discriminate Hhi. }
  set (T := Z.min (Z.min p' q) 0).
  assert (HT : T ≤ p' ∧ T ≤ q ∧ T ≤ 0) by (unfold T; lia).
  destruct HT as (HTp & HTq & HT0).
  destruct (between_neighbours D' N (p' - T) (q - T) k n
              HD' HN ltac:(lia) ltac:(lia) Hk Hn' HDhi HNk) as [Hbelow Habove].
  assert (HW : 0 < 10 ^ (q - T)) by (apply Z.pow_pos_nonneg; lia).
  replace (q - T + k) with (q + k - T) in Hbelow, Habove by lia.
  assert (Hlo4 : N `div` 10 ^ k * 10 ^ (q + k - T) ≤ N * 10 ^ (q - T)).
  { replace (q + k - T) with (k + (q - T)) by lia.
    rewrite Z.pow_add_r, Z.mul_assoc by lia.
    apply Z.mul_le_mono_nonneg_r; [by apply Z.lt_le_incl|].
    by rewrite Z.mul_comm. }
  assert (Hhi4 : N * 10 ^ (q - T) ≤ (N `div` 10 ^ k + 1) * 10 ^ (q + k - T)).
  { replace (q + k - T) with (k + (q - T)) by lia.
    rewrite Z.pow_add_r, Z.mul_assoc by lia.
    apply Z.mul_le_mono_nonneg_r; [by apply Z.lt_le_incl|].
    apply Z.lt_le_incl. by rewrite (Z.mul_comm _ (10 ^ k)). }
  destruct (Z.le_gt_cases (D' * 10 ^ (p' - T)) (N * 10 ^ (q - T))) as [Hcase|Hcase].
  - apply Hnotlo.
    apply (round_decimal_convex D' p' _ (q + k) N q T m e);
      try done; [lia|by apply Hbelow].
  - apply Hnothi.
    apply (round_decimal_convex N q _ (q + k) D' p' T m e);
      try done; [lia|lia|by apply Habove].
Qed.

Lemma round_decimal_unsigned s D p m e :
  round_decimal s D p = S754_finite s m e →
  round_decimal false D p = S754_finite false m e.
Proof.
  rewrite (round_decimal_sign s), (round_decimal_sign false).
  destruct (round_decimal false D p); simpl; intros [=]; by subst.
Qed.

Lemma Sprintf_g_finite neg m e :
  fmt.Sprintf_g (S754_finite neg m e)
  = string_of_list_ascii
      (formatDigits neg (decimal_digits (shortest m e).1)
         (Z.of_nat (length (decimal_digits (shortest m e).1)) + (shortest m e).2)).
Proof.
  unfold fmt.Sprintf_g, FormatFloat_g. by destruct (shortest m e).
Qed.

(** C8.  The [le] label of a bucket point is the upper bound and the
    [quantile] label of a quantile point is the quantile, rendered by
    [fmt.Sprintf("%g", _)].  For every float64 value the rendering read
    back by [strconv.ParseFloat] is the value itself, and it never ends in
    [.0].  For a finite value the rendering lays out the digits of a decimal
    that reads back as the value, whose last digit is not 0, and no decimal
    that reads back as the value has fewer digits: the representation is a
    shortest one that round-trips.  0.5 renders as ["0.5"] and 200 as
    ["200"]. *)
Theorem label_rendering_round_trips :
  (∀ f : float64,
     valid_binary prec64 emax64 f = true →
     ParseFloat (fmt.Sprintf_g f) = Some f
     ∧ ∀ prefix, fmt.Sprintf_g f ≠ prefix +:+ ".0")
  ∧ (∀ (neg : bool) (m : positive) (e : Z),
       bounded prec64 emax64 m e = true →
       let D := (shortest m e).1 in
       let p := (shortest m e).2 in
       let digits := decimal_digits D in
       fmt.Sprintf_g (S754_finite neg m e)
       = string_of_list_ascii
           (formatDigits neg digits (Z.of_nat (length digits) + p))
       ∧ 0 < D ∧ D `mod` 10 ≠ 0
       ∧ round_decimal neg D p = S754_finite neg m e
       ∧ ∀ D' p',
           0 < D' → round_decimal neg D' p' = S754_finite neg m e →
           (length digits ≤ length (decimal_digits D'))%nat)
  ∧ fmt.Sprintf_g (S754_finite false 4503599627370496 (-53)) = "0.5"
  ∧ fmt.Sprintf_g (float64_of_Z 200) = "200"
  ∧ (∀ metricName metric histogram i bucket,
       GetCounter metric = None → GetGauge metric = None →
       GetHistogram metric = Some histogram →
       Histogram_GetBucket histogram !! i = Some bucket →
       ∃ pt rendered,
         Decomposed.convertMetric metricName [] metric !! (2 + i)%nat = Some pt
         ∧ Labels pt
           = sourceLabels metric
             ++ [ {| Name := "le"; Value := rendered |};
                  {| Name := "__name__"; Value := metricName +:+ "_bucket" |} ]
         ∧ rendered = fmt.Sprintf_g (Bucket_GetUpperBound bucket)
         ∧ (valid_binary prec64 emax64 (Bucket_GetUpperBound bucket) = true →
            ParseFloat rendered = Some (Bucket_GetUpperBound bucket)))
  ∧ (∀ metricName metric summary i quantile,
       GetCounter metric = None → GetGauge metric = None →
       GetHistogram metric = None → GetSummary metric = Some summary →
       Summary_GetQuantile summary !! i = Some quantile →
       ∃ pt rendered,
         Decomposed.convertMetric metricName [] metric !! (2 + i)%nat = Some pt
         ∧ Labels pt
           = sourceLabels metric
             ++ [ {| Name := "quantile"; Value := rendered |};
                  {| Name := "__name__"; Value := metricName |} ]
         ∧ rendered = fmt.Sprintf_g (Quantile_GetQuantile quantile)
         ∧ (valid_binary prec64 emax64 (Quantile_GetQuantile quantile) = true →
            ParseFloat rendered = Some (Quantile_GetQuantile quantile))).
Proof.
  split; [|split; [|split; [|split; [|split]]]].
  - intros f Hvalid. split.
    + by apply ParseFloat_FormatFloat_g.
    + intros prefix. by apply Sprintf_g_no_point_zero.
  - intros neg m e Hbounded D p digits. unfold digits, D, p.
    split; [apply Sprintf_g_finite|].
    destruct (shortest_spec m e Hbounded) as (D0 & p0 & Hshortest & HD & Hmod & Hround).
    rewrite Hshortest. cbn [fst snd].
    split; [done|]. split; [done|]. split.
    { rewrite round_decimal_sign, Hround. done. }
    intros D' p' HD' Hread.
    apply round_decimal_unsigned in Hread.
    pose proof (shortest_is_shortest m e D' p' Hbounded HD' Hread) as Hmin.
    rewrite Hshortest in Hmin. cbn [fst] in Hmin. unfold ndigits in Hmin. lia.
  - vm_compute. reflexivity.
  - vm_compute. reflexivity.
  - intros metricName metric histogram i bucket Hc Hg Hh Hbucket.
    exists (bucketPoint metricName metric bucket),
      (fmt.Sprintf_g (Bucket_GetUpperBound bucket)).
    split.
    { fold (metricPoints metricName metric).
      rewrite (histogram_points _ _ _ Hc Hg Hh). simpl.
      by rewrite list_lookup_fmap, Hbucket. }
    split; [reflexivity|]. split; [reflexivity|].
    apply ParseFloat_FormatFloat_g.
  - intros metricName metric summary i quantile Hc Hg Hh Hs Hquantile.
    exists (quantilePoint metricName metric quantile),
      (fmt.Sprintf_g (Quantile_GetQuantile quantile)).
    split.
    { fold (metricPoints metricName metric).
      rewrite (summary_points _ _ _ Hc Hg Hh Hs). simpl.
      by rewrite list_lookup_fmap, Hquantile. }
    split; [reflexivity|]. split; [reflexivity|].
    apply ParseFloat_FormatFloat_g.
Qed.

Lemma label_rendering_round_trips_witness :
  ParseFloat "0.5" = Some (S754_finite false 4503599627370496 (-53))
  ∧ (length (decimal_digits 5) ≤ length (decimal_digits 50000000000000000))%nat
  ∧ (∃ pt rendered,
       Decomposed.convertMetric "latency_ms" [] latency_metric !! 2%nat = Some pt
       ∧ Labels pt
         = [ {| Name := "le"; Value := rendered |};
             {| Name := "__name__"; Value := "latency_ms_bucket" |} ]
       ∧ rendered = "500"
       ∧ ParseFloat rendered = Some (float64_of_Z 500))
  ∧ (∃ pt rendered,
       Decomposed.convertMetric "rpc_seconds" [] rpc_metric !! 2%nat = Some pt
       ∧ Labels pt
         = [ {| Name := "service"; Value := "api" |};
             {| Name := "quantile"; Value := rendered |};
             {| Name := "__name__"; Value := "rpc_seconds" |} ]
       ∧ rendered = "0.5"
       ∧ ParseFloat rendered = Some (S754_finite false 4503599627370496 (-53))).
Proof.
  split; [|split; [|split]].
  - pose proof (proj1 (proj1 label_rendering_round_trips
                         (S754_finite false 4503599627370496 (-53)) eq_refl))
      as Hread.
    rewrite (proj1 (proj2 (proj2 label_rendering_round_trips))) in Hread.
    exact Hread.
  - destruct (proj1 (proj2 label_rendering_round_trips)
                false 4503599627370496%positive (-53) eq_refl)
      as (_ & _ & _ & _ & Hmin).
    apply (Hmin 50000000000000000 (-17)); [done|].
    vm_compute. reflexivity.
  - destruct (proj1 (proj2 (proj2 (proj2 (proj2 label_rendering_round_trips))))
                "latency_ms" latency_metric latency_histogram 0%nat
                {| Bucket_CumulativeCount := Some 1%N;
                   Bucket_UpperBound := Some (float64_of_Z 500) |}
                eq_refl eq_refl eq_refl eq_refl)
      as (pt & rendered & Hpt & Hlabels & Hrendered & Hread).
    exists pt, rendered.
    split; [exact Hpt|]. split; [exact Hlabels|].
    split; [rewrite Hrendered; vm_compute; reflexivity|].
    exact (Hread eq_refl).
  - destruct (proj2 (proj2 (proj2 (proj2 (proj2 label_rendering_round_trips))))
                "rpc_seconds" rpc_metric rpc_summary 0%nat
                {| Quantile_Quantile :=
                     Some (S754_finite false 4503599627370496 (-53));
                   Quantile_Value := Some (float64_of_Z 1000) |}
                eq_refl eq_refl eq_refl eq_refl eq_refl)
      as (pt & rendered & Hpt & Hlabels & Hrendered & Hread).
    exists pt, rendered.
    split; [exact Hpt|]. split; [exact Hlabels|].
    split; [rewrite Hrendered; vm_compute; reflexivity|].
    exact (Hread eq_refl).
Defined.

End shortest_rendering.

(** * Further properties of the two files *)

(** ** The map of a snapshot, entry by entry *)

Section result_entries.
Context {F V : Type} (key : F → string) (val : F → V).

(** The entry of a name is that of the last element that carries it. *)
Lemma store_all_lookup (l : list F) (k : string) :
  store_all key val ∅ l !! k = val <$> last (filter (λ x, key x = k) l).
Proof.
  unfold store_all.
  induction l as [|x l IH] using rev_ind.
  - simpl. by rewrite lookup_empty.
  - rewrite foldl_app, filter_app. simpl.
    destruct (decide (key x = k)) as [Heq|Hne].
    + rewrite filter_cons_True, filter_nil, last_snoc by done.
      rewrite <- Heq. by rewrite lookup_insert_eq.
    + rewrite filter_cons_False, filter_nil, app_nil_r by done.
      by rewrite lookup_insert_ne.
Qed.

(** The elements that no later element of the same key follows. *)
Fixpoint unshadowed (l : list F) : list F :=
  match l with
  | [] => []
  | x :: l' =>
      if decide (key x ∈ key <$> l') then unshadowed l' else x :: unshadowed l'
  end.

Lemma unshadowed_keys l k : k ∈ key <$> unshadowed l → k ∈ key <$> l.
Proof.
  induction l as [|x l IH]; cbn [unshadowed]; [done|].
  rewrite (fmap_cons key x l).
  destruct (decide (key x ∈ key <$> l)).
  - intros H. right. by apply IH.
  - rewrite fmap_cons, !elem_of_cons. intros [->|H]; [by left|right; by apply IH].
Qed.

Lemma unshadowed_NoDup l : NoDup (key <$> unshadowed l).
Proof.
  induction l as [|x l IH]; cbn [unshadowed]; [apply NoDup_nil_2|].
  destruct (decide (key x ∈ key <$> l)) as [Hin|Hnotin]; [done|].
  rewrite fmap_cons. apply NoDup_cons. split; [|done].
  intros H. apply Hnotin. by apply unshadowed_keys.
Qed.

Lemma unshadowed_distinct l : NoDup (key <$> l) → unshadowed l = l.
Proof.
  induction l as [|x l IH]; cbn [unshadowed]; [done|].
  rewrite fmap_cons, NoDup_cons. intros [Hnotin Hnodup].
  rewrite decide_False by done. by rewrite IH.
Qed.

(** An entry of the map is the pair of an unshadowed element. *)
Lemma unshadowed_entry l k v :
  store_all key val ∅ l !! k = Some v
  ↔ (k, v) ∈ (λ x, (key x, val x)) <$> unshadowed l.
Proof.
  rewrite store_all_lookup.
  induction l as [|x l IH]; cbn [unshadowed].
  { split; [done|]. intros H. by apply elem_of_nil in H. }
  destruct (decide (key x = k)) as [Heq|Hne].
  - rewrite filter_cons_True by done.
    destruct (decide (key x ∈ key <$> l)) as [Hin|Hnotin].
    + rewrite <- IH.
      apply list_elem_of_fmap in Hin as (y & Hy & Hin).
      assert (Hfilter : y ∈ filter (λ x0, key x0 = k) l).
      { apply list_elem_of_filter. split; [congruence|done]. }
      destruct (filter (λ x0, key x0 = k) l) as [|z rest] eqn:Hrest;
        [by apply elem_of_nil in Hfilter|]. done.
    + assert (Hempty : filter (λ x0, key x0 = k) l = []).
      { destruct (filter (λ x0, key x0 = k) l) as [|z rest] eqn:Hrest; [done|].
        assert (Hz : z ∈ filter (λ x0, key x0 = k) l) by (rewrite Hrest; left).
        apply list_elem_of_filter in Hz as [Hk Hz]. exfalso. apply Hnotin.
        apply list_elem_of_fmap. exists z. split; [congruence|done]. }
      rewrite Hempty. change (val <$> last [x]) with (Some (val x)).
      rewrite fmap_cons, elem_of_cons. split.
      * intros [= <-]. left. by rewrite Heq.
      * intros [[= _ ->]|Hin]; [done|]. exfalso. apply Hnotin.
        apply (unshadowed_keys l). rewrite Heq.
        apply list_elem_of_fmap in Hin as (y & [= Hk Hv] & Hy).
        apply list_elem_of_fmap. by exists y.
  - rewrite filter_cons_False by done.
    destruct (decide (key x ∈ key <$> l)) as [Hin|Hnotin]; [exact IH|].
    rewrite fmap_cons, elem_of_cons, IH. split; [by right|].
    intros [[= Hk _]|H]; [done|exact H].
Qed.

(** The map holds one entry for every unshadowed element. *)
Lemma store_all_unshadowed l :
  map_to_list (store_all key val ∅ l) ≡ₚ (λ x, (key x, val x)) <$> unshadowed l.
Proof.
  apply NoDup_Permutation.
  - apply NoDup_map_to_list.
  - apply (NoDup_fmap_1 fst). rewrite <- list_fmap_compose.
    apply unshadowed_NoDup.
  - intros [k v]. rewrite elem_of_map_to_list. apply unshadowed_entry.
Qed.

End result_entries.

Lemma concat_Permutation {A : Type} (l k : list (list A)) :
  l ≡ₚ k → concat l ≡ₚ concat k.
Proof.
  induction 1 as [|x l k _ IH|x y l|l k m _ IH1 _ IH2]; simpl.
  - done.
  - by rewrite IH.
  - rewrite !app_assoc. f_equiv. apply Permutation_app_comm.
  - by rewrite IH1.
Qed.

(** ** The number of points of a metric *)

(** How many points the switch of part_000 appends for a metric. *)
Definition pointCount (metric : Metric) : nat :=
  match GetCounter metric, GetGauge metric,
        GetHistogram metric, GetSummary metric with
  | Some _, _, _, _ => 1
  | None, Some _, _, _ => 1
  | None, None, Some histogram, _ => 2 + length (Histogram_GetBucket histogram)
  | None, None, None, Some summary => 2 + length (Summary_GetQuantile summary)
  | None, None, None, None => 0
  end.

Lemma metricPoints_length metricName metric :
  length (metricPoints metricName metric) = pointCount metric.
Proof.
  unfold pointCount.
  destruct (GetCounter metric) as [counter|] eqn:Hc.
  { by rewrite (counter_points _ _ _ Hc). }
  destruct (GetGauge metric) as [gauge|] eqn:Hg.
  { by rewrite (gauge_points _ _ _ Hc Hg). }
  destruct (GetHistogram metric) as [histogram|] eqn:Hh.
  { rewrite (histogram_points _ _ _ Hc Hg Hh). simpl. by rewrite length_fmap. }
  destruct (GetSummary metric) as [summary|] eqn:Hs.
  { rewrite (summary_points _ _ _ Hc Hg Hh Hs). simpl. by rewrite length_fmap. }
  by rewrite (unrecognized_points _ _ Hc Hg Hh Hs).
Qed.

Lemma convertFamily_length metricFamily :
  length (Decomposed.convertFamily metricFamily)
  = list_sum (pointCount <$> MetricFamily_Metric metricFamily).
Proof.
  rewrite convertFamily_series, seriesOf_concat, length_concat.
  rewrite <- list_fmap_compose. f_equal.
  apply list_fmap_ext. intros _ metric _. apply metricPoints_length.
Qed.

(** X1. Conversion followed by flattening.  Whatever order the range over
    the map takes, the flattened conversion is a permutation of the series
    of the families that are the last of their name, laid end to end:
    it holds the points of every such family, each as often as the family's
    series does, and no point of a family that a later family of the same
    name follows.  Its length is the sum, over the metrics of those
    families, of 1 for a counter or gauge, 2 + buckets for a histogram,
    2 + quantiles for a summary and 0 for any other metric.  When the names
    of the snapshot are pairwise distinct, every family is the last of its
    name. *)
Theorem flatten_of_conversion (metricFamilies : list MetricFamily)
    (result : list TimeSeries) :
  FlattenTimeSeriesMap (Decomposed.MetricFamiliesToTimeSeries metricFamilies) result →
  let converted := unshadowed GetName metricFamilies in
  result ≡ₚ concat (Decomposed.convertFamily <$> converted)
  ∧ length result
    = list_sum ((λ metricFamily,
                   list_sum (pointCount <$> MetricFamily_Metric metricFamily))
                <$> converted)
  ∧ (NoDup (familyNames metricFamilies) → converted = metricFamilies).
Proof.
  intros [visited Hrange] converted. unfold map_range in Hrange.
  assert (Hperm : flattenVisited visited
                  ≡ₚ concat (Decomposed.convertFamily <$> converted)).
  { rewrite flattenVisited_concat. apply concat_Permutation.
    rewrite Hrange.
    change (Decomposed.MetricFamiliesToTimeSeries metricFamilies)
      with (store_all GetName Decomposed.convertFamily ∅ metricFamilies).
    rewrite (store_all_unshadowed GetName Decomposed.convertFamily).
    by rewrite <- list_fmap_compose. }
  split; [exact Hperm|]. split.
  - rewrite (Permutation_length Hperm), length_concat, <- list_fmap_compose.
    f_equal. apply list_fmap_ext. intros _ metricFamily _. simpl.
    apply convertFamily_length.
  - apply unshadowed_distinct.
Qed.

Lemma flatten_of_conversion_witness :
  flattenVisited (map_to_list sample_map)
  ≡ₚ concat (Decomposed.convertFamily <$> [latency_family; requests_family])
  ∧ length (flattenVisited (map_to_list sample_map)) = 6.
Proof.
  assert (Hresult : FlattenTimeSeriesMap sample_map
                      (flattenVisited (map_to_list sample_map))).
  { constructor. unfold map_range. reflexivity. }
  destruct (flatten_of_conversion [latency_family; requests_family] _ Hresult)
    as (Hperm & Hlength & _).
  split; [exact Hperm|exact Hlength].
Defined.

(** ** The instant and the labels of a point *)

Lemma metric_point_instant metricName metric pt :
  pt ∈ metricPoints metricName metric →
  Timestamp (TimeSeries_Datapoint pt) = timestampOf metric.
Proof.
  intros Hpt.
  destruct (GetCounter metric) as [counter|] eqn:Hc.
  { rewrite (counter_points _ _ _ Hc) in Hpt.
    by apply list_elem_of_singleton in Hpt as ->. }
  destruct (GetGauge metric) as [gauge|] eqn:Hg.
  { rewrite (gauge_points _ _ _ Hc Hg) in Hpt.
    by apply list_elem_of_singleton in Hpt as ->. }
  destruct (GetHistogram metric) as [histogram|] eqn:Hh.
  { rewrite (histogram_points _ _ _ Hc Hg Hh) in Hpt.
    apply elem_of_cons in Hpt as [->|Hpt]; [done|].
    apply elem_of_cons in Hpt as [->|Hpt]; [done|].
    by apply list_elem_of_fmap in Hpt as (bucket & -> & _). }
  destruct (GetSummary metric) as [summary|] eqn:Hs.
  { rewrite (summary_points _ _ _ Hc Hg Hh Hs) in Hpt.
    apply elem_of_cons in Hpt as [->|Hpt]; [done|].
    apply elem_of_cons in Hpt as [->|Hpt]; [done|].
    by apply list_elem_of_fmap in Hpt as (quantile & -> & _). }
  rewrite (unrecognized_points _ _ Hc Hg Hh Hs) in Hpt.
  by apply elem_of_nil in Hpt.
Qed.

Lemma timestampOf_unstamped metric :
  Metric_TimestampMs metric = None → timestampOf metric = time.epoch.
Proof. unfold timestampOf, GetTimestampMs. by intros ->. Qed.

(** X2. Where a point comes from.  Every point of the converted map comes
    from a metric of a family of the name it is stored under; its labels
    start with that metric's own labels, in their order, and its timestamp
    is the one computed once for the metric, so all points of one metric
    (the sum, the count, the buckets or quantiles) carry the same instant.
    A metric without a timestamp gives points stamped at the Unix epoch. *)
Theorem point_of_a_metric
    (metricFamilies : list MetricFamily) (name : string)
    (series : list TimeSeries) (pt : TimeSeries) :
  Decomposed.MetricFamiliesToTimeSeries metricFamilies !! name = Some series →
  pt ∈ series →
  ∃ metricFamily metric,
    metricFamily ∈ metricFamilies ∧ GetName metricFamily = name
    ∧ metric ∈ MetricFamily_Metric metricFamily
    ∧ pt ∈ Decomposed.convertMetric name [] metric
    ∧ sourceLabels metric `prefix_of` Labels pt
    ∧ Timestamp (TimeSeries_Datapoint pt) = Decomposed.metricTimestamp metric
    ∧ (∀ pt', pt' ∈ Decomposed.convertMetric name [] metric →
         Timestamp (TimeSeries_Datapoint pt') = Timestamp (TimeSeries_Datapoint pt))
    ∧ (Metric_TimestampMs metric = None →
       Timestamp (TimeSeries_Datapoint pt) = time.epoch).
Proof.
  intros Hlookup Hpt.
  destruct (convert_point_origin _ _ _ _ Hlookup Hpt)
    as (metricFamily & metric & Hfam & Hname & Hmetric & Horigin).
  exists metricFamily, metric.
  destruct (metric_point_labels _ _ _ Horigin) as (extra & value & Hlabels & _).
  pose proof (metric_point_instant _ _ _ Horigin) as Hinstant.
  repeat (split; [done|]).
  split; [|split; [|split]].
  - rewrite Hlabels. by apply prefix_app_r.
  - exact Hinstant.
  - intros pt' Hpt'. rewrite Hinstant. by apply (metric_point_instant name).
  - intros Hnone. rewrite Hinstant. by apply timestampOf_unstamped.
Qed.

Lemma point_of_a_metric_witness :
  ∃ metricFamily metric,
    metricFamily ∈ [latency_family] ∧ GetName metricFamily = "latency_ms"
    ∧ metric ∈ MetricFamily_Metric metricFamily
    ∧ point [nameLabel "latency_ms_count"] time.epoch (float64_of_Z 3)
      ∈ Decomposed.convertMetric "latency_ms" [] metric.
Proof.
  destruct (point_of_a_metric [latency_family] "latency_ms" _
              (point [nameLabel "latency_ms_count"] time.epoch (float64_of_Z 3))
              latency_conversion)
    as (metricFamily & metric & Hfam & Hname & Hmetric & Hpt & _).
  - right. left.
  - by exists metricFamily, metric.
Defined.

(** ** The range of exact timestamps *)

Lemma wrap_int64_range z : in_int64 (wrap_int64 z).
Proof.
  unfold in_int64, int64_min, int64_max, wrap_int64.
  pose proof (Z.mod_pos_bound (z + 2 ^ 63) (2 ^ 64) ltac:(lia)). lia.
Qed.

Lemma Unix_nanoseconds_inj (n k : Z) : time.Unix 0 n = time.Unix 0 k → n = k.
Proof.
  rewrite !Unix_nanoseconds. intros [= Hdiv Hmod].
  rewrite (Z.div_mod n 1000000000), (Z.div_mod k 1000000000) by lia.
  by rewrite Hdiv, Hmod.
Qed.

Lemma UnixMilli_nanoseconds (ms : Z) :
  time.UnixMilli ms = time.Unix 0 (ms * time.Millisecond).
Proof.
  rewrite Unix_nanoseconds. unfold time.UnixMilli, time.Millisecond.
  f_equal; Z.to_euclidean_division_equations; lia.
Qed.

(** X3. The timestamps that survive.  The instant of a metric's points is
    the metric's millisecond timestamp exactly when the timestamp lies
    within 9223372036854 ms of the epoch on either side (1677-09-21 to
    2262-04-11), negative timestamps included; outside that range the
    multiplication by [time.Millisecond] wraps around in [int64] and every
    point of the metric carries another instant. *)
Theorem timestamp_exact_iff (metric : Metric) :
  Decomposed.metricTimestamp metric = time.UnixMilli (GetTimestampMs metric)
  ↔ (-9223372036854 ≤ GetTimestampMs metric ≤ 9223372036854)%Z.
Proof.
  change (Decomposed.metricTimestamp metric) with (timestampOf metric).
  split.
  - intros Heq. rewrite UnixMilli_nanoseconds in Heq.
    apply Unix_nanoseconds_inj in Heq.
    pose proof (wrap_int64_range (GetTimestampMs metric * time.Millisecond)) as Hr.
    unfold int64_mul in Heq. rewrite Heq in Hr.
    unfold in_int64, int64_min, int64_max, time.Millisecond in Hr. lia.
  - intros Hrange. apply timestampOf_in_range.
    unfold in_int64, int64_min, int64_max, time.Millisecond. lia.
Qed.

Lemma timestamp_exact_iff_witness :
  Decomposed.metricTimestamp requests_metric = time.UnixMilli 0.
Proof.
  apply (proj2 (timestamp_exact_iff requests_metric)).
  change (GetTimestampMs requests_metric) with 0%Z. lia.
Defined.

(** ** Counts as float64 values *)

(** The integer a float64 value stands for, when it stands for one. *)
Definition float64_is_integer (f : float64) (n : Z) : Prop :=
  match f with
  | S754_zero _ => n = 0%Z
  | S754_finite s m e =>
      ((if s then -1 else 1) * Zpos m * 2 ^ Z.max e 0 = n * 2 ^ Z.max (- e) 0)%Z
  | _ => False
  end.

Section counts.
Local Open Scope Z_scope.

Lemma binary_round_aux_canonical s m e :
  bounded prec64 emax64 m e = true →
  binary_round_aux prec64 emax64 s (Zpos m) e loc_Exact = S754_finite s m e.
Proof.
  intros Hbounded.
  destruct (bounded_spec _ _ Hbounded) as [Hcanon Hmax].
  unfold binary_round_aux, shr_fexp.
  rewrite Hcanon, Z.sub_diag. simpl.
  change (Zpos (digits2_pos m)) with (Zdigits2 (Zpos m)).
  rewrite Hcanon, Z.sub_diag. simpl.
  apply Z.leb_le in Hmax. by rewrite Hmax.
Qed.

Lemma iter_xO_pow2 (m d : positive) :
  Zpos (Pos.iter xO m d) = Zpos m * 2 ^ Zpos d.
Proof.
  induction d as [|d IH] using Pos.peano_ind.
  - simpl. lia.
  - rewrite Pos.iter_succ, Pos2Z.inj_succ, Z.pow_succ_r by lia.
    rewrite Pos2Z.inj_xO, IH. lia.
Qed.

Lemma float64_of_small (n : positive) :
  Zpos n < 2 ^ 53 →
  let d := Zdigits2 (Zpos n) in
  float64_of_Z (Zpos n)
  = S754_finite false (Z.to_pos (Zpos n * 2 ^ (53 - d))) (d - 53).
Proof.
  intros Hn d.
  assert (Hd : 1 ≤ d ≤ 53).
  { unfold d. rewrite Zdigits2_log2.
    pose proof (Z.log2_nonneg (Zpos n)).
    assert (Z.log2 (Zpos n) < 53) by (apply Z.log2_lt_pow2; lia). lia. }
  unfold float64_of_Z, binary_normalize, binary_round.
  change (Zpos (digits2_pos n)) with d.
  replace (fexp prec64 emax64 (d + 0)) with (d - 53)
    by (unfold fexp, emin, prec64, emax64; lia).
  unfold shl_align.
  destruct (d - 53 - 0) as [|k|k] eqn:Hk; [|lia|].
  - replace (53 - d) with 0 by lia. rewrite Z.mul_1_r. simpl Z.to_pos.
    replace (d - 53) with 0 by lia.
    apply binary_round_aux_canonical.
    unfold bounded, canonical_mantissa. apply andb_true_intro. split.
    + apply Z.eqb_eq. fold (Zdigits2 (Zpos n)). fold d.
      unfold fexp, emin, prec64, emax64. lia.
    + apply Z.leb_le. unfold prec64, emax64. lia.
  - assert (Hm : Zpos (Pos.iter xO n k) = Zpos n * 2 ^ (53 - d)).
    { rewrite iter_xO_pow2. f_equal. f_equal. lia. }
    rewrite <- Hm. simpl Z.to_pos.
    apply binary_round_aux_canonical.
    unfold bounded, canonical_mantissa. apply andb_true_intro. split.
    + apply Z.eqb_eq. fold (Zdigits2 (Zpos (Pos.iter xO n k))).
      rewrite Hm, Zdigits2_mul_pow2 by lia. fold d.
      unfold fexp, emin, prec64, emax64. lia.
    + apply Z.leb_le. unfold prec64, emax64. lia.
Qed.

Lemma float64_of_uint64_integer (n : N) :
  (n ≤ 2 ^ 53)%N → float64_is_integer (float64_of_uint64 n) (Z.of_N n).
Proof.
  intros Hn. destruct n as [|p]; [reflexivity|].
  destruct (decide (Zpos p = 2 ^ 53)) as [Heq|Hne].
  { injection Heq as ->. vm_compute. reflexivity. }
  assert (Hlt : Zpos p < 2 ^ 53).
  { assert (Z.of_N (N.pos p) ≤ Z.of_N (2 ^ 53)) by by apply N2Z.inj_le.
    change (Z.of_N (2 ^ 53)) with (2 ^ 53) in *. simpl Z.of_N in *. lia. }
  change (float64_of_uint64 (N.pos p)) with (float64_of_Z (Zpos p)).
  rewrite (float64_of_small p Hlt). cbv zeta.
  assert (Hd : 1 ≤ Zdigits2 (Zpos p) ≤ 53).
  { rewrite Zdigits2_log2.
    pose proof (Z.log2_nonneg (Zpos p)).
    assert (Z.log2 (Zpos p) < 53) by (apply Z.log2_lt_pow2; lia). lia. }
  unfold float64_is_integer. simpl Z.of_N.
  rewrite Z.max_r, Z.max_l by lia.
  rewrite Z2Pos.id.
  - rewrite Z.pow_0_r.
    replace (- (Zdigits2 (Zpos p) - 53)) with (53 - Zdigits2 (Zpos p)) by lia. lia.
  - apply Z.mul_pos_pos; [lia|]. apply Z.pow_pos_nonneg; lia.
Qed.

Lemma float64_is_integer_inj (f : float64) (n k : Z) :
  float64_is_integer f n → float64_is_integer f k → n = k.
Proof.
  destruct f as [s|s| |s m e]; simpl; try done; [lia|].
  intros Hn Hk. rewrite Hn in Hk.
  apply Z.mul_reg_r in Hk; [done|].
  apply Z.pow_nonzero; lia.
Qed.

End counts.

(** X4. Counts as values.  The [_count] point of a histogram, the [_count]
    point of a summary and every [_bucket] point take their value by
    [float64(n)] from an unsigned 64-bit count: the sample count for the two
    [_count] points, the bucket's cumulative count for a [_bucket] point.
    Up to 2^53 = 9007199254740992 that value is the count itself, so
    different counts give different values; 2^53 + 1 already gives the value
    of 2^53. *)
Theorem counts_exact_up_to_2_53 :
  (∀ n : N, (n ≤ 2 ^ 53)%N →
     float64_is_integer (float64_of_uint64 n) (Z.of_N n))
  ∧ (∀ n k : N, (n ≤ 2 ^ 53)%N → (k ≤ 2 ^ 53)%N →
       float64_of_uint64 n = float64_of_uint64 k → n = k)
  ∧ float64_of_uint64 (2 ^ 53 + 1) = float64_of_uint64 (2 ^ 53)
  ∧ (∀ metricName metric histogram,
       GetCounter metric = None → GetGauge metric = None →
       GetHistogram metric = Some histogram →
       let points := Decomposed.convertMetric metricName [] metric in
       (∃ pt, points !! 1%nat = Some pt
              ∧ Datapoint_Value (TimeSeries_Datapoint pt)
                = float64_of_uint64 (Histogram_GetSampleCount histogram)
              ∧ ((Histogram_GetSampleCount histogram ≤ 2 ^ 53)%N →
                 float64_is_integer (Datapoint_Value (TimeSeries_Datapoint pt))
                   (Z.of_N (Histogram_GetSampleCount histogram))))
       ∧ ∀ i bucket,
           Histogram_GetBucket histogram !! i = Some bucket →
           ∃ pt, points !! (2 + i)%nat = Some pt
                 ∧ Datapoint_Value (TimeSeries_Datapoint pt)
                   = float64_of_uint64 (Bucket_GetCumulativeCount bucket)
                 ∧ ((Bucket_GetCumulativeCount bucket ≤ 2 ^ 53)%N →
                    float64_is_integer (Datapoint_Value (TimeSeries_Datapoint pt))
                      (Z.of_N (Bucket_GetCumulativeCount bucket))))
  ∧ (∀ metricName metric summary,
       GetCounter metric = None → GetGauge metric = None →
       GetHistogram metric = None → GetSummary metric = Some summary →
       ∃ pt, Decomposed.convertMetric metricName [] metric !! 1%nat = Some pt
             ∧ Datapoint_Value (TimeSeries_Datapoint pt)
               = float64_of_uint64 (Summary_GetSampleCount summary)
             ∧ ((Summary_GetSampleCount summary ≤ 2 ^ 53)%N →
                float64_is_integer (Datapoint_Value (TimeSeries_Datapoint pt))
                  (Z.of_N (Summary_GetSampleCount summary)))).
Proof.
  split; [exact float64_of_uint64_integer|]. split; [|split; [|split]].
  - intros n k Hn Hk Heq.
    pose proof (float64_of_uint64_integer n Hn) as Hin.
    pose proof (float64_of_uint64_integer k Hk) as Hik.
    rewrite Heq in Hin.
    apply N2Z.inj. exact (float64_is_integer_inj _ _ _ Hin Hik).
  - vm_compute. reflexivity.
  - intros metricName metric histogram Hc Hg Hh points. unfold points.
    fold (metricPoints metricName metric).
    rewrite (histogram_points _ _ _ Hc Hg Hh). split.
    + eexists. split; [reflexivity|]. split; [reflexivity|].
      simpl. apply float64_of_uint64_integer.
    + intros i bucket Hbucket.
      exists (bucketPoint metricName metric bucket). split.
      * simpl. by rewrite list_lookup_fmap, Hbucket.
      * split; [reflexivity|]. simpl. apply float64_of_uint64_integer.
  - intros metricName metric summary Hc Hg Hh Hs.
    fold (metricPoints metricName metric).
    rewrite (summary_points _ _ _ Hc Hg Hh Hs).
    eexists. split; [reflexivity|]. split; [reflexivity|].
    simpl. apply float64_of_uint64_integer.
Qed.

Lemma counts_exact_up_to_2_53_witness :
  ∃ pt,
    Decomposed.convertMetric "latency_ms" [] latency_metric !! 3%nat = Some pt
    ∧ Datapoint_Value (TimeSeries_Datapoint pt) = float64_of_uint64 2
    ∧ float64_is_integer (Datapoint_Value (TimeSeries_Datapoint pt)) 2.
Proof.
  destruct (proj2 (proj1 (proj2 (proj2 (proj2 counts_exact_up_to_2_53)))
                     "latency_ms" latency_metric latency_histogram
                     eq_refl eq_refl eq_refl)
              1%nat
              {| Bucket_CumulativeCount := Some 2%N;
                 Bucket_UpperBound := Some (float64_of_Z 1000) |}
              eq_refl)
    as (pt & Hpt & Hvalue & Hexact).
  exists pt. split; [exact Hpt|]. split; [exact Hvalue|].
  apply Hexact. vm_compute. discriminate.
Defined.

(** ** The conversion of main.go, metric by metric *)

(** The value that the switch of main.go leaves in [value]. *)
Definition collapsedValue (metric : Metric) : float64 :=
  match GetCounter metric, GetGauge metric,
        GetHistogram metric, GetSummary metric with
  | Some counter, _, _, _ => Counter_GetValue counter
  | None, Some gauge, _, _ => Gauge_GetValue gauge
  | None, None, Some histogram, _ => Histogram_GetSampleSum histogram
  | None, None, None, Some summary => Summary_GetSampleSum summary
  | None, None, None, None => S754_zero false
  end.

(** The one point of a metric in the series of main.go. *)
Definition collapsedPoint (metricName : string) (metric : Metric) : TimeSeries :=
  point (sourceLabels metric ++ [nameLabel metricName]) (timestampOf metric)
        (collapsedValue metric).

Lemma collapsed_convertMetric_appends metricName series metric :
  Collapsed.convertMetric metricName series metric
  = series ++ [collapsedPoint metricName metric].
Proof.
  unfold Collapsed.convertMetric, collapsedPoint, collapsedValue. cbv zeta.
  by rewrite foldl_snoc_map.
Qed.

Lemma collapsed_convertFamily_points metricFamily :
  Collapsed.convertFamily metricFamily
  = collapsedPoint (GetName metricFamily) <$> MetricFamily_Metric metricFamily.
Proof.
  unfold Collapsed.convertFamily. cbv zeta.
  rewrite (foldl_append_blocks _ (λ metric, [collapsedPoint (GetName metricFamily) metric])
             (collapsed_convertMetric_appends (GetName metricFamily))).
  rewrite app_nil_l.
  induction (MetricFamily_Metric metricFamily) as [|metric metrics IH]; [done|].
  rewrite !fmap_cons. simpl. by rewrite IH.
Qed.

(** X5. One point per metric.  The conversion of main.go gives every metric
    of a family exactly one point, at the metric's place in the family's
    series: the metric's labels followed by [__name__] = the family name,
    the metric's timestamp, and as value the counter's value, else the
    gauge's, else the histogram's sample sum, else the summary's sample
    sum; a metric with none of these payloads is not skipped, it gives a
    point of value 0. *)
Theorem collapsed_one_point_per_metric (metricFamily : MetricFamily) :
  let metricName := GetName metricFamily in
  let series := Collapsed.convertFamily metricFamily in
  length series = length (MetricFamily_Metric metricFamily)
  ∧ ∀ i metric,
      MetricFamily_Metric metricFamily !! i = Some metric →
      ∃ v,
        series !! i
        = Some (point (sourceLabels metric
                       ++ [ {| Name := "__name__"; Value := metricName |} ])
                      (timestampOf metric) v)
        ∧ (∀ counter, GetCounter metric = Some counter →
                      v = Counter_GetValue counter)
        ∧ (GetCounter metric = None →
           ∀ gauge, GetGauge metric = Some gauge → v = Gauge_GetValue gauge)
        ∧ (GetCounter metric = None → GetGauge metric = None →
           ∀ histogram, GetHistogram metric = Some histogram →
                        v = Histogram_GetSampleSum histogram)
        ∧ (GetCounter metric = None → GetGauge metric = None →
           GetHistogram metric = None →
           ∀ summary, GetSummary metric = Some summary →
                      v = Summary_GetSampleSum summary)
        ∧ (GetCounter metric = None → GetGauge metric = None →
           GetHistogram metric = None → GetSummary metric = None →
           v = S754_zero false).
Proof.
  intros metricName series. unfold series.
  rewrite collapsed_convertFamily_points. split; [by rewrite length_fmap|].
  intros i metric Hi. exists (collapsedValue metric).
  split; [by rewrite list_lookup_fmap, Hi|].
  unfold collapsedValue.
  destruct (GetCounter metric), (GetGauge metric),
    (GetHistogram metric), (GetSummary metric);
    repeat split; intros; congruence.
Qed.

Lemma collapsed_one_point_per_metric_witness :
  Collapsed.convertFamily latency_family !! 0%nat
  = Some (point [nameLabel "latency_ms"] time.epoch (float64_of_Z 6000)).
Proof.
  destruct (proj2 (collapsed_one_point_per_metric latency_family)
              0%nat latency_metric eq_refl)
    as (v & Hlookup & _ & _ & Hsum & _).
  rewrite (Hsum eq_refl eq_refl latency_histogram eq_refl) in Hlookup.
  exact Hlookup.
Defined.

(** X6. The conversion of main.go followed by flattening.  Whatever order
    the range over the map takes, the flattened conversion is a permutation
    of the series of the families that are the last of their name, laid end
    to end, and it holds as many points as those families have metrics. *)
Theorem flatten_of_collapsed (metricFamilies : list MetricFamily)
    (result : list TimeSeries) :
  FlattenTimeSeriesMap (Collapsed.MetricFamiliesToTimeSeries metricFamilies) result →
  let converted := unshadowed GetName metricFamilies in
  result ≡ₚ concat (Collapsed.convertFamily <$> converted)
  ∧ length result
    = list_sum ((λ metricFamily, length (MetricFamily_Metric metricFamily))
                <$> converted).
Proof.
  intros [visited Hrange] converted. unfold map_range in Hrange.
  assert (Hperm : flattenVisited visited
                  ≡ₚ concat (Collapsed.convertFamily <$> converted)).
  { rewrite flattenVisited_concat. apply concat_Permutation.
    rewrite Hrange.
    change (Collapsed.MetricFamiliesToTimeSeries metricFamilies)
      with (store_all GetName Collapsed.convertFamily ∅ metricFamilies).
    rewrite (store_all_unshadowed GetName Collapsed.convertFamily).
    by rewrite <- list_fmap_compose. }
  split; [exact Hperm|].
  rewrite (Permutation_length Hperm), length_concat, <- list_fmap_compose.
  f_equal. apply list_fmap_ext. intros _ metricFamily _. simpl.
  by rewrite collapsed_convertFamily_points, length_fmap.
Qed.

Lemma flatten_of_collapsed_witness :
  length (flattenVisited
            (map_to_list (Collapsed.MetricFamiliesToTimeSeries
                            [idle_family; latency_family; mixed_family])))
  = 3.
Proof.
  assert (Hresult :
            FlattenTimeSeriesMap
              (Collapsed.MetricFamiliesToTimeSeries
                 [idle_family; latency_family; mixed_family])
              (flattenVisited
                 (map_to_list (Collapsed.MetricFamiliesToTimeSeries
                                 [idle_family; latency_family; mixed_family])))).
  { constructor. unfold map_range. reflexivity. }
  exact (proj2 (flatten_of_collapsed [idle_family; latency_family; mixed_family]
                  _ Hresult)).
Defined.

(** ** Families of one name *)

(** X7. The last family of a name is the one converted.  In both versions
    the map holds, under a name, the series of the last family of the
    snapshot that has the name, and nothing of the families of that name
    before it; a name that no family has is not a key. *)
Theorem last_family_of_a_name (metricFamilies : list MetricFamily) (name : string) :
  let families := filter (λ metricFamily, GetName metricFamily = name) metricFamilies in
  Decomposed.MetricFamiliesToTimeSeries metricFamilies !! name
  = Decomposed.convertFamily <$> last families
  ∧ Collapsed.MetricFamiliesToTimeSeries metricFamilies !! name
    = Collapsed.convertFamily <$> last families
  ∧ (name ∉ familyNames metricFamilies →
     Decomposed.MetricFamiliesToTimeSeries metricFamilies !! name = None
     ∧ Collapsed.MetricFamiliesToTimeSeries metricFamilies !! name = None).
Proof.
  intros families.
  pose proof (store_all_lookup GetName Decomposed.convertFamily metricFamilies name)
    as Hd.
  pose proof (store_all_lookup GetName Collapsed.convertFamily metricFamilies name)
    as Hc.
  split; [exact Hd|]. split; [exact Hc|].
  intros Hname.
  assert (Hnone : families = []).
  { destruct families as [|metricFamily rest] eqn:Hfamilies; [done|].
    assert (Hin : metricFamily ∈ families) by (rewrite Hfamilies; left).
    unfold families in Hin. apply list_elem_of_filter in Hin as [Heq Hin].
    exfalso. apply Hname. subst name.
    unfold familyNames. apply list_elem_of_fmap. by exists metricFamily. }
  fold families in Hd, Hc. rewrite Hnone in Hd, Hc. by split.
Qed.

Lemma last_family_of_a_name_witness :
  Decomposed.MetricFamiliesToTimeSeries [idle_family; requests_family]
    !! "requests_total"
  = Some (Decomposed.convertFamily requests_family).
Proof.
  exact (proj1 (last_family_of_a_name [idle_family; requests_family]
                  "requests_total")).
Defined.

(** ** Where the two versions agree *)

Lemma append_nonempty_neq (s t : string) : t ≠ "" → s +:+ t ≠ s.
Proof.
  intros Ht. induction s as [|c s IH]; simpl; [done|].
  intros [= Heq]. by apply IH.
Qed.

Lemma list_sum_all_one {A : Type} (f : A → nat) (l : list A) :
  (∀ x, x ∈ l → (f x ≤ 1)%nat) → list_sum (f <$> l) = length l →
  ∀ x, x ∈ l → f x = 1.
Proof.
  induction l as [|y l IH]; intros Hle Hsum x Hx; [by apply elem_of_nil in Hx|].
  rewrite fmap_cons in Hsum. simpl in Hsum.
  assert (Hy : (f y ≤ 1)%nat) by (apply Hle; left).
  assert (Hl : (list_sum (f <$> l) ≤ length l)%nat).
  { clear -Hle. induction l as [|z l IH]; [simpl; lia|].
    rewrite fmap_cons. simpl.
    assert (f z ≤ 1)%nat by (apply Hle; right; left).
    assert (list_sum (f <$> l) ≤ length l)%nat; [|lia].
    apply IH. intros x Hx. apply Hle.
    apply elem_of_cons in Hx as [->|Hx]; [left|right; by right]. }
  apply elem_of_cons in Hx as [->|Hx]; [lia|].
  apply IH; [|lia|done]. intros z Hz. apply Hle. by right.
Qed.

(** The first point of a histogram or summary metric in part_000. *)
Lemma sum_point_first metricName metric :
  GetCounter metric = None → GetGauge metric = None →
  is_Some (GetHistogram metric) ∨ is_Some (GetSummary metric) →
  ∃ v, point (sourceLabels metric ++ [nameLabel (metricName +:+ "_sum")])
             (timestampOf metric) v
       ∈ metricPoints metricName metric.
Proof.
  intros Hc Hg Hkind.
  destruct (GetHistogram metric) as [histogram|] eqn:Hh.
  { rewrite (histogram_points _ _ _ Hc Hg Hh). eexists. left. }
  destruct Hkind as [[? [=]]|[summary Hs]].
  rewrite (summary_points _ _ _ Hc Hg Hh Hs). eexists. left.
Qed.

(** X8. The two versions, family by family.  The series that part_000 and
    main.go give a family are equal exactly when every metric of the family
    carries a counter or a gauge payload: a histogram or summary metric
    adds points named [_sum] and [_count] in part_000 only, and a metric
    with none of the four payloads adds a point in main.go only. *)
Theorem versions_agree_iff (metricFamily : MetricFamily) :
  Decomposed.convertFamily metricFamily = Collapsed.convertFamily metricFamily
  ↔ Forall counterOrGauge (MetricFamily_Metric metricFamily).
Proof.
  split; [|apply convertFamily_agree].
  intros Heq.
  set (metricName := GetName metricFamily) in *.
  set (metrics := MetricFamily_Metric metricFamily) in *.
  assert (Hplain : ∀ metric, metric ∈ metrics →
            GetCounter metric = None → GetGauge metric = None →
            GetHistogram metric = None ∧ GetSummary metric = None).
  { intros metric Hmetric Hc Hg.
    destruct (GetHistogram metric) as [histogram|] eqn:Hh;
      [|destruct (GetSummary metric) as [summary|] eqn:Hs; [|done]].
    all: exfalso.
    all: destruct (sum_point_first metricName metric Hc Hg) as [v Hpt];
      [rewrite ?Hh, ?Hs; (by left; eexists) || (by right; eexists)|].
    all: assert (Hin : point (sourceLabels metric
                               ++ [nameLabel (metricName +:+ "_sum")])
                             (timestampOf metric) v
                       ∈ Decomposed.convertFamily metricFamily).
    1, 3: rewrite convertFamily_series, seriesOf_concat;
      apply list_elem_of_In, in_concat; eexists; split;
      [apply list_elem_of_In, list_elem_of_fmap; by exists metric
      |by apply list_elem_of_In].
    all: rewrite Heq, collapsed_convertFamily_points in Hin.
    all: apply list_elem_of_fmap in Hin as (other & Hother & _).
    all: apply (f_equal Labels) in Hother; simpl in Hother.
    all: apply app_inj_tail in Hother as [_ [= Hname]].
    all: by apply (append_nonempty_neq metricName "_sum"). }
  assert (Hcount : ∀ metric, metric ∈ metrics → (pointCount metric ≤ 1)%nat).
  { intros metric Hmetric. unfold pointCount.
    destruct (GetCounter metric) eqn:Hc; [done|].
    destruct (GetGauge metric) eqn:Hg; [done|].
    destruct (Hplain metric Hmetric Hc Hg) as [-> ->]. lia. }
  assert (Hlength : list_sum (pointCount <$> metrics) = length metrics).
  { unfold metrics. rewrite <- convertFamily_length, Heq.
    by rewrite collapsed_convertFamily_points, length_fmap. }
  apply Forall_forall. intros metric Hmetric.
  pose proof (list_sum_all_one pointCount metrics Hcount Hlength metric Hmetric)
    as Hone.
  unfold pointCount in Hone. unfold counterOrGauge.
  destruct (GetCounter metric) eqn:Hc; [by left|].
  destruct (GetGauge metric) eqn:Hg; [by right|].
  destruct (Hplain metric Hmetric Hc Hg) as [Hh Hs].
  rewrite Hh, Hs in Hone. discriminate Hone.
Qed.

Lemma versions_agree_iff_witness :
  Decomposed.convertFamily requests_family
  = Collapsed.convertFamily requests_family.
Proof.
  apply (proj2 (versions_agree_iff requests_family)).
  constructor; [|constructor]. left. by exists requests_counter.
Defined.

(** ** What flattening keeps *)

(** X9. The points of a flattened map.  Whatever order the range over the
    map takes, the returned sequence holds exactly the points of the map's
    sequences, so two calls on one map return permutations of one another;
    on a map with one entry the result is that entry's sequence, and on the
    empty map it is empty. *)
Theorem flatten_points
    (timeSeriesMap : gmap string (list TimeSeries)) (result : list TimeSeries) :
  FlattenTimeSeriesMap timeSeriesMap result →
  (∀ pt, pt ∈ result
         ↔ ∃ name series, timeSeriesMap !! name = Some series ∧ pt ∈ series)
  ∧ (∀ result', FlattenTimeSeriesMap timeSeriesMap result' → result ≡ₚ result')
  ∧ (∀ name series, timeSeriesMap = {[ name := series ]} → result = series)
  ∧ (timeSeriesMap = ∅ → result = []).
Proof.
  intros [visited Hrange]. unfold map_range in Hrange.
  rewrite flattenVisited_concat.
  split; [|split; [|split]].
  - intros pt. split.
    + intros Hpt. apply list_elem_of_In, in_concat in Hpt as (series & Hseries & Hpt).
      rewrite <- list_elem_of_In in Hseries. rewrite <- list_elem_of_In in Hpt.
      apply list_elem_of_fmap in Hseries as ([name series'] & -> & Hentry).
      rewrite Hrange in Hentry. apply elem_of_map_to_list in Hentry.
      by exists name, series'.
    + intros (name & series & Hlookup & Hpt).
      apply elem_of_map_to_list in Hlookup. rewrite <- Hrange in Hlookup.
      apply list_elem_of_In, in_concat. exists series. split.
      * apply list_elem_of_In, list_elem_of_fmap. by exists (name, series).
      * by apply list_elem_of_In.
  - intros result' [visited' Hrange']. unfold map_range in Hrange'.
    rewrite flattenVisited_concat. apply concat_Permutation.
    by rewrite Hrange, Hrange'.
  - intros name series ->. rewrite map_to_list_singleton in Hrange.
    apply Permutation_singleton_r in Hrange as ->. simpl. apply app_nil_r.
  - intros ->. rewrite map_to_list_empty in Hrange.
    by apply Permutation_nil_r in Hrange as ->.
Qed.

Lemma flatten_points_witness :
  point [nameLabel "requests_total"] time.epoch (float64_of_Z 3)
  ∈ flattenVisited (map_to_list sample_map).
Proof.
  assert (Hresult : FlattenTimeSeriesMap sample_map
                      (flattenVisited (map_to_list sample_map))).
  { constructor. unfold map_range. reflexivity. }
  apply (proj1 (flatten_points sample_map _ Hresult)).
  exists "requests_total",
    [point [nameLabel "requests_total"] time.epoch (float64_of_Z 3)].
  split; [vm_compute; reflexivity|left].
Defined.

(** ** Splitting at a separator of one byte *)

(** How often the byte [c] occurs in [s]. *)
Definition count_byte (c : ascii) (s : string) : nat :=
  length (filter (λ b, b = c) (list_ascii_of_string s)).

(** [s] holds no byte [c]. *)
Definition byte_free (c : ascii) (s : string) : Prop :=
  c ∉ list_ascii_of_string s.

Section one_byte_separator.
Variable c : ascii.

Let sep : string := String c "".

Lemma byte_free_count s : byte_free c s ↔ count_byte c s = 0%nat.
Proof.
  unfold byte_free, count_byte.
  induction (list_ascii_of_string s) as [|b l IH]; simpl.
  - split; [done|]. intros _. apply not_elem_of_nil.
  - rewrite not_elem_of_cons, IH. destruct (decide (b = c)) as [->|Hne].
    + rewrite filter_cons_True by done. simpl. split; [by intros [? _]|done].
    + rewrite filter_cons_False by done. split; [by intros [_ ?]|].
      intros H. split; [congruence|done].
Qed.

Lemma count_byte_cons b s :
  count_byte c (String b s)
  = ((if decide (b = c) then 1 else 0) + count_byte c s)%nat.
Proof.
  unfold count_byte. simpl. destruct (decide (b = c)).
  - by rewrite filter_cons_True.
  - by rewrite filter_cons_False.
Qed.

Lemma count_byte_app a b :
  count_byte c (a +:+ b) = (count_byte c a + count_byte c b)%nat.
Proof.
  induction a as [|x a IH]; [done|].
  change (String x a +:+ b) with (String x (a +:+ b)).
  rewrite !count_byte_cons, IH. lia.
Qed.

Lemma length_app_string (a b : string) :
  String.length (a +:+ b) = (String.length a + String.length b)%nat.
Proof. induction a as [|x a IH]; simpl; [done|]. by rewrite IH. Qed.

Lemma Index_cons b s :
  strings.Index (String b s) sep
  = if decide (b = c) then 0%Z
    else let i := strings.Index s sep in
         if bool_decide (i = -1)%Z then (-1)%Z else (i + 1)%Z.
Proof.
  unfold sep. simpl.
  destruct (ascii_dec c b) as [Heq|Hne].
  - rewrite decide_True by done.
    by replace (String.prefix "" s) with true by (by destruct s).
  - rewrite decide_False by congruence. reflexivity.
Qed.

Lemma Index_nil : strings.Index "" sep = (-1)%Z.
Proof. reflexivity. Qed.

Lemma Index_bounds s :
  (-1 ≤ strings.Index s sep < Z.of_nat (String.length s))%Z
  ∨ (s = "" ∧ strings.Index s sep = (-1)%Z).
Proof.
  induction s as [|b s IH]; [by right|]. left.
  rewrite Index_cons. simpl String.length. cbv zeta.
  destruct (decide (b = c)); [lia|].
  case_bool_decide; [lia|].
  destruct IH as [IH|[-> IH]]; [lia|]. by rewrite Index_nil in *.
Qed.

Lemma Index_free s : byte_free c s ↔ strings.Index s sep = (-1)%Z.
Proof.
  rewrite byte_free_count.
  induction s as [|b s IH]; [done|].
  rewrite Index_cons, count_byte_cons. cbv zeta.
  destruct (decide (b = c)); [split; [lia|discriminate]|].
  simpl. rewrite IH. case_bool_decide as Hi; [done|].
  split; [done|]. intros Habs. exfalso.
  destruct (Index_bounds s) as [?|[_ ?]]; [lia|done].
Qed.

Lemma Index_first a b :
  byte_free c a →
  strings.Index (a +:+ String c b) sep = Z.of_nat (String.length a).
Proof.
  rewrite byte_free_count.
  induction a as [|x a IH]; intros Hfree.
  - change ("" +:+ String c b) with (String c b).
    rewrite Index_cons. by rewrite decide_True.
  - change (String x a +:+ String c b) with (String x (a +:+ String c b)).
    rewrite count_byte_cons in Hfree.
    destruct (decide (x = c)) as [->|Hne]; [lia|].
    rewrite Index_cons, decide_False by done. cbv zeta.
    rewrite IH by (simpl in Hfree; lia).
    rewrite bool_decide_false by lia. simpl String.length. lia.
Qed.

(** A string either holds no [c] or splits at its first one. *)
Lemma first_byte s :
  byte_free c s ∨ ∃ a b, s = a +:+ String c b ∧ byte_free c a.
Proof.
  induction s as [|x s IH]; [left; apply not_elem_of_nil|].
  destruct (decide (x = c)) as [->|Hne].
  { right. exists "", s. split; [done|]. apply not_elem_of_nil. }
  destruct IH as [Hfree|(a & b & -> & Hfree)].
  - left. unfold byte_free in *. simpl. rewrite not_elem_of_cons. split; [congruence|done].
  - right. exists (String x a), b. split; [done|].
    unfold byte_free in *. simpl. rewrite not_elem_of_cons. split; [congruence|done].
Qed.

Lemma slice_to_app a b :
  strings.slice_to (a +:+ b) (Z.of_nat (String.length a)) = a.
Proof.
  unfold strings.slice_to. rewrite Nat2Z.id.
  induction a as [|x a IH]; simpl.
  - by destruct b.
  - by rewrite IH.
Qed.

Lemma substring_all s : String.substring 0 (String.length s) s = s.
Proof. induction s as [|x s IH]; simpl; [done|]. by rewrite IH. Qed.

Lemma slice_from_app a b :
  strings.slice_from (a +:+ b) (Z.of_nat (String.length a)) = b.
Proof.
  unfold strings.slice_from. rewrite Nat2Z.id, length_app_string.
  replace (String.length a + String.length b - String.length a)%nat
    with (String.length b) by lia.
  induction a as [|x a IH]; simpl; [apply substring_all|exact IH].
Qed.

Lemma slice_after_byte a b :
  strings.slice_from (a +:+ String c b) (Z.of_nat (String.length a) + 1) = b.
Proof.
  replace (a +:+ String c b) with ((a +:+ sep) +:+ b).
  - replace (Z.of_nat (String.length a) + 1)%Z
      with (Z.of_nat (String.length (a +:+ sep))).
    + apply slice_from_app.
    + rewrite length_app_string. simpl. lia.
  - unfold sep. induction a as [|x a IH]; [done|].
    change (String x a +:+ String c "") with (String x (a +:+ String c "")).
    change (String x (a +:+ String c "") +:+ b)
      with (String x ((a +:+ String c "") +:+ b)).
    by rewrite IH.
Qed.

Lemma genSplit_free fuel s :
  byte_free c s → strings.genSplit fuel s sep = [s].
Proof.
  intros Hfree. apply Index_free in Hfree.
  destruct fuel; simpl; [done|]. fold sep. rewrite Hfree. done.
Qed.

Lemma genSplit_first fuel a b :
  byte_free c a →
  strings.genSplit (S fuel) (a +:+ String c b) sep
  = a :: strings.genSplit fuel b sep.
Proof.
  intros Hfree. simpl. fold sep. rewrite (Index_first a b Hfree).
  rewrite bool_decide_false by lia.
  change (Z.of_nat (String.length sep)) with 1%Z.
  by rewrite slice_to_app, slice_after_byte.
Qed.

(** The pieces are one more than the separators. *)
Lemma genSplit_length fuel s :
  (String.length s ≤ fuel)%nat →
  length (strings.genSplit fuel s sep) = S (count_byte c s).
Proof.
  revert s. induction fuel as [|fuel IH]; intros s Hfuel.
  - destruct s; [done|]. simpl in Hfuel. lia.
  - destruct (first_byte s) as [Hfree|(a & b & -> & Hfree)].
    + rewrite (genSplit_free _ _ Hfree).
      apply byte_free_count in Hfree. by rewrite Hfree.
    + rewrite (genSplit_first _ _ _ Hfree). simpl.
      rewrite length_app_string in Hfuel. simpl in Hfuel.
      rewrite IH by lia.
      rewrite count_byte_app, count_byte_cons, decide_True by done.
      apply byte_free_count in Hfree. rewrite Hfree. lia.
Qed.

Lemma Split_length s :
  length (strings.Split s sep) = S (count_byte c s).
Proof. by apply genSplit_length. Qed.

Lemma Split_pair a b :
  byte_free c a → byte_free c b → strings.Split (a +:+ String c b) sep = [a; b].
Proof.
  intros Ha Hb. unfold strings.Split.
  rewrite length_app_string. simpl String.length.
  replace (String.length a + S (String.length b))%nat
    with (S (String.length a + String.length b)) by lia.
  rewrite (genSplit_first _ _ _ Ha). by rewrite (genSplit_free _ _ Hb).
Qed.

(** A string with one [c] is two pieces around it. *)
Lemma one_byte s :
  count_byte c s = 1%nat →
  ∃ a b, s = a +:+ String c b ∧ byte_free c a ∧ byte_free c b.
Proof.
  intros Hcount.
  destruct (first_byte s) as [Hfree|(a & b & -> & Hfree)].
  - apply byte_free_count in Hfree. lia.
  - exists a, b. split; [done|]. split; [done|].
    rewrite count_byte_app, count_byte_cons, decide_True in Hcount by done.
    apply byte_free_count. lia.
Qed.

End one_byte_separator.

(** ** The library calls at work *)

(** [strings.ToLower] on a string of ASCII bytes. *)
Definition ToLower_ascii (s : string) : string :=
  string_of_list_ascii (strconv.to_lower <$> list_ascii_of_string s).

(** [strconv.Atoi] where [int] has 64 bits: an optional sign, then decimal
    digits, at least one and nothing else, that spell an [int64]. *)
Definition Atoi_int64 (s : string) : option Z :=
  let '(neg, digits) := strconv.read_sign (list_ascii_of_string s) in
  if bool_decide (digits ≠ [] ∧ Forall (λ c, strconv.is_digit c = true) digits)
  then
    let n := strconv.digits_value digits in
    let n := if neg then (- n)%Z else n in
    if bool_decide (int64_min ≤ n ≤ int64_max)%Z then Some n else None
  else None.

(** The white space of ASCII: tab, line feed, vertical tab, form feed,
    carriage return and space. *)
Definition ascii_space (c : ascii) : bool :=
  let n := nat_of_ascii c in
  ((9 <=? n)%nat && (n <=? 13)%nat) || (n =? 32)%nat.

Fixpoint trim_left (cs : list ascii) : list ascii :=
  match cs with
  | c :: cs' => if ascii_space c then trim_left cs' else cs
  | [] => []
  end.

(** [strings.TrimSpace] on a string of ASCII bytes. *)
Definition TrimSpace_ascii (s : string) : string :=
  string_of_list_ascii
    (rev (trim_left (rev (trim_left (list_ascii_of_string s))))).

(** ** The [-t] flag *)

(** X10. What [-t] accepts.  [Set] accepts exactly the values that hold one
    colon: [name:value] with no colon in either part appends the label
    (name, value), unchanged and untrimmed, at the end of the list, so that
    the label read from [name + ":" + value] is the label itself.  Any other
    value (no colon, or more than one) leaves the list as it was and is
    answered by the error that counts the pieces. *)
Theorem labelList_Set_one_colon (t : labelList) (value : string) :
  (∀ labelName labelValue,
     value = labelName +:+ ":" +:+ labelValue →
     byte_free ":" labelName → byte_free ":" labelValue →
     labelList_Set t value
     = (t ++ [ {| Name := labelName; Value := labelValue |} ], None))
  ∧ (count_byte ":" value = 1%nat →
     ∃ labelName labelValue,
       value = labelName +:+ ":" +:+ labelValue
       ∧ byte_free ":" labelName ∧ byte_free ":" labelValue)
  ∧ (count_byte ":" value ≠ 1%nat →
     labelList_Set t value
     = (t, Some ("incorrect number of arguments to '-t': "
                 +:+ Sprintf_d (Z.of_nat (count_byte ":" value) + 1)))).
Proof.
  split; [|split].
  - intros labelName labelValue -> Hname Hvalue. unfold labelList_Set.
    change (":" +:+ labelValue) with (String ":" labelValue).
    by rewrite (Split_pair ":" _ _ Hname Hvalue).
  - intros Hcount.
    destruct (one_byte ":" value Hcount) as (a & b & -> & Ha & Hb).
    by exists a, b.
  - intros Hcount. unfold labelList_Set.
    pose proof (Split_length ":" value) as Hlength.
    replace (Z.of_nat (count_byte ":" value) + 1)%Z
      with (Z.of_nat (length (strings.Split value ":"))) by lia.
    destruct (strings.Split value ":") as [|p0 [|p1 [|p2 rest]]];
      simpl in Hlength; try lia; reflexivity.
Qed.

Lemma labelList_Set_one_colon_witness :
  labelList_Set [] "status_code:200"
  = ([ {| Name := "status_code"; Value := "200" |} ], None).
Proof.
  apply (proj1 (labelList_Set_one_colon [] "status_code:200")
           "status_code" "200" eq_refl);
    apply byte_free_count; reflexivity.
Defined.

(** ** The [-h] flag *)

(** X11. What [-h] accepts.  [Set] splits the value at its first colon: the
    header's name is what stands before it and the header's value all that
    follows it, later colons included, both passed through
    [strings.TrimSpace]; the header is appended at the end of the list.  A
    value without a colon leaves the list as it was and is answered by the
    error that quotes the value. *)
Theorem headerList_Set_first_colon
    (TrimSpace : string → string) (h : headerList) (value : string) :
  (byte_free ":" value →
   headerList_Set TrimSpace h value
   = (h, Some ("header missing separating colon: '" +:+ value +:+ "'")))
  ∧ (∀ before after,
       value = before +:+ ":" +:+ after → byte_free ":" before →
       headerList_Set TrimSpace h value
       = (h ++ [ {| header_name := TrimSpace before;
                    header_value := TrimSpace after |} ], None))
  ∧ (byte_free ":" value
     ∨ ∃ before after, value = before +:+ ":" +:+ after ∧ byte_free ":" before).
Proof.
  split; [|split].
  - intros Hfree. unfold headerList_Set.
    apply (Index_free ":") in Hfree. rewrite Hfree. done.
  - intros before after -> Hfree. unfold headerList_Set.
    change (":" +:+ after) with (String ":" after).
    rewrite (Index_first ":" before after Hfree).
    rewrite bool_decide_false by lia.
    by rewrite slice_to_app, slice_after_byte.
  - apply first_byte.
Qed.

Lemma headerList_Set_first_colon_witness :
  headerList_Set TrimSpace_ascii [] "User-Agent: foo:bar"
  = ([ {| header_name := "User-Agent"; header_value := "foo:bar" |} ], None).
Proof.
  apply (proj1 (proj2 (headerList_Set_first_colon TrimSpace_ascii []
                         "User-Agent: foo:bar"))
           "User-Agent" " foo:bar" eq_refl).
  apply byte_free_count. reflexivity.
Defined.

(** ** The headers of the request *)

(** X12. The header map.  With no [-h] flag the request gets the nil map;
    otherwise the map holds, under every header name given, the value of the
    last flag with that name (the names compared as they are spelled), and
    no other key. *)
Theorem requestHeaders_last_wins (headerListFlag : headerList) :
  (requestHeaders headerListFlag = None ↔ headerListFlag = [])
  ∧ ∀ headers,
      requestHeaders headerListFlag = Some headers →
      ∀ key, headers !! key
             = header_value
               <$> last (filter (λ header, header_name header = key) headerListFlag).
Proof.
  unfold requestHeaders. split.
  - destruct headerListFlag as [|header headers]; [done|].
    rewrite bool_decide_true by (simpl; lia). done.
  - intros headers Hsome key.
    case_bool_decide; [|done]. injection Hsome as <-.
    apply (store_all_lookup header_name header_value).
Qed.

Lemma requestHeaders_last_wins_witness :
  ∃ headers,
    requestHeaders [ {| header_name := "Accept"; header_value := "a" |};
                     {| header_name := "Accept"; header_value := "b" |} ]
    = Some headers
    ∧ headers !! "Accept" = Some "b".
Proof.
  exists (<["Accept" := "b"]> (<["Accept" := "a"]> ∅)). split; [reflexivity|].
  exact (proj2 (requestHeaders_last_wins
                  [ {| header_name := "Accept"; header_value := "a" |};
                    {| header_name := "Accept"; header_value := "b" |} ])
           _ eq_refl "Accept").
Defined.

(** ** The [-d] flag *)

Section datapoint_flag.
Variable ToLower : string → string.
Variable Atoi : string → option Z.
Variable ParseFloat64 : string → option float64.
Variable Now : time.Time.

Lemma dp_Set_fields (d : dp) (ts val : string) :
  byte_free "," ts → byte_free "," val →
  dp_Set ToLower Atoi ParseFloat64 Now d (ts +:+ "," +:+ val)
  = match (if bool_decide (ToLower ts = "now") then inl Now
           else match Atoi ts with
                | None => inr ("unable to parse timestamp: " +:+ val)
                | Some i => inl (time.Unix i 0)
                end) with
    | inr err => (d, Some err)
    | inl instant =>
        match ParseFloat64 val with
        | None => (d, Some ("unable to parse value as float64: " +:+ ts))
        | Some v => ({| Timestamp := instant; Datapoint_Value := v |}, None)
        end
    end.
Proof.
  intros Hts Hval. unfold dp_Set.
  change ("," +:+ val) with (String "," val).
  by rewrite (Split_pair "," _ _ Hts Hval).
Qed.

End datapoint_flag.

(** X13. What [-d] rejects.  [Set] wants two fields around one comma.  A
    value with another number of commas, a first field that
    [strings.ToLower] does not turn into [now] and that [strconv.Atoi] does
    not read, and a second field that [strconv.ParseFloat] does not read are
    each answered by an error, and the datapoint is left as it was - also
    when the timestamp had been read already.  The error for the timestamp
    quotes the second field, and the error for the value quotes the first
    field. *)
Theorem dp_Set_errors
    (ToLower : string → string) (Atoi : string → option Z)
    (ParseFloat64 : string → option float64) (Now : time.Time)
    (d : dp) (value : string) :
  let setFlag := dp_Set ToLower Atoi ParseFloat64 Now in
  (count_byte "," value ≠ 1%nat →
   setFlag d value
   = (d, Some ("incorrect number of arguments to '-d': "
               +:+ Sprintf_d (Z.of_nat (count_byte "," value) + 1))))
  ∧ (∀ ts val,
       value = ts +:+ "," +:+ val → byte_free "," ts → byte_free "," val →
       (ToLower ts ≠ "now" → Atoi ts = None →
        setFlag d value = (d, Some ("unable to parse timestamp: " +:+ val)))
       ∧ (ToLower ts = "now" ∨ is_Some (Atoi ts) →
          ParseFloat64 val = None →
          setFlag d value = (d, Some ("unable to parse value as float64: " +:+ ts))))
  ∧ (∀ d' err, setFlag d value = (d', Some err) → d' = d).
Proof.
  intros setFlag. unfold setFlag.
  assert (Hcount : count_byte "," value ≠ 1%nat →
            dp_Set ToLower Atoi ParseFloat64 Now d value
            = (d, Some ("incorrect number of arguments to '-d': "
                        +:+ Sprintf_d (Z.of_nat (count_byte "," value) + 1)))).
  { intros Hcount. unfold dp_Set.
    pose proof (Split_length "," value) as Hlength.
    replace (Z.of_nat (count_byte "," value) + 1)%Z
      with (Z.of_nat (length (strings.Split value ","))) by lia.
    destruct (strings.Split value ",") as [|p0 [|p1 [|p2 rest]]];
      simpl in Hlength; try lia; reflexivity. }
  split; [exact Hcount|]. split.
  - intros ts val -> Hts Hval. rewrite (dp_Set_fields _ _ _ _ _ _ _ Hts Hval).
    split.
    + intros Hnow Hatoi. by rewrite bool_decide_false, Hatoi.
    + intros Hstamp Hfloat. case_bool_decide; [by rewrite Hfloat|].
      destruct Hstamp as [?|[i Hi]]; [done|]. by rewrite Hi, Hfloat.
  - intros d' err Hresult.
    destruct (decide (count_byte "," value = 1%nat)) as [Hone|Hother].
    + destruct (one_byte "," value Hone) as (ts & val & -> & Hts & Hval).
      change (String "," val) with ("," +:+ val) in Hresult.
      rewrite (dp_Set_fields _ _ _ _ _ _ _ Hts Hval) in Hresult.
      case_bool_decide; [|destruct (Atoi ts)];
        try destruct (ParseFloat64 val); congruence.
    + rewrite (Hcount Hother) in Hresult. congruence.
Qed.

Lemma dp_Set_errors_witness :
  dp_Set ToLower_ascii Atoi_int64 strconv.ParseFloat time.epoch
    {| Timestamp := time.epoch; Datapoint_Value := S754_zero false |}
    "yesterday,14.25"
  = ({| Timestamp := time.epoch; Datapoint_Value := S754_zero false |},
     Some "unable to parse timestamp: 14.25").
Proof.
  apply (proj1 (proj1 (proj2 (dp_Set_errors ToLower_ascii Atoi_int64
                                strconv.ParseFloat time.epoch _
                                "yesterday,14.25"))
                  "yesterday" "14.25" eq_refl
                  (proj2 (byte_free_count "," "yesterday") eq_refl)
                  (proj2 (byte_free_count "," "14.25") eq_refl))).
  - vm_compute. discriminate.
  - vm_compute. reflexivity.
Defined.

(** X14. What [-d] stores.  Of a value [ts,val] whose second field
    [strconv.ParseFloat] reads as [v], [Set] stores the value [v] and as
    timestamp the reading of the clock when [strings.ToLower] turns [ts]
    into [now] - whatever [strconv.Atoi] would make of it - and else the
    instant [i] seconds after the epoch, with no nanoseconds, when
    [strconv.Atoi] reads [ts] as [i]; the datapoint's earlier content is
    gone. *)
Theorem dp_Set_stores
    (ToLower : string → string) (Atoi : string → option Z)
    (ParseFloat64 : string → option float64) (Now : time.Time)
    (d : dp) (ts val : string) (v : float64) :
  byte_free "," ts → byte_free "," val →
  ParseFloat64 val = Some v →
  let setFlag := dp_Set ToLower Atoi ParseFloat64 Now in
  (ToLower ts = "now" →
   setFlag d (ts +:+ "," +:+ val)
   = ({| Timestamp := Now; Datapoint_Value := v |}, None))
  ∧ (∀ i, ToLower ts ≠ "now" → Atoi ts = Some i →
          setFlag d (ts +:+ "," +:+ val)
          = ({| Timestamp := time.mkTime i 0; Datapoint_Value := v |}, None)).
Proof.
  intros Hts Hval Hfloat setFlag. unfold setFlag.
  rewrite (dp_Set_fields _ _ _ _ _ _ _ Hts Hval), Hfloat. split.
  - intros Hnow. by rewrite bool_decide_true.
  - intros i Hnow Hatoi. by rewrite bool_decide_false, Hatoi.
Qed.

(** ** The flag lists only grow *)

(** X15. The flags accumulate.  A call of [Set] on the label list or on the
    header list never drops, changes or reorders what the list held: the
    old list is a prefix of the new one.  The list grows by one entry when
    the call returns no error, and stays as it was when it returns one. *)
Theorem flag_lists_accumulate
    (TrimSpace : string → string) (t : labelList) (h : headerList)
    (value : string) :
  (t `prefix_of` (labelList_Set t value).1
   ∧ ((labelList_Set t value).2 = None →
      length (labelList_Set t value).1 = S (length t))
   ∧ ((labelList_Set t value).2 ≠ None → (labelList_Set t value).1 = t))
  ∧ (h `prefix_of` (headerList_Set TrimSpace h value).1
     ∧ ((headerList_Set TrimSpace h value).2 = None →
        length (headerList_Set TrimSpace h value).1 = S (length h))
     ∧ ((headerList_Set TrimSpace h value).2 ≠ None →
        (headerList_Set TrimSpace h value).1 = h)).
Proof.
  split.
  - unfold labelList_Set.
    destruct (strings.Split value ":") as [|p0 [|p1 [|p2 rest]]]; simpl;
      (split; [try done; by apply prefix_app_r|]);
      (split; [try done; intros _; rewrite length_app; simpl; lia|done]).
  - unfold headerList_Set. case_bool_decide; simpl;
      (split; [try done; by apply prefix_app_r|]);
      (split; [try done; intros _; rewrite length_app; simpl; lia|done]).
Qed.

Lemma flag_lists_accumulate_witness :
  (labelList_Set [ {| Name := "status_code"; Value := "200" |} ] "method").1
  = [ {| Name := "status_code"; Value := "200" |} ].
Proof.
  apply (proj2 (proj2 (proj1 (flag_lists_accumulate TrimSpace_ascii
                                [ {| Name := "status_code"; Value := "200" |} ]
                                [] "method")))).
  vm_compute. discriminate.
Defined.

Lemma dp_Set_stores_witness :
  dp_Set ToLower_ascii Atoi_int64 strconv.ParseFloat time.epoch
    {| Timestamp := time.epoch; Datapoint_Value := S754_zero false |}
    "1556026059,14.25"
  = ({| Timestamp := time.mkTime 1556026059 0;
        Datapoint_Value := S754_finite false 8022036836253696 (-49) |}, None).
Proof.
  apply (proj2 (dp_Set_stores ToLower_ascii Atoi_int64 strconv.ParseFloat
                  time.epoch _ "1556026059" "14.25" _
                  (proj2 (byte_free_count "," "1556026059") eq_refl)
                  (proj2 (byte_free_count "," "14.25") eq_refl)
                  eq_refl)).
  - vm_compute. discriminate.
  - vm_compute. reflexivity.
Defined.
